(** * HexReconstruction: the three-stage reconstruction engine

    A shallow embedding of [reconstruction_engine.h] (graph construction,
    quad-face discovery, hexahedron assembly) together with the reference
    point layout and the slots of [mainwindow.cpp] and the drawing functions
    and the zoom of [glwidget.cpp], and the properties of the pipeline.

    Conventions of the embedding:
    - C++ [float] is IEEE-754 binary32, modelled exactly with the
      [SpecFloat] operations at precision 24 and maximal exponent 128;
      [double] likewise at 53 and 1024. Every operation is rounded on its
      own, to nearest even (no fused multiply-add, no excess precision).
    - C++ [int] indices are modelled as [Z]; container sizes are assumed to
      fit in an [int], so [(int)points.size()] is [Z.of_nat (length points)].
    - [std::vector] is a list; reading it outside its bounds is undefined
      behaviour, modelled as [None] in the [option] monad.
    - [std::unordered_set<int>] is a list without duplicates whose order
      stands for the iteration order of the container. That order is not
      specified by the language: [uset_insert] appends, which is one order
      among those a container may have (libstdc++ iterates small sets of
      integers in the reverse order), so a statement that depends on the
      order is made for every reordering of the sets.
    - [std::unordered_map<int, ...>] is a [gmap Z]. *)

From Stdlib Require Import ZArith Lia Bool.
From Stdlib Require Import Floats.SpecFloat.
From stdpp Require Import base option list gmap sorting.

Local Open Scope Z_scope.

(** ** Binary floating point *)

Module F32.
Definition prec : Z := 24.
Definition emax : Z := 128.

Definition add : spec_float → spec_float → spec_float := SFadd prec emax.
Definition sub : spec_float → spec_float → spec_float := SFsub prec emax.
Definition mul : spec_float → spec_float → spec_float := SFmul prec emax.
Definition div : spec_float → spec_float → spec_float := SFdiv prec emax.
Definition abs : spec_float → spec_float := SFabs.
Definition ltb : spec_float → spec_float → bool := SFltb.
Definition valid : spec_float → bool := valid_binary prec emax.

(** Conversion of an integer constant. *)
Definition of_Z (n : Z) : spec_float := binary_normalize prec emax n 0 false.

(** Narrowing conversion [float(x)] of a [double]. *)
Definition of_double (x : spec_float) : spec_float :=
  match x with
  | S754_finite s m e => binary_normalize prec emax (cond_Zopp s (Zpos m)) e s
  | _ => x
  end.

(** The literals [1e-3f] and [1.01f]: the binary32 values nearest to
    1/1000 and to 101/100. *)
Definition lit_1e_3 : spec_float := Eval vm_compute in div (of_Z 1) (of_Z 1000).
Definition lit_1_01 : spec_float := Eval vm_compute in div (of_Z 101) (of_Z 100).
End F32.

Module F64.
Definition prec : Z := 53.
Definition emax : Z := 1024.

Definition add : spec_float → spec_float → spec_float := SFadd prec emax.
Definition mul : spec_float → spec_float → spec_float := SFmul prec emax.
Definition div : spec_float → spec_float → spec_float := SFdiv prec emax.
Definition sqrt : spec_float → spec_float := SFsqrt prec emax.
Definition opp : spec_float → spec_float := SFopp.

Definition of_Z (n : Z) : spec_float := binary_normalize prec emax n 0 false.

(** Widening conversion [double(x)] of a [float]; it is exact. *)
Definition of_float (x : spec_float) : spec_float :=
  match x with
  | S754_finite s m e => binary_normalize prec emax (cond_Zopp s (Zpos m)) e s
  | _ => x
  end.
End F64.

(** ** [QVector3D]

    The Qt class is external to the repository; its operations are modelled
    after Qt 5.15 ([qvector3d.h], [qvector3d.cpp]): component-wise [float]
    arithmetic, and [length] evaluated in [double] and narrowed. *)

Module QVector3D.
Record t := mk { xp : spec_float; yp : spec_float; zp : spec_float }.

(** [operator-] *)
Definition minus (v1 v2 : t) : t :=
  mk (F32.sub (xp v1) (xp v2)) (F32.sub (yp v1) (yp v2)) (F32.sub (zp v1) (zp v2)).

(** [xp * xp + yp * yp + zp * zp] *)
Definition lengthSquared (v : t) : spec_float :=
  F32.add (F32.add (F32.mul (xp v) (xp v)) (F32.mul (yp v) (yp v))) (F32.mul (zp v) (zp v)).

(** [float(std::sqrt(double(xp) * double(xp) + ...))] *)
Definition length (v : t) : spec_float :=
  let x := F64.of_float (xp v) in
  let y := F64.of_float (yp v) in
  let z := F64.of_float (zp v) in
  F32.of_double (F64.sqrt (F64.add (F64.add (F64.mul x x) (F64.mul y y)) (F64.mul z z))).

(** The length of the difference of the two vectors. *)
Definition distanceToPoint (v point : t) : spec_float := length (minus v point).

Definition dotProduct (v1 v2 : t) : spec_float :=
  F32.add (F32.add (F32.mul (xp v1) (xp v2)) (F32.mul (yp v1) (yp v2))) (F32.mul (zp v1) (zp v2)).

Definition crossProduct (v1 v2 : t) : t :=
  mk (F32.sub (F32.mul (yp v1) (zp v2)) (F32.mul (zp v1) (yp v2)))
     (F32.sub (F32.mul (zp v1) (xp v2)) (F32.mul (xp v1) (zp v2)))
     (F32.sub (F32.mul (xp v1) (yp v2)) (F32.mul (yp v1) (xp v2))).

Definition valid (v : t) : bool := F32.valid (xp v) && F32.valid (yp v) && F32.valid (zp v).
End QVector3D.

Abbreviation Vector3 := QVector3D.t.

(** ** Type definitions of the engine *)

Record MeshPoint := mkMeshPoint { pos : Vector3; required_neighbors : Z }.

(** [std::unordered_map<int, std::unordered_set<int>>] *)
Abbreviation AdjacencyGraph := (gmap Z (list Z)).

(** [std::array<int, 4>] *)
Record QuadFace := mkQuad { q0 : Z; q1 : Z; q2 : Z; q3 : Z }.

(** [std::array<int, 8>] *)
Record Hexahedron := mkHex { h0 : Z; h1 : Z; h2 : Z; h3 : Z; h4 : Z; h5 : Z; h6 : Z; h7 : Z }.

Definition face_pts (f : QuadFace) : list Z := [q0 f; q1 f; q2 f; q3 f].

Definition hex_pts (h : Hexahedron) : list Z :=
  [h0 h; h1 h; h2 h; h3 h; h4 h; h5 h; h6 h; h7 h].

Global Instance QuadFace_eq_dec : EqDecision QuadFace.
Proof. solve_decision. Defined.

Global Instance Hexahedron_eq_dec : EqDecision Hexahedron.
Proof. solve_decision. Defined.

(** ** Containers *)

(** [v[i]] on a [std::vector]: undefined outside [0, size). *)
Definition vec_at {A : Type} (v : list A) (i : Z) : option A :=
  if decide (0 ≤ i) then v !! Z.to_nat i else None.

(** [s.insert(x)] and [s.count(x)] on an unordered set. The position at
    which [uset_insert] puts a new element fixes one iteration order; the
    container of the program may iterate in another one. *)
Definition uset_insert (x : Z) (s : list Z) : list Z :=
  if decide (x ∈ s) then s else s ++ [x].

Definition uset_count (x : Z) (s : list Z) : bool := bool_decide (x ∈ s).

(** [operator<] of [std::pair<float, int>]. *)
Definition pair_ltb (a b : spec_float * Z) : bool :=
  F32.ltb a.1 b.1 || (negb (F32.ltb b.1 a.1) && (a.2 <? b.2)).

Definition pair_lt (a b : spec_float * Z) : Prop := pair_ltb a b = true.

Global Instance pair_lt_dec : RelDecision pair_lt.
Proof. intros a b. unfold pair_lt. apply _. Defined.

(** [std::sort] with the default comparison. With a NaN among the distances
    [operator<] on the pairs is no strict weak order and the effect of
    [std::sort] is undefined; the merge sort of the model returns a
    permutation all the same, so only what holds of every permutation is
    proved of the graph without assuming that the distances are numbers. *)
Definition sort_distances : list (spec_float * Z) → list (spec_float * Z) :=
  merge_sort pair_lt.

Definition sort_int : list Z → list Z := merge_sort Z.le.

(** [std::max] of an initializer list: the leftmost greatest element
    according to [<]. *)
Definition max_of (x : spec_float) (xs : list spec_float) : spec_float :=
  foldl (λ largest y, if F32.ltb largest y then y else largest) x xs.

(** ** Helper function *)

Definition arePointsCoplanar (points : list MeshPoint) (face : QuadFace)
    (tolerance : spec_float) : option bool :=
  let size := Z.of_nat (length points) in
  if (size <=? q0 face) || (size <=? q1 face) || (size <=? q2 face) || (size <=? q3 face)
  then Some false
  else
    p0 ← pos <$> vec_at points (q0 face);
    p1 ← pos <$> vec_at points (q1 face);
    p2 ← pos <$> vec_at points (q2 face);
    p3 ← pos <$> vec_at points (q3 face);
    let v1 := QVector3D.minus p1 p0 in
    let v2 := QVector3D.minus p2 p0 in
    let v3 := QVector3D.minus p3 p0 in
    let volume := QVector3D.dotProduct v1 (QVector3D.crossProduct v2 v3) in
    Some (F32.ltb (F32.abs volume) tolerance).

Module ReconstructionEngine.

(** *** Step 1: the adjacency graph *)

(** The inner loop over [j], pushing [(distance, j)] for [j ≠ i]. *)
Fixpoint distances_loop (pi : MeshPoint) (i j : nat) (rest : list MeshPoint)
    (distances : list (spec_float * Z)) : list (spec_float * Z) :=
  match rest with
  | [] => distances
  | pj :: rest' =>
      distances_loop pi i (S j) rest'
        (if decide (i = j) then distances
         else distances ++ [(QVector3D.distanceToPoint (pos pi) (pos pj), Z.of_nat j)])
  end.

(** The loop [for (k = 0; k < k_neighbors && k < distances.size(); ++k)],
    running over the entries of [distances] from position [k] on. *)
Fixpoint insert_loop (i : Z) (k_neighbors k : Z) (distances : list (spec_float * Z))
    (adjGraph : AdjacencyGraph) : AdjacencyGraph :=
  match distances with
  | [] => adjGraph
  | d :: rest =>
      if k <? k_neighbors
      then insert_loop i k_neighbors (k + 1) rest
             (<[i := uset_insert d.2 (default [] (adjGraph !! i))]> adjGraph)
      else adjGraph
  end.

(** The outer loop over [i]. *)
Fixpoint graph_loop (points : list MeshPoint) (i : nat) (rest : list MeshPoint)
    (adjGraph : AdjacencyGraph) : AdjacencyGraph :=
  match rest with
  | [] => adjGraph
  | pi :: rest' =>
      let distances := sort_distances (distances_loop pi i 0 points []) in
      let adjGraph := <[Z.of_nat i := []]> adjGraph in
      let k_neighbors := required_neighbors pi in
      graph_loop points (S i) rest'
        (insert_loop (Z.of_nat i) k_neighbors 0 distances adjGraph)
  end.

Definition buildAdjacencyGraph (points : list MeshPoint) : AdjacencyGraph :=
  match points with
  | [] => ∅
  | _ => graph_loop points 0 points ∅
  end.

(** *** Step 2: quad faces *)

(** The two accumulators of the search: [validFaces] and [uniqueFaces]. *)
Record face_state := mkFaceState {
  validFaces : list QuadFace;
  uniqueFaces : gset (list Z)
}.

Definition sortedFace (f : QuadFace) : list Z := sort_int (face_pts f).

Definition sq_dist (a b : MeshPoint) : spec_float :=
  QVector3D.lengthSquared (QVector3D.minus (pos a) (pos b)).

(** The diagonal test of lines 103-113, for a face already found coplanar. *)
Definition diagonals_ok (points : list MeshPoint) (face : QuadFace) : option bool :=
  P0 ← vec_at points (q0 face);
  P1 ← vec_at points (q1 face);
  P2 ← vec_at points (q2 face);
  P3 ← vec_at points (q3 face);
  let edge01_sq := sq_dist P0 P1 in
  let edge12_sq := sq_dist P1 P2 in
  let edge23_sq := sq_dist P2 P3 in
  let edge30_sq := sq_dist P3 P0 in
  let diag02_sq := sq_dist P0 P2 in
  let diag13_sq := sq_dist P1 P3 in
  let max_edge_sq := max_of edge01_sq [edge12_sq; edge23_sq; edge30_sq] in
  Some (F32.ltb (F32.mul max_edge_sq F32.lit_1_01) diag02_sq
        && F32.ltb (F32.mul max_edge_sq F32.lit_1_01) diag13_sq).

(** The geometric filter: coplanarity, then the diagonal test. *)
Definition face_accepted (points : list MeshPoint) (face : QuadFace) : option bool :=
  c ← arePointsCoplanar points face F32.lit_1e_3;
  if c : bool then diagonals_ok points face else Some false.

(** Lines 100-122: one candidate [(p0, p1, p2, p3)]. *)
Definition consider (points : list MeshPoint) (potentialFace : QuadFace)
    (st : face_state) : option face_state :=
  ok ← face_accepted points potentialFace;
  if ok : bool then
    if decide (sortedFace potentialFace ∈ uniqueFaces st) then Some st
    else Some (mkFaceState (validFaces st ++ [potentialFace])
                           ({[sortedFace potentialFace]} ∪ uniqueFaces st))
  else Some st.

(** The loop over [p2] in [adjGraph.at(p1)]. *)
Fixpoint p2_loop (points : list MeshPoint) (p0 p1 p3 : Z) (at_p3 : list Z)
    (at_p1 : list Z) (st : face_state) : option face_state :=
  match at_p1 with
  | [] => Some st
  | p2 :: rest =>
      st' ← (if bool_decide (p2 ≠ p0) && uset_count p2 at_p3
             then consider points (mkQuad p0 p1 p2 p3) st
             else Some st);
      p2_loop points p0 p1 p3 at_p3 rest st'
  end.

(** The loop over [j > i]: [p3] ranges over the neighbours after [p1]. *)
Fixpoint j_loop (points : list MeshPoint) (adjGraph : AdjacencyGraph) (p0 p1 : Z)
    (after : list Z) (st : face_state) : option face_state :=
  match after with
  | [] => Some st
  | p3 :: rest =>
      st' ← match adjGraph !! p1, adjGraph !! p3 with
            | Some at_p1, Some at_p3 => p2_loop points p0 p1 p3 at_p3 at_p1 st
            | _, _ => Some st
            end;
      j_loop points adjGraph p0 p1 rest st'
  end.

(** The loop over [i]: [p1] ranges over the neighbours of [p0]. *)
Fixpoint i_loop (points : list MeshPoint) (adjGraph : AdjacencyGraph) (p0 : Z)
    (neighbors : list Z) (st : face_state) : option face_state :=
  match neighbors with
  | [] => Some st
  | p1 :: rest =>
      st' ← j_loop points adjGraph p0 p1 rest st;
      i_loop points adjGraph p0 rest st'
  end.

(** The loop over [p0_idx], counting down the points still to visit. *)
Fixpoint p0_loop (points : list MeshPoint) (adjGraph : AdjacencyGraph) (p0_idx : Z)
    (todo : nat) (st : face_state) : option face_state :=
  match todo with
  | O => Some st
  | S todo' =>
      st' ← match adjGraph !! p0_idx with
            | None => Some st
            | Some neighbors => i_loop points adjGraph p0_idx neighbors st
            end;
      p0_loop points adjGraph (p0_idx + 1) todo' st'
  end.

Definition findValidFaces (points : list MeshPoint) (adjGraph : AdjacencyGraph)
    : option (list QuadFace) :=
  validFaces <$> p0_loop points adjGraph 0 (length points) (mkFaceState [] ∅).

(** *** Step 3: hexahedra *)

(** Check 1: no vertex of [face2] is in the set of vertices of [face1]. *)
Definition faces_disjoint (face1 face2 : QuadFace) : bool :=
  let face1_pts : gset Z := list_to_set (face_pts face1) in
  forallb (λ p, negb (bool_decide (p ∈ face1_pts))) (face_pts face2).

(** Check 2: the edges collected from [face1] to [face2]. *)
Definition connecting_edges (adjGraph : AdjacencyGraph) (face1 face2 : QuadFace)
    : list (Z * Z) :=
  p1 ← face_pts face1;
  match adjGraph !! p1 with
  | None => []
  | Some at_p1 =>
      p2 ← face_pts face2;
      if uset_count p2 at_p1 then [(p1, p2)] else []
  end.

(** The body of the pair loop: the candidate pushed for [(face1, face2)],
    if any. *)
Definition pair_candidate (adjGraph : AdjacencyGraph) (face1 face2 : QuadFace)
    : list Hexahedron :=
  if faces_disjoint face1 face2 then
    match connecting_edges adjGraph face1 face2 with
    | [e0; e1; e2; e3] =>
        let f1_check : gset Z := list_to_set [e0.1; e1.1; e2.1; e3.1] in
        let f2_check : gset Z := list_to_set [e0.2; e1.2; e2.2; e3.2] in
        if decide (size f1_check = 4%nat ∧ size f2_check = 4%nat)
        then [mkHex e0.1 e1.1 e2.1 e3.1 e0.2 e1.2 e2.2 e3.2]
        else []
    | _ => []
    end
  else [].

(** The loops over [i] and [j > i]. *)
Fixpoint candidateHexahedra (adjGraph : AdjacencyGraph) (validFaces : list QuadFace)
    : list Hexahedron :=
  match validFaces with
  | [] => []
  | face1 :: rest =>
      (face2 ← rest; pair_candidate adjGraph face1 face2)
      ++ candidateHexahedra adjGraph rest
  end.

Definition sortedHex (hex : Hexahedron) : list Z := sort_int (hex_pts hex).

Record hex_state := mkHexState {
  finalHexahedra : list Hexahedron;
  uniqueHexes : gset (list Z)
}.

(** The body of the deduplication loop. *)
Definition dedup_step (st : hex_state) (hex : Hexahedron) : hex_state :=
  let pointSet : gset Z := list_to_set (sortedHex hex) in
  if decide (size pointSet ≠ 8%nat) then st
  else if decide (sortedHex hex ∈ uniqueHexes st) then st
  else mkHexState (finalHexahedra st ++ [hex]) ({[sortedHex hex]} ∪ uniqueHexes st).

Definition buildHexahedra (validFaces : list QuadFace) (adjGraph : AdjacencyGraph)
    : list Hexahedron :=
  finalHexahedra (foldl dedup_step (mkHexState [] ∅) (candidateHexahedra adjGraph validFaces)).

End ReconstructionEngine.

(** ** The reference point layout of [MainWindow::MainWindow] *)

Module MainWindow.
(** The [double] literal [-0.2], narrowed to [float] by the constructor. *)
Definition lit_m0_2 : spec_float :=
  Eval vm_compute in F32.of_double (F64.opp (F64.div (F64.of_Z 1) (F64.of_Z 5))).

Definition pt (x y z : spec_float) (k : Z) : MeshPoint :=
  mkMeshPoint (QVector3D.mk x y z) k.

Definition m_points : list MeshPoint :=
  let n := F32.of_Z in
  [ pt lit_m0_2 (n 0) (n 0) 3; pt (n 1) (n 0) (n 0) 3; pt (n 1) (n 1) (n 0) 3; pt (n 0) (n 1) (n 0) 3;
    pt (n 0) (n 0) (n 1) 4; pt (n 1) (n 0) (n 1) 4; pt (n 1) (n 1) (n 1) 4; pt (n 0) (n 1) (n 1) 4;
    pt (n 0) (n 0) (n 2) 4; pt (n 1) (n 0) (n 2) 4; pt (n 1) (n 1) (n 2) 4; pt (n 0) (n 1) (n 2) 4;
    pt (n 0) (n 0) (n 3) 3; pt (n 1) (n 0) (n 3) 3; pt (n 1) (n 1) (n 3) 3; pt (n 0) (n 1) (n 3) 3 ].

(** The three stages on these points, the sets being iterated in the order
    of insertion. *)
Definition m_adjGraph : AdjacencyGraph := ReconstructionEngine.buildAdjacencyGraph m_points.

Definition m_faces : option (list QuadFace) :=
  ReconstructionEngine.findValidFaces m_points m_adjGraph.

Definition m_hexahedra : option (list Hexahedron) :=
  (λ faces, ReconstructionEngine.buildHexahedra faces m_adjGraph) <$> m_faces.

(** The outputs of the three stages on the reference layout when every
    adjacency set is iterated in the order of insertion. The vertex sets of
    the faces and of the hexahedra do not depend on that order; the order of
    the vertices within them and of the faces in the list does. *)
Definition reference_graph : AdjacencyGraph :=
  list_to_map
    [ (0, [3; 4; 1]); (1, [2; 5; 0]); (2, [1; 3; 6]); (3, [2; 7; 0]);
      (4, [5; 7; 8; 0]); (5, [1; 4; 6; 9]); (6, [2; 5; 7; 10]); (7, [3; 4; 6; 11]);
      (8, [4; 9; 11; 12]); (9, [5; 8; 10; 13]); (10, [6; 9; 11; 14]); (11, [7; 8; 10; 15]);
      (12, [8; 13; 15]); (13, [9; 12; 14]); (14, [10; 13; 15]); (15, [11; 12; 14]) ].

Definition reference_faces : list QuadFace :=
  [ mkQuad 0 3 2 1; mkQuad 0 4 5 1; mkQuad 1 2 6 5; mkQuad 2 3 7 6; mkQuad 4 5 6 7;
    mkQuad 4 5 9 8; mkQuad 4 7 11 8; mkQuad 5 6 10 9; mkQuad 6 7 11 10; mkQuad 8 9 10 11;
    mkQuad 8 9 13 12; mkQuad 8 11 15 12; mkQuad 9 10 14 13; mkQuad 10 11 15 14;
    mkQuad 12 13 14 15 ].

Definition reference_hexahedra : list Hexahedron :=
  [ mkHex 0 3 2 1 4 7 6 5; mkHex 4 5 6 7 8 9 10 11; mkHex 8 9 10 11 12 13 14 15 ].
End MainWindow.


(** ** The viewer: [GLWidget]

    The OpenGL calls of the drawing functions are the observable behaviour of
    the viewer: a drawing function is modelled by the list of the calls it
    issues, in order, and by [None] when it reads the point sequence outside
    its bounds. The camera fields other than [m_zoom] (a quaternion and two
    matrices of Qt) and the repaint requests are left out. *)

Module GL.
Inductive mode := GL_POINTS | GL_LINES | GL_QUADS.

Inductive call :=
  | glColor3f (r g b : spec_float)
  | glColor4f (r g b a : spec_float)
  | glLineWidth (w : spec_float)
  | glPointSize (s : spec_float)
  | glBegin (m : mode)
  | glVertex3f (x y z : spec_float)
  | glEnd.
End GL.

Module GLWidget.
Import GL.

Record t := mk {
  m_points : list MeshPoint;
  m_adjGraph : AdjacencyGraph;
  m_faces : list QuadFace;
  m_hexahedra : list Hexahedron;
  m_zoom : spec_float
}.

(** The [float] literals of the file. *)
Definition lit_0_2 : spec_float := Eval vm_compute in F32.div (F32.of_Z 2) (F32.of_Z 10).
Definition lit_0_3 : spec_float := Eval vm_compute in F32.div (F32.of_Z 3) (F32.of_Z 10).
Definition lit_0_5 : spec_float := Eval vm_compute in F32.div (F32.of_Z 5) (F32.of_Z 10).
Definition lit_0_6 : spec_float := Eval vm_compute in F32.div (F32.of_Z 6) (F32.of_Z 10).
Definition lit_0_9 : spec_float := Eval vm_compute in F32.div (F32.of_Z 9) (F32.of_Z 10).
Definition lit_1_0 : spec_float := Eval vm_compute in F32.of_Z 1.
Definition lit_1_1 : spec_float := Eval vm_compute in F32.div (F32.of_Z 11) (F32.of_Z 10).
Definition lit_8_0 : spec_float := Eval vm_compute in F32.of_Z 8.

(** The constructor: no data, [m_zoom(1.0f)]. *)
Definition constructor : t := mk [] ∅ [] [] lit_1_0.

(** The setters and [reset]. *)
Definition setPoints (points : list MeshPoint) (w : t) : t :=
  mk points (m_adjGraph w) (m_faces w) (m_hexahedra w) (m_zoom w).

Definition setAdjacencyGraph (graph : AdjacencyGraph) (w : t) : t :=
  mk (m_points w) graph (m_faces w) (m_hexahedra w) (m_zoom w).

Definition setFaces (faces : list QuadFace) (w : t) : t :=
  mk (m_points w) (m_adjGraph w) faces (m_hexahedra w) (m_zoom w).

Definition setHexahedra (hexahedra : list Hexahedron) (w : t) : t :=
  mk (m_points w) (m_adjGraph w) (m_faces w) hexahedra (m_zoom w).

Definition reset (w : t) : t := mk [] ∅ [] [] (m_zoom w).

(** [glVertex3f(p.x(), p.y(), p.z())] *)
Definition vertex (p : Vector3) : call :=
  glVertex3f (QVector3D.xp p) (QVector3D.yp p) (QVector3D.zp p).

Definition drawPoints (w : t) : list call :=
  [glColor3f lit_1_0 lit_1_0 lit_1_0; glPointSize lit_8_0; glBegin GL_POINTS]
  ++ ((λ p, vertex (pos p)) <$> m_points w)
  ++ [glEnd].

(** The inner loop of [drawGraph] over the neighbours of one entry. *)
Fixpoint drawGraph_neighbors (points : list MeshPoint) (p1 : Vector3) (neighbors : list Z)
    : option (list call) :=
  match neighbors with
  | [] => Some []
  | neighbor_idx :: rest =>
      if Z.of_nat (length points) <=? neighbor_idx
      then drawGraph_neighbors points p1 rest
      else
        p2 ← pos <$> vec_at points neighbor_idx;
        calls ← drawGraph_neighbors points p1 rest;
        Some (vertex p1 :: vertex p2 :: calls)
  end.

(** The outer loop of [drawGraph], over the entries of the map in the order
    [entries] in which the map enumerates them. *)
Fixpoint drawGraph_entries (points : list MeshPoint) (entries : list (Z * list Z))
    : option (list call) :=
  match entries with
  | [] => Some []
  | entry :: rest =>
      if Z.of_nat (length points) <=? entry.1
      then drawGraph_entries points rest
      else
        p1 ← pos <$> vec_at points entry.1;
        calls ← drawGraph_neighbors points p1 entry.2;
        calls' ← drawGraph_entries points rest;
        Some (calls ++ calls')
  end.

Definition drawGraph (w : t) : option (list call) :=
  calls ← drawGraph_entries (m_points w) (map_to_list (m_adjGraph w));
  Some ([glColor3f lit_0_5 lit_0_5 lit_0_6; glLineWidth lit_1_0; glBegin GL_LINES]
        ++ calls ++ [glEnd]).

(** The loop [for (i = 0; i < 4; ++i)] of [drawFaces] over the indices of
    one face: the calls issued, and whether the function returned from
    inside the loop. *)
Fixpoint drawFaces_indices (points : list MeshPoint) (indices : list Z)
    : option (list call * bool) :=
  match indices with
  | [] => Some ([], false)
  | idx :: rest =>
      if Z.of_nat (length points) <=? idx
      then Some ([glEnd], true)
      else
        p ← pos <$> vec_at points idx;
        r ← drawFaces_indices points rest;
        Some (vertex p :: r.1, r.2)
  end.

Fixpoint drawFaces_loop (points : list MeshPoint) (faces : list QuadFace)
    : option (list call) :=
  match faces with
  | [] => Some []
  | face :: rest =>
      r ← drawFaces_indices points (face_pts face);
      if r.2 : bool then Some (glBegin GL_QUADS :: r.1)
      else
        calls ← drawFaces_loop points rest;
        Some (glBegin GL_QUADS :: r.1 ++ glEnd :: calls)
  end.

Definition drawFaces (w : t) : option (list call) :=
  calls ← drawFaces_loop (m_points w) (m_faces w);
  Some (glColor4f lit_0_2 lit_0_5 lit_1_0 lit_0_3 :: calls).

(** The table of the six quads of a cell. *)
Definition hex_faces (hex : Hexahedron) : list QuadFace :=
  [ mkQuad (h0 hex) (h3 hex) (h2 hex) (h1 hex); mkQuad (h4 hex) (h5 hex) (h6 hex) (h7 hex);
    mkQuad (h0 hex) (h4 hex) (h7 hex) (h3 hex); mkQuad (h1 hex) (h2 hex) (h6 hex) (h5 hex);
    mkQuad (h0 hex) (h1 hex) (h5 hex) (h4 hex); mkQuad (h3 hex) (h7 hex) (h6 hex) (h2 hex) ].

(** The loop [for (int idx : face)] of [drawHexahedra]: [continue] goes on
    with the next index of the same face. *)
Fixpoint drawHexahedra_indices (points : list MeshPoint) (indices : list Z)
    : option (list call) :=
  match indices with
  | [] => Some []
  | idx :: rest =>
      if Z.of_nat (length points) <=? idx
      then calls ← drawHexahedra_indices points rest; Some (glEnd :: calls)
      else
        p ← pos <$> vec_at points idx;
        calls ← drawHexahedra_indices points rest;
        Some (vertex p :: calls)
  end.

Fixpoint drawHexahedra_faces (points : list MeshPoint) (faces : list QuadFace)
    : option (list call) :=
  match faces with
  | [] => Some []
  | face :: rest =>
      calls ← drawHexahedra_indices points (face_pts face);
      calls' ← drawHexahedra_faces points rest;
      Some (glBegin GL_QUADS :: calls ++ glEnd :: calls')
  end.

Fixpoint drawHexahedra_loop (points : list MeshPoint) (hexahedra : list Hexahedron)
    : option (list call) :=
  match hexahedra with
  | [] => Some []
  | hex :: rest =>
      calls ← drawHexahedra_faces points (hex_faces hex);
      calls' ← drawHexahedra_loop points rest;
      Some (calls ++ calls')
  end.

Definition drawHexahedra (w : t) : option (list call) :=
  calls ← drawHexahedra_loop (m_points w) (m_hexahedra w);
  Some (glColor4f lit_1_0 lit_0_3 lit_0_3 lit_0_5 :: calls).

(** [wheelEvent], on the vertical component of [angleDelta]. *)
Definition wheelEvent (angleDelta_y : Z) (w : t) : t :=
  mk (m_points w) (m_adjGraph w) (m_faces w) (m_hexahedra w)
     (if 0 <? angleDelta_y then F32.mul (m_zoom w) lit_1_1 else F32.mul (m_zoom w) lit_0_9).
End GLWidget.

(** ** The coordinator: the slots of [MainWindow]

    The state holds the four data members, the viewer, and which of the three
    step buttons are enabled. A click on a disabled button does not reach its
    slot; the reset button is never disabled. The messages written with
    [qDebug] are left out. *)

Module Slots.
Record t := mk {
  m_points : list MeshPoint;
  m_adjGraph : AdjacencyGraph;
  m_faces : list QuadFace;
  m_hexahedra : list Hexahedron;
  m_glWidget : GLWidget.t;
  m_step1Button : bool;
  m_step2Button : bool;
  m_step3Button : bool
}.

Definition onReset (s : t) : t :=
  mk (m_points s) ∅ [] []
     (GLWidget.setPoints (m_points s) (GLWidget.reset (m_glWidget s)))
     true false false.

Definition onStep1_BuildGraph (s : t) : t :=
  let adjGraph := ReconstructionEngine.buildAdjacencyGraph (m_points s) in
  mk (m_points s) adjGraph (m_faces s) (m_hexahedra s)
     (GLWidget.setAdjacencyGraph adjGraph (m_glWidget s))
     false true (m_step3Button s).

Definition onStep2_FindFaces (s : t) : option t :=
  faces ← ReconstructionEngine.findValidFaces (m_points s) (m_adjGraph s);
  Some (mk (m_points s) (m_adjGraph s) faces (m_hexahedra s)
           (GLWidget.setFaces faces (m_glWidget s))
           (m_step1Button s) false true).

Definition onStep3_BuildHexahedra (s : t) : t :=
  let hexahedra := ReconstructionEngine.buildHexahedra (m_faces s) (m_adjGraph s) in
  mk (m_points s) (m_adjGraph s) (m_faces s) hexahedra
     (GLWidget.setHexahedra hexahedra (m_glWidget s))
     (m_step1Button s) (m_step2Button s) false.

(** The constructor: [setupUI] creates the viewer and the buttons (enabled),
    the points are loaded, and [onReset] sets the initial state. *)
Definition constructor (points : list MeshPoint) : t :=
  onReset (mk points ∅ [] [] GLWidget.constructor true true true).

(** What the user can do. *)
Inductive event :=
  | ClickReset
  | ClickStep1
  | ClickStep2
  | ClickStep3
  | Wheel (angleDelta_y : Z).

Definition handle (e : event) (s : t) : option t :=
  match e with
  | ClickReset => Some (onReset s)
  | ClickStep1 => if m_step1Button s then Some (onStep1_BuildGraph s) else Some s
  | ClickStep2 => if m_step2Button s then onStep2_FindFaces s else Some s
  | ClickStep3 => if m_step3Button s then Some (onStep3_BuildHexahedra s) else Some s
  | Wheel dy =>
      Some (mk (m_points s) (m_adjGraph s) (m_faces s) (m_hexahedra s)
               (GLWidget.wheelEvent dy (m_glWidget s))
               (m_step1Button s) (m_step2Button s) (m_step3Button s))
  end.

(** The states that the window can be in. *)
Inductive reachable (points : list MeshPoint) : t → Prop :=
  | reachable_constructor : reachable points (constructor points)
  | reachable_handle s e s' :
      reachable points s → handle e s = Some s' → reachable points s'.
End Slots.
(** ** Auxiliary definitions for binary32 arithmetic *)

(** The exponent function of binary32. *)
Definition fexp32 (e : Z) : Z := Z.max (e - 24) (-149).

(** A result of rounding with sign [s]: a zero, an infinity or a finite number
    in canonical form, all of sign [s]. *)
Definition rounded (s : bool) (x : spec_float) : Prop :=
  x = S754_zero s ∨ x = S754_infinity s
  ∨ ∃ m e, x = S754_finite s m e ∧ bounded 24 128 m e = true.

(** Not a negative number: a NaN, a zero, or a positive number. *)
Definition not_negative (x : spec_float) : Prop :=
  match x with
  | S754_nan | S754_zero _ => True
  | S754_infinity s | S754_finite s _ _ => s = false
  end.

(** A key that orders the numbers as [SFcompare] does. *)
Definition order_key (x : spec_float) : Z * Z * Z :=
  match x with
  | S754_nan => (0, 0, 0)
  | S754_zero _ => (0, 0, 0)
  | S754_infinity true => (-2, 0, 0)
  | S754_infinity false => (2, 0, 0)
  | S754_finite true m e => (-1, - e, - Zpos m)
  | S754_finite false m e => (1, e, Zpos m)
  end.

Definition key_lt (k1 k2 : Z * Z * Z) : Prop :=
  k1.1.1 < k2.1.1
  ∨ (k1.1.1 = k2.1.1 ∧ (k1.1.2 < k2.1.2 ∨ (k1.1.2 = k2.1.2 ∧ k1.2 < k2.2))).

Definition is_nan (x : spec_float) : Prop := x = S754_nan.

(** ** Auxiliary definitions used in the statements and proofs *)

Section auxiliary.
Import ReconstructionEngine.

(** The indices pushed by the inner loop of step 1, in order. *)
Definition others (i j len : nat) : list Z :=
  Z.of_nat <$> filter (λ j', i ≠ j') (seq j len).

(** The neighbour set computed for point [i]. *)
Definition neighbors_of (points : list MeshPoint) (i : nat) (pi : MeshPoint) : list Z :=
  foldl (λ s d, uset_insert d.2 s) []
    (take (Z.to_nat (required_neighbors pi))
       (sort_distances (distances_loop pi i 0 points []))).

(** A left fold in the [option] monad: the loop stops at the first
    undefined step. *)
Fixpoint foldM {A B : Type} (f : B → A → option A) (l : list B) (a : A) : option A :=
  match l with
  | [] => Some a
  | x :: l' => a' ← f x a; foldM f l' a'
  end.

(** Keeping, in order, the elements whose key was not seen before. *)
Fixpoint dedup_by {A K : Type} `{Countable K} (key : A → K) (seen : gset K) (l : list A)
    : list A :=
  match l with
  | [] => []
  | x :: l' =>
      if decide (key x ∈ seen) then dedup_by key seen l'
      else x :: dedup_by key ({[key x]} ∪ seen) l'
  end.

(** The candidates of step 2 in the order in which the loops visit them. *)
Definition p2_candidates (p0 p1 p3 : Z) (at_p3 at_p1 : list Z) : list QuadFace :=
  p2 ← at_p1;
  if bool_decide (p2 ≠ p0) && uset_count p2 at_p3 then [mkQuad p0 p1 p2 p3] else [].

Fixpoint j_candidates (adjGraph : AdjacencyGraph) (p0 p1 : Z) (after : list Z)
    : list QuadFace :=
  match after with
  | [] => []
  | p3 :: rest =>
      match adjGraph !! p1, adjGraph !! p3 with
      | Some at_p1, Some at_p3 => p2_candidates p0 p1 p3 at_p3 at_p1
      | _, _ => []
      end ++ j_candidates adjGraph p0 p1 rest
  end.

Fixpoint i_candidates (adjGraph : AdjacencyGraph) (p0 : Z) (neighbors : list Z)
    : list QuadFace :=
  match neighbors with
  | [] => []
  | p1 :: rest => j_candidates adjGraph p0 p1 rest ++ i_candidates adjGraph p0 rest
  end.

Fixpoint p0_candidates (adjGraph : AdjacencyGraph) (p0_idx : Z) (todo : nat)
    : list QuadFace :=
  match todo with
  | O => []
  | S todo' =>
      match adjGraph !! p0_idx with
      | None => []
      | Some neighbors => i_candidates adjGraph p0_idx neighbors
      end ++ p0_candidates adjGraph (p0_idx + 1) todo'
  end.

Definition traversal (points : list MeshPoint) (adjGraph : AdjacencyGraph) : list QuadFace :=
  p0_candidates adjGraph 0 (length points).

(** The candidates that pass the geometric filter. *)
Definition accepted (points : list MeshPoint) (f : QuadFace) : Prop :=
  face_accepted points f = Some true.

Global Instance accepted_dec points f : Decision (accepted points f).
Proof. unfold accepted. apply _. Defined.

(** The candidates of step 3 that pass the guard of the deduplication. *)
Definition eight_distinct (hex : Hexahedron) : Prop :=
  size (list_to_set (sortedHex hex) : gset Z) = 8%nat.

Global Instance eight_distinct_dec hex : Decision (eight_distinct hex).
Proof. unfold eight_distinct. apply _. Defined.

(** [b] is in the adjacency set of [a]. *)
Definition edge (adjGraph : AdjacencyGraph) (a b : Z) : Prop :=
  ∃ s, adjGraph !! a = Some s ∧ b ∈ s.

Global Instance edge_dec adjGraph a b : Decision (edge adjGraph a b).
Proof.
  unfold edge. destruct (adjGraph !! a) as [s|].
  - destruct (decide (b ∈ s)) as [Hin|Hout].
    + left. by exists s.
    + right. intros (s' & [= <-] & ?). done.
  - right. intros (? & [=] & _).
Defined.

(** A candidate is a 4-cycle [p0 - p1 - p2 - p3 - p0] of the graph starting at
    a point index. *)
Definition four_cycle (n : Z) (adjGraph : AdjacencyGraph) (f : QuadFace) : Prop :=
  0 ≤ q0 f < n
  ∧ edge adjGraph (q0 f) (q1 f) ∧ edge adjGraph (q0 f) (q3 f)
  ∧ edge adjGraph (q1 f) (q2 f) ∧ edge adjGraph (q3 f) (q2 f)
  ∧ q2 f ≠ q0 f.

(** The edges from one vertex of the first face to the second face. *)
Definition edges_from (adjGraph : AdjacencyGraph) (face2 : QuadFace) (p1 : Z) : list (Z * Z) :=
  match adjGraph !! p1 with
  | None => []
  | Some at_p1 =>
      p2 ← face_pts face2;
      if uset_count p2 at_p1 then [(p1, p2)] else []
  end.

(** All pairs of a vertex of the first face and a vertex of the second, in
    the order of the two loops. *)
Definition vertex_pairs (face1 face2 : QuadFace) : list (Z * Z) :=
  p1 ← face_pts face1; p2 ← face_pts face2; [(p1, p2)].

(** A hexahedron decomposes into [face1] and [face2]: the faces share no
    vertex, the edges of the graph from [face1] to [face2] are exactly the four
    pairs (slot [k], slot [k + 4]), the first four slots are [face1], the last
    four are the vertices of [face2], and the eight indices are pairwise
    different. *)
Definition decomposes (adjGraph : AdjacencyGraph) (face1 face2 : QuadFace)
    (hex : Hexahedron) : Prop :=
  let matching := [(h0 hex, h4 hex); (h1 hex, h5 hex); (h2 hex, h6 hex); (h3 hex, h7 hex)] in
  (∀ x, x ∈ face_pts face1 → x ∉ face_pts face2)
  ∧ connecting_edges adjGraph face1 face2 = matching
  ∧ (∀ a b, a ∈ face_pts face1 → b ∈ face_pts face2 →
       edge adjGraph a b ↔ (a, b) ∈ matching)
  ∧ [h0 hex; h1 hex; h2 hex; h3 hex] = face_pts face1
  ∧ [h4 hex; h5 hex; h6 hex; h7 hex] ≡ₚ face_pts face2
  ∧ NoDup (hex_pts hex).



(** Every coordinate of every point is a binary32 value in canonical form. *)
Definition points_valid (points : list MeshPoint) : Prop :=
  Forall (λ p, QVector3D.valid (pos p) = true) points.

(** Two positions with equal coordinates, as numbers: [==] on [float], for
    which the two zeros are equal and a NaN equals nothing. *)
Definition same_position (a b : Vector3) : Prop :=
  SFeqb (QVector3D.xp a) (QVector3D.xp b) = true
  ∧ SFeqb (QVector3D.yp a) (QVector3D.yp b) = true
  ∧ SFeqb (QVector3D.zp a) (QVector3D.zp b) = true.

Global Instance same_position_dec a b : Decision (same_position a b).
Proof. unfold same_position. apply _. Defined.

(** The same sets in another iteration order: the two graphs have the same
    keys, and the sequence of every key in one is a permutation of its
    sequence in the other. *)
Definition reordering (g g' : AdjacencyGraph) : Prop :=
  ∀ k, option_Forall2 (≡ₚ) (g !! k) (g' !! k).

(** The face walked the other way round from its first vertex. *)
Definition flip (f : QuadFace) : QuadFace := mkQuad (q0 f) (q3 f) (q2 f) (q1 f).
End auxiliary.

(** ** Small inputs used to exercise the statements *)

Module Samples.
Definition pt (x y z : Z) (k : Z) : MeshPoint :=
  mkMeshPoint (QVector3D.mk (F32.of_Z x) (F32.of_Z y) (F32.of_Z z)) k.

(** Three points asking for two neighbours each. *)
Definition three_points : list MeshPoint :=
  [pt 0 0 0 2; pt 1 0 0 2; pt 0 1 0 2].

(** Points asking for more neighbours than there are, for none, and for a
    negative number of them. *)
Definition odd_counts : list MeshPoint :=
  [pt 0 0 0 7; pt 1 0 0 0; pt 0 1 0 (-2)].

(** One point, and a graph that sends it to indices below zero. *)
Definition one_point : list MeshPoint := [pt 0 0 0 3].

Definition negative_graph : AdjacencyGraph :=
  list_to_map [(0, [-1; -2]); (-1, [-3]); (-2, [-3])].

(** Two faces joined by four edges that only go from the first to the
    second. *)
Definition lower_face : QuadFace := mkQuad 0 1 2 3.
Definition upper_face : QuadFace := mkQuad 4 5 6 7.

Definition one_way_graph : AdjacencyGraph :=
  list_to_map [(0, [4]); (1, [5]); (2, [6]); (3, [7])].

(** The corners of a unit square, and a graph on them with the four sides
    in both directions and a self-loop at every corner. *)
Definition square_points : list MeshPoint :=
  [pt 0 0 0 2; pt 1 0 0 2; pt 1 1 0 2; pt 0 1 0 2].

Definition loop_graph : AdjacencyGraph :=
  list_to_map [(0, [0; 1; 3]); (1, [1; 2; 0]); (2, [2; 3; 1]); (3, [3; 0; 2])].

(** A unit square with its first corner doubled (index 4), and a graph in
    which both copies are reached from the corners 1 and 3. *)
Definition doubled_corner : list MeshPoint :=
  [pt 0 0 0 2; pt 1 0 0 2; pt 1 1 0 2; pt 0 1 0 2; pt 0 0 0 2].

Definition doubled_graph : AdjacencyGraph :=
  list_to_map [(0, [1; 3]); (1, [2; 4; 0]); (3, [2; 4; 0]); (4, [1; 3])].

(** The same square, the copy of the first corner being at [(-0, 0, 0)]. *)
Definition mirrored_corner : list MeshPoint :=
  [pt 0 0 0 2; pt 1 0 0 2; pt 1 1 0 2; pt 0 1 0 2;
   mkMeshPoint (QVector3D.mk (S754_zero true) (S754_zero false) (S754_zero false)) 2].
End Samples.

(** The reference layout without the iteration order: the vertex sets of its
    faces, its cells as the vertex sets of the lower face, of the upper face
    and of the cell, and the accepted 4-cycles of the graph in both
    directions. *)
Module Reference.
Definition face_keys : list (list Z) :=
  [ [0; 1; 2; 3]; [0; 1; 4; 5]; [1; 2; 5; 6]; [2; 3; 6; 7]; [4; 5; 6; 7];
    [4; 5; 8; 9]; [5; 6; 9; 10]; [4; 7; 8; 11]; [6; 7; 10; 11]; [8; 9; 10; 11];
    [8; 9; 12; 13]; [9; 10; 13; 14]; [8; 11; 12; 15]; [10; 11; 14; 15];
    [12; 13; 14; 15] ].

Definition cells : list (list Z * list Z * list Z) :=
  [ ([0; 1; 2; 3], [4; 5; 6; 7], [0; 1; 2; 3; 4; 5; 6; 7]);
    ([4; 5; 6; 7], [8; 9; 10; 11], [4; 5; 6; 7; 8; 9; 10; 11]);
    ([8; 9; 10; 11], [12; 13; 14; 15], [8; 9; 10; 11; 12; 13; 14; 15]) ].

Definition hex_keys : list (list Z) := snd <$> cells.

Definition oriented_faces : list QuadFace :=
  Eval vm_compute in
    filter (accepted MainWindow.m_points)
      (traversal MainWindow.m_points MainWindow.reference_graph
       ++ (flip <$> traversal MainWindow.m_points MainWindow.reference_graph)).
End Reference.


(** ** Auxiliary definitions for the viewer and the coordinator *)

Section widget_auxiliary.
Import GL.

(** A primitive may end when its vertices make whole lines or quads. *)
Definition complete (m : mode) (vertices : nat) : bool :=
  match m with
  | GL_POINTS => true
  | GL_LINES => (vertices mod 2 =? 0)%nat
  | GL_QUADS => (vertices mod 4 =? 0)%nat
  end.

(** The rules of the immediate mode of OpenGL on a sequence of calls:
    [glBegin] only outside a primitive, [glVertex3f] and [glEnd] only inside
    one, the line width and the point size only outside, every primitive
    ended and made of whole lines or quads. The state is the mode of the
    open primitive and the number of its vertices so far. *)
Fixpoint well_formed_from (st : option (mode * nat)) (calls : list call) : bool :=
  match calls with
  | [] => match st with None => true | Some _ => false end
  | c :: rest =>
      match c, st with
      | glBegin m, None => well_formed_from (Some (m, 0%nat)) rest
      | glVertex3f _ _ _, Some (m, n) => well_formed_from (Some (m, S n)) rest
      | glEnd, Some (m, n) => complete m n && well_formed_from None rest
      | glLineWidth _, None | glPointSize _, None => well_formed_from None rest
      | glColor3f _ _ _, _ | glColor4f _ _ _ _, _ => well_formed_from st rest
      | _, _ => false
      end
  end.

Definition well_formed (calls : list call) : Prop := well_formed_from None calls = true.

Definition is_vertex (c : call) : bool :=
  match c with glVertex3f _ _ _ => true | _ => false end.

Definition is_begin (c : call) : bool :=
  match c with glBegin _ => true | _ => false end.

Definition is_end (c : call) : bool :=
  match c with glEnd => true | _ => false end.

(** The number of calls of a kind in a sequence. *)
Definition count (kind : call → bool) (calls : list call) : nat :=
  length (filter (λ c, kind c = true) calls).

(** The number of pairs of an entry of the graph and one of its neighbours
    that are both below the size. *)
Definition segments_of (size : Z) (entries : list (Z * list Z)) : nat :=
  sum_list ((λ entry : Z * list Z,
               if decide (entry.1 < size)
               then length (filter (λ x, x < size) entry.2) else 0%nat) <$> entries).

Definition segments (size : Z) (graph : AdjacencyGraph) : nat :=
  segments_of size (map_to_list graph).

(** The number of indices at or above the size, over the slots of the
    hexahedra. *)
Definition slots_above (size : Z) (hexahedra : list Hexahedron) : nat :=
  length (filter (λ x, size ≤ x) (hexahedra ≫= hex_pts)).
End widget_auxiliary.

Section window_auxiliary.
Import ReconstructionEngine.

(** A number above zero: finite or infinite, not zero and not a NaN. *)
Definition positive_number (x : spec_float) : Prop :=
  x = S754_infinity false
  ∨ ∃ m e, x = S754_finite false m e ∧ bounded 24 128 m e = true.

(** What holds of the window between two events: the viewer shows the data
    of the window, at most one step button is enabled, and the data are the
    results of the stages run so far, in order, on the points. *)
Definition consistent (points : list MeshPoint) (s : Slots.t) : Prop :=
  Slots.m_points s = points
  ∧ GLWidget.m_points (Slots.m_glWidget s) = points
  ∧ GLWidget.m_adjGraph (Slots.m_glWidget s) = Slots.m_adjGraph s
  ∧ GLWidget.m_faces (Slots.m_glWidget s) = Slots.m_faces s
  ∧ GLWidget.m_hexahedra (Slots.m_glWidget s) = Slots.m_hexahedra s
  ∧ ((Slots.m_step1Button s = true ∧ Slots.m_step2Button s = false
      ∧ Slots.m_step3Button s = false
      ∧ Slots.m_adjGraph s = ∅ ∧ Slots.m_faces s = [] ∧ Slots.m_hexahedra s = [])
     ∨ (Slots.m_step1Button s = false ∧ Slots.m_step2Button s = true
        ∧ Slots.m_step3Button s = false
        ∧ Slots.m_adjGraph s = buildAdjacencyGraph points
        ∧ Slots.m_faces s = [] ∧ Slots.m_hexahedra s = [])
     ∨ (Slots.m_step1Button s = false ∧ Slots.m_step2Button s = false
        ∧ Slots.m_step3Button s = true
        ∧ Slots.m_adjGraph s = buildAdjacencyGraph points
        ∧ findValidFaces points (buildAdjacencyGraph points) = Some (Slots.m_faces s)
        ∧ Slots.m_hexahedra s = [])
     ∨ (Slots.m_step1Button s = false ∧ Slots.m_step2Button s = false
        ∧ Slots.m_step3Button s = false
        ∧ Slots.m_adjGraph s = buildAdjacencyGraph points
        ∧ findValidFaces points (buildAdjacencyGraph points) = Some (Slots.m_faces s)
        ∧ Slots.m_hexahedra s
          = buildHexahedra (Slots.m_faces s) (buildAdjacencyGraph points))).
(** The window after a sequence of events, first event first. *)
Definition run (events : list Slots.event) (s : Slots.t) : option Slots.t :=
  foldM Slots.handle events s.
End window_auxiliary.
(** ** Step 1: properties of the adjacency graph *)

Section graph_builder.
Import ReconstructionEngine.

Lemma distances_loop_snd pi i j rest acc :
  (distances_loop pi i j rest acc).*2 = acc.*2 ++ others i j (length rest).
Proof.
  revert j acc. induction rest as [|pj rest IH]; intros j acc; simpl.
  - unfold others. simpl. by rewrite app_nil_r.
  - rewrite IH. unfold others. simpl. rewrite filter_cons.
    destruct (decide (i = j)) as [->|Hne].
    + by rewrite decide_False by auto.
    + rewrite decide_True by done. rewrite fmap_app, fmap_cons. simpl.
      by rewrite <- app_assoc.
Qed.

Lemma elem_of_others i j len x :
  x ∈ others i j len ↔ Z.of_nat j ≤ x < Z.of_nat (j + len) ∧ x ≠ Z.of_nat i.
Proof.
  unfold others. rewrite list_elem_of_fmap. split.
  - intros (y & -> & Hy). apply list_elem_of_filter in Hy as [Hne Hy].
    apply elem_of_seq in Hy. split; [lia|]. intros ?. apply Hne. lia.
  - intros [Hr Hne]. exists (Z.to_nat x). split; [lia|].
    apply list_elem_of_filter. split; [|apply elem_of_seq; lia].
    intros ->. apply Hne. lia.
Qed.

Lemma NoDup_others i j len : NoDup (others i j len).
Proof.
  unfold others. apply NoDup_fmap; [intros ???; lia|].
  apply NoDup_filter, NoDup_seq.
Qed.

Lemma length_others i j len :
  (j ≤ i < j + len)%nat → S (length (others i j len)) = len.
Proof.
  unfold others. rewrite length_fmap. revert j.
  induction len as [|len IH]; intros j Hi; [lia|]. simpl.
  rewrite filter_cons. destruct (decide (i = j)) as [->|Hne].
  - rewrite decide_False by auto. f_equal.
    assert (Hall : ∀ k, (j < k)%nat → filter (λ j', j ≠ j') (seq k len) = seq k len).
    { clear. generalize dependent j. induction len as [|len IH]; intros j k Hk; [done|].
      simpl. rewrite filter_cons, decide_True by lia. f_equal. apply IH. lia. }
    rewrite Hall by lia. apply length_seq.
  - rewrite decide_True by done. simpl. f_equal. apply IH. lia.
Qed.

Lemma length_others_out i j len :
  ¬ (j ≤ i < j + len)%nat → length (others i j len) = len.
Proof.
  unfold others. rewrite length_fmap. revert j.
  induction len as [|len IH]; intros j Hi; [done|]. simpl.
  rewrite filter_cons, decide_True by lia. simpl. f_equal. apply IH. lia.
Qed.

(** Inserting pairwise different fresh elements appends them in order. *)
Lemma foldl_uset_insert_fresh (ds : list (spec_float * Z)) (s : list Z) :
  NoDup (s ++ ds.*2) → foldl (λ s d, uset_insert d.2 s) s ds = s ++ ds.*2.
Proof.
  revert s. induction ds as [|d ds IH]; intros s Hnd; simpl.
  - by rewrite app_nil_r.
  - simpl in Hnd. unfold uset_insert at 2.
    assert (d.2 ∉ s).
    { apply NoDup_app in Hnd as (_ & Hd & _). intros Hin.
      apply (Hd _ Hin). left. }
    rewrite decide_False by done.
    rewrite IH; rewrite <- app_assoc; simpl; done.
Qed.

Lemma sorted_distances_snd points i pi :
  (sort_distances (distances_loop pi i 0 points [])).*2 ≡ₚ others i 0 (length points).
Proof.
  unfold sort_distances. rewrite merge_sort_Permutation.
  by rewrite distances_loop_snd.
Qed.

Lemma neighbors_of_eq points i pi :
  neighbors_of points i pi
  = (take (Z.to_nat (required_neighbors pi))
       (sort_distances (distances_loop pi i 0 points []))).*2.
Proof.
  unfold neighbors_of. rewrite foldl_uset_insert_fresh; [done|]. simpl.
  rewrite fmap_take. eapply sublist_NoDup; [|apply sublist_take].
  rewrite sorted_distances_snd. apply NoDup_others.
Qed.

Lemma NoDup_neighbors_of points i pi : NoDup (neighbors_of points i pi).
Proof.
  rewrite neighbors_of_eq, fmap_take. eapply sublist_NoDup; [|apply sublist_take].
  rewrite sorted_distances_snd. apply NoDup_others.
Qed.

Lemma elem_of_neighbors_of points i pi x :
  x ∈ neighbors_of points i pi → 0 ≤ x < Z.of_nat (length points) ∧ x ≠ Z.of_nat i.
Proof.
  rewrite neighbors_of_eq, fmap_take. intros Hx.
  eapply elem_of_sublist in Hx; [|apply sublist_take].
  rewrite sorted_distances_snd in Hx. apply elem_of_others in Hx. lia.
Qed.

Lemma length_neighbors_of points i pi :
  (i < length points)%nat →
  Z.of_nat (length (neighbors_of points i pi))
  = Z.min (Z.max 0 (required_neighbors pi)) (Z.of_nat (length points) - 1).
Proof.
  intros Hi. rewrite neighbors_of_eq, length_fmap, length_take.
  rewrite <- (length_fmap snd), sorted_distances_snd.
  pose proof (length_others i 0 (length points)) as Hlen. lia.
Qed.

(** The loop of insertions writes the set obtained from the first
    [k_neighbors - k] entries. *)
Lemma insert_loop_eq i k_neighbors k distances (g : AdjacencyGraph) s :
  g !! i = Some s →
  insert_loop i k_neighbors k distances g
  = <[i := foldl (λ s d, uset_insert d.2 s) s
            (take (Z.to_nat (k_neighbors - k)) distances)]> g.
Proof.
  revert k g s. induction distances as [|d ds IH]; intros k g s Hs; simpl.
  - rewrite take_nil. simpl. by rewrite insert_id.
  - destruct (Z.ltb_spec k k_neighbors) as [Hlt|Hge].
    + rewrite (IH _ _ (uset_insert d.2 s)).
      * rewrite Hs. simpl. rewrite insert_insert_eq.
        replace (Z.to_nat (k_neighbors - k)) with (S (Z.to_nat (k_neighbors - (k + 1)))) by lia.
        done.
      * rewrite Hs. simpl. by rewrite lookup_insert_eq.
    + replace (Z.to_nat (k_neighbors - k)) with 0%nat by lia. simpl.
      by rewrite insert_id.
Qed.

Lemma graph_loop_lookup points i rest (g : AdjacencyGraph) (k : Z) :
  graph_loop points i rest g !! k
  = if decide (Z.of_nat i ≤ k < Z.of_nat (i + length rest))
    then neighbors_of points (Z.to_nat k) <$> rest !! (Z.to_nat k - i)%nat
    else g !! k.
Proof.
  revert i g. induction rest as [|pi rest IH]; intros i g; simpl.
  - rewrite decide_False by lia. done.
  - rewrite IH. rewrite (insert_loop_eq _ _ _ _ _ []) by apply lookup_insert_eq.
    rewrite insert_insert_eq, Z.sub_0_r.
    destruct (decide (k = Z.of_nat i)) as [->|Hne].
    + rewrite decide_False by lia. rewrite decide_True by lia.
      rewrite lookup_insert_eq. rewrite Nat2Z.id, Nat.sub_diag. done.
    + rewrite lookup_insert_ne by done.
      destruct (decide (Z.of_nat (S i) ≤ k < Z.of_nat (S i + length rest))).
      * rewrite decide_True by lia.
        replace (Z.to_nat k - i)%nat with (S (Z.to_nat k - S i)) by lia. done.
      * rewrite decide_False by lia. done.
Qed.

(** The graph, entry by entry. *)
Lemma buildAdjacencyGraph_lookup points (k : Z) :
  buildAdjacencyGraph points !! k
  = if decide (0 ≤ k) then neighbors_of points (Z.to_nat k) <$> points !! Z.to_nat k
    else None.
Proof.
  unfold buildAdjacencyGraph. destruct points as [|p points].
  - rewrite lookup_empty. by destruct (decide _).
  - rewrite graph_loop_lookup, lookup_empty. simpl length.
    destruct (decide (0 ≤ k)).
    + destruct (decide _) as [Hin|Hout].
      * by rewrite Nat.sub_0_r.
      * rewrite lookup_ge_None_2; [done|]. simpl. lia.
    + by rewrite decide_False by lia.
Qed.

Lemma buildAdjacencyGraph_neighbors points (k : Z) (s : list Z) (x : Z) :
  buildAdjacencyGraph points !! k = Some s → x ∈ s →
  0 ≤ x < Z.of_nat (length points) ∧ x ≠ k.
Proof.
  intros Hs Hx. rewrite buildAdjacencyGraph_lookup in Hs.
  destruct (decide (0 ≤ k)); [|done].
  destruct (points !! Z.to_nat k) as [pk|]; [|done]. simpl in Hs.
  injection Hs as <-. apply elem_of_neighbors_of in Hx. lia.
Qed.
End graph_builder.

(** ** Step 1: the claims *)

Section graph_claims.
Import ReconstructionEngine.

(** C4. For every point sequence of length [n] whose required neighbour
    counts are non-negative and every index [i] of a point, the neighbour set
    assigned to [i] by [buildAdjacencyGraph] has exactly
    [min (required_neighbors i) (n - 1)] elements: a count above [n - 1] is
    clamped, and the function is total, so no error is raised. *)
Theorem C4_degree_bound (points : list MeshPoint) (i : nat) (pi : MeshPoint) :
  Forall (λ p, 0 ≤ required_neighbors p) points →
  points !! i = Some pi →
  ∃ s, buildAdjacencyGraph points !! Z.of_nat i = Some s
       ∧ NoDup s
       ∧ Z.of_nat (length s)
         = Z.min (required_neighbors pi) (Z.of_nat (length points) - 1).
Proof.
  intros Hreq Hi. exists (neighbors_of points i pi).
  rewrite buildAdjacencyGraph_lookup, decide_True by lia.
  rewrite Nat2Z.id, Hi. split; [done|]. split; [apply NoDup_neighbors_of|].
  rewrite length_neighbors_of by (by eapply lookup_lt_Some).
  rewrite Forall_forall in Hreq.
  assert (0 ≤ required_neighbors pi) by (eapply Hreq, list_elem_of_lookup_2, Hi).
  lia.
Qed.

Lemma C4_degree_bound_witness :
  Forall (λ p, 0 ≤ required_neighbors p) Samples.three_points
  ∧ Samples.three_points !! 1%nat = Some (Samples.pt 1 0 0 2)
  ∧ ∃ s, buildAdjacencyGraph Samples.three_points !! 1 = Some s
         ∧ NoDup s ∧ Z.of_nat (length s) = Z.min 2 (3 - 1).
Proof.
  assert (H1 : Forall (λ p, 0 ≤ required_neighbors p) Samples.three_points).
  { repeat constructor; simpl; lia. }
  split; [exact H1|]. split; [reflexivity|].
  exact (C4_degree_bound Samples.three_points 1 (Samples.pt 1 0 0 2) H1 eq_refl).
Defined.

(** C9. The graph returned by [buildAdjacencyGraph] for [n] points has
    exactly the keys [0 .. n-1], and every index in a neighbour set is a valid
    index in [0, n) different from the key of the set: no self-loop and no
    out-of-range neighbour. *)
Theorem C9_graph_entries (points : list MeshPoint) :
  dom (buildAdjacencyGraph points) = list_to_set (seqZ 0 (Z.of_nat (length points)))
  ∧ size (buildAdjacencyGraph points) = length points
  ∧ ∀ (k : Z) (s : list Z) (x : Z),
      buildAdjacencyGraph points !! k = Some s → x ∈ s →
      0 ≤ x < Z.of_nat (length points) ∧ x ≠ k.
Proof.
  assert (Hdom : dom (buildAdjacencyGraph points)
                 = list_to_set (seqZ 0 (Z.of_nat (length points)))).
  { apply set_eq. intros k. rewrite elem_of_dom, elem_of_list_to_set, elem_of_seqZ.
    rewrite buildAdjacencyGraph_lookup. destruct (decide (0 ≤ k)) as [Hk|Hk].
    - rewrite fmap_is_Some, lookup_lt_is_Some. lia.
    - split; [intros []; done | lia]. }
  split; [exact Hdom|]. split.
  - rewrite <- size_dom, Hdom, size_list_to_set by apply NoDup_seqZ.
    rewrite length_seqZ. lia.
  - apply buildAdjacencyGraph_neighbors.
Qed.

(** C10. A point whose required neighbour count is zero or negative is
    assigned the empty neighbour set; [buildAdjacencyGraph] is a total
    function, so the call completes. *)
Theorem C10_nonpositive_count (points : list MeshPoint) (i : nat) (pi : MeshPoint) :
  points !! i = Some pi →
  required_neighbors pi ≤ 0 →
  buildAdjacencyGraph points !! Z.of_nat i = Some [].
Proof.
  intros Hi Hreq. rewrite buildAdjacencyGraph_lookup, decide_True by lia.
  rewrite Nat2Z.id, Hi. simpl. f_equal. unfold neighbors_of.
  replace (Z.to_nat (required_neighbors pi)) with 0%nat by lia. done.
Qed.

Lemma C10_nonpositive_count_witness :
  Samples.odd_counts !! 2%nat = Some (Samples.pt 0 1 0 (-2))
  ∧ -2 ≤ 0
  ∧ buildAdjacencyGraph Samples.odd_counts !! 2 = Some [].
Proof.
  split; [reflexivity|]. split; [lia|].
  apply (C10_nonpositive_count Samples.odd_counts 2 (Samples.pt 0 1 0 (-2))).
  - reflexivity.
  - simpl. lia.
Defined.
End graph_claims.

(** ** Binary32 arithmetic: digits, shifts and rounding *)

Section binary32.
Lemma fexp_binary32 e : fexp 24 128 e = fexp32 e.
Proof. reflexivity. Qed.

Lemma digits2_pos_size p : digits2_pos p = Pos.size p.
Proof. induction p as [p IH|p IH|]; simpl; by rewrite ?IH. Qed.

Lemma Zdigits2_log2 m : 0 < m → Zdigits2 m = Z.log2 m + 1.
Proof.
  destruct m as [|p|p]; try lia. intros _. simpl.
  rewrite digits2_pos_size. destruct p; simpl; lia.
Qed.

Lemma Zdigits2_bounds m : 0 < m → 2 ^ (Zdigits2 m - 1) ≤ m < 2 ^ Zdigits2 m.
Proof.
  intros Hm. rewrite (Zdigits2_log2 m Hm).
  replace (Z.log2 m + 1 - 1) with (Z.log2 m) by lia.
  apply (Z.log2_spec m Hm).
Qed.

Lemma Zdigits2_pos m : 0 < m → 0 < Zdigits2 m.
Proof. intros Hm. rewrite (Zdigits2_log2 m Hm). pose proof (Z.log2_nonneg m). lia. Qed.

Lemma Zdigits2_mono m1 m2 : 0 < m1 ≤ m2 → Zdigits2 m1 ≤ Zdigits2 m2.
Proof.
  intros [H1 H2]. rewrite !Zdigits2_log2 by lia.
  pose proof (Z.log2_le_mono m1 m2 H2). lia.
Qed.

Lemma Zdigits2_div_pow2 m k :
  0 < m → 0 ≤ k < Zdigits2 m → Zdigits2 (m / 2 ^ k) = Zdigits2 m - k ∧ 0 < m / 2 ^ k.
Proof.
  intros Hm Hk. rewrite (Zdigits2_log2 m Hm) in *.
  assert (Hpos : 0 < m / 2 ^ k).
  { apply Z.div_str_pos. split; [lia|]. apply Z.log2_le_pow2; lia. }
  split; [|exact Hpos]. rewrite (Zdigits2_log2 _ Hpos).
  rewrite <- Z.shiftr_div_pow2 by lia. rewrite Z.log2_shiftr by lia. lia.
Qed.

Lemma Zdigits2_mul_pow2 m k : 0 < m → 0 ≤ k → Zdigits2 (m * 2 ^ k) = Zdigits2 m + k.
Proof.
  intros Hm Hk. assert (0 < m * 2 ^ k) by (apply Z.mul_pos_pos; lia).
  rewrite !Zdigits2_log2, Z.log2_mul_pow2 by lia. lia.
Qed.

Lemma Zdigits2_mul m1 m2 :
  0 < m1 → 0 < m2 →
  Zdigits2 m1 + Zdigits2 m2 - 1 ≤ Zdigits2 (m1 * m2) ≤ Zdigits2 m1 + Zdigits2 m2.
Proof.
  intros H1 H2. assert (0 < m1 * m2) by (apply Z.mul_pos_pos; lia).
  rewrite !Zdigits2_log2 by lia.
  pose proof (Z.log2_mul_below m1 m2 H1 H2).
  pose proof (Z.log2_mul_above m1 m2). lia.
Qed.

Lemma small_div_pow2 m k : 0 < m → Zdigits2 m ≤ k → m / 2 ^ k = 0.
Proof.
  intros Hm Hk. apply Z.div_small. split; [lia|].
  pose proof (Zdigits2_bounds m Hm) as [_ Hlt].
  eapply Z.lt_le_trans; [exact Hlt|]. apply Z.pow_le_mono_r; lia.
Qed.

(** *** Shifting to the right *)

Lemma shr_1_m mrs : 0 ≤ shr_m mrs → shr_m (shr_1 mrs) = shr_m mrs / 2.
Proof.
  destruct mrs as [m r s]. simpl. intros Hm.
  destruct m as [|[p|p|]|p]; simpl; try done; try lia.
  - apply Z.div_unique with (r := 1); lia.
  - apply Z.div_unique with (r := 0); lia.
Qed.

Lemma iter_shr_1_m p mrs :
  0 ≤ shr_m mrs → shr_m (SpecFloat.iter_pos shr_1 p mrs) = shr_m mrs / 2 ^ Zpos p.
Proof.
  revert mrs. induction p as [p IH|p IH|]; intros mrs Hm; simpl SpecFloat.iter_pos.
  - assert (H1 : 0 ≤ shr_m (shr_1 mrs)).
    { rewrite shr_1_m by done. apply Z.div_pos; lia. }
    assert (H2 : 0 ≤ shr_m (SpecFloat.iter_pos shr_1 p (shr_1 mrs))).
    { rewrite IH by done. apply Z.div_pos; lia. }
    rewrite IH, IH, shr_1_m by done.
    rewrite !Z.div_div by lia. f_equal.
    rewrite Pos2Z.inj_xI, <- !Z.pow_add_r, <- Z.pow_succ_r by lia. f_equal. lia.
  - assert (H2 : 0 ≤ shr_m (SpecFloat.iter_pos shr_1 p mrs)).
    { rewrite IH by done. apply Z.div_pos; lia. }
    rewrite IH, IH by done.
    rewrite !Z.div_div by lia. f_equal.
    rewrite Pos2Z.inj_xO, <- !Z.pow_add_r by lia. f_equal. lia.
  - rewrite shr_1_m by done. done.
Qed.

(** The first component of [shr_fexp] on an exact mantissa: the mantissa is
    divided by the power of two that brings the exponent to [fexp32]. *)
Lemma shr_fexp_exact m e :
  0 ≤ m →
  ∃ mrs,
    shr_fexp 24 128 m e loc_Exact = (mrs, Z.max e (fexp32 (Zdigits2 m + e)))
    ∧ shr_m mrs = m / 2 ^ Z.max 0 (fexp32 (Zdigits2 m + e) - e)
    ∧ (fexp32 (Zdigits2 m + e) ≤ e → loc_of_shr_record mrs = loc_Exact).
Proof.
  intros Hm. unfold shr_fexp. rewrite fexp_binary32. simpl shr_record_of_loc.
  unfold shr. destruct (fexp32 (Zdigits2 m + e) - e) as [|p|p] eqn:Hn.
  - eexists. split; [f_equal; lia|]. simpl. split; [by rewrite Z.div_1_r | done].
  - eexists. split; [f_equal; lia|]. split; [|lia].
    rewrite iter_shr_1_m by done. simpl shr_m. f_equal.
  - eexists. split; [f_equal; lia|]. simpl. split; [by rewrite Z.div_1_r | done].
Qed.

Lemma round_nearest_even_cases m l :
  round_nearest_even m l = m ∨ round_nearest_even m l = m + 1.
Proof. destruct l as [|[| |]]; simpl; auto. destruct (Z.even m); auto. Qed.

(** *** The result of rounding *)

(** When the mantissa has enough digits for its exponent, rounding [m]
    returns a zero, an infinity, or a finite number in canonical form whose
    exponent is at least the target [t]; if the exponent is exactly [t], its
    mantissa is [m / 2^(t-e)] or the next integer. *)
Lemma binary_round_aux_cases s m e :
  0 < m →
  e ≤ fexp32 (Zdigits2 m + e) →
  let t := fexp32 (Zdigits2 m + e) in
  let m1 := m / 2 ^ (t - e) in
  ∃ m2, (m2 = m1 ∨ m2 = m1 + 1)
    ∧ (binary_round_aux 24 128 s m e loc_Exact = S754_zero s ∧ m2 = 0
       ∨ binary_round_aux 24 128 s m e loc_Exact = S754_infinity s ∧ 0 < m2
       ∨ ∃ m' e', binary_round_aux 24 128 s m e loc_Exact = S754_finite s m' e'
           ∧ bounded 24 128 m' e' = true
           ∧ 0 < m2 ∧ t ≤ e' ∧ (e' = t → Zpos m' = m2)).
Proof.
  intros Hm He t m1. unfold binary_round_aux.
  destruct (shr_fexp_exact m e) as (mrs1 & Hs1 & Hm1 & Hl1); [lia|].
  rewrite Hs1. cbv beta iota. clear Hs1.
  fold t in Hm1, Hl1 |- *. replace (Z.max 0 (t - e)) with (t - e) in Hm1 by lia.
  fold m1 in Hm1. replace (Z.max e t) with t by lia.
  set (m2 := round_nearest_even (shr_m mrs1) (loc_of_shr_record mrs1)).
  assert (H01 : 0 ≤ m1) by (apply Z.div_pos; lia).
  assert (Hm2 : m2 = m1 ∨ m2 = m1 + 1).
  { unfold m2. rewrite Hm1. apply round_nearest_even_cases. }
  destruct (shr_fexp_exact m2 t) as (mrs2 & Hs2 & Hm3 & _); [lia|].
  rewrite Hs2. cbv beta iota. clear Hs2.
  exists m2. split; [exact Hm2|].
  set (t2 := fexp32 (Zdigits2 m2 + t)) in *.
  assert (Ht : -149 ≤ t) by (unfold t, fexp32; lia).
  destruct (decide (m2 = 0)) as [Hz|Hnz].
  { left. rewrite Hm3, Hz, Z.div_0_l; [done|]. apply Z.pow_nonzero; lia. }
  right. assert (H2pos : 0 < m2) by lia.
  (* the digits of [m1], when it is not zero *)
  assert (Hd1 : 0 < m1 → Zdigits2 m1 + t = Zdigits2 m + e).
  { intros Hpos. destruct (Z_lt_le_dec (t - e) (Zdigits2 m)) as [Hlt|Hge].
    - destruct (Zdigits2_div_pow2 m (t - e)) as [Hd _]; [lia..|]. fold m1 in Hd. lia.
    - unfold m1 in Hpos. rewrite small_div_pow2 in Hpos by lia. lia. }
  assert (Ht2 : t ≤ t2).
  { destruct (decide (m1 = 0)) as [Hz1|Hnz1].
    - unfold t2, fexp32 in *. pose proof (Zdigits2_pos m2 H2pos).
      assert (t = -149); [|lia].
      destruct (Z_lt_le_dec (t - e) (Zdigits2 m)) as [Hlt|Hge].
      + destruct (Zdigits2_div_pow2 m (t - e)) as [_ Hp]; [lia..|]. fold m1 in Hp. lia.
      + unfold t, fexp32 in *. lia.
    - specialize (Hd1 ltac:(lia)).
      assert (Zdigits2 m1 ≤ Zdigits2 m2) by (apply Zdigits2_mono; lia).
      unfold t2, t, fexp32 in *. lia. }
  assert (Hk : 0 ≤ t2 - t < Zdigits2 m2).
  { pose proof (Zdigits2_pos m2 H2pos). unfold t2, fexp32 in *. lia. }
  replace (Z.max 0 (t2 - t)) with (t2 - t) in Hm3 by lia.
  replace (Z.max t t2) with t2 by lia.
  destruct (Zdigits2_div_pow2 m2 (t2 - t)) as [Hd3 Hp3]; [lia..|].
  rewrite <- Hm3 in Hd3, Hp3. destruct (shr_m mrs2) as [|m3|] eqn:Hm3'; try lia.
  destruct (t2 <=? 128 - 24) eqn:Hov; [|left; done].
  right. exists m3, t2. split; [done|]. split; [|split; [done|split; [done|]]].
  - unfold bounded, canonical_mantissa. rewrite Hov, andb_true_r.
    apply Z.eqb_eq. rewrite fexp_binary32.
    change (Z.pos (digits2_pos m3)) with (Zdigits2 (Z.pos m3)).
    rewrite Hd3. replace (Zdigits2 m2 - (t2 - t) + t2) with (Zdigits2 m2 + t) by lia.
    done.
  - intros Heq. rewrite Hm3, Heq, Z.sub_diag, Z.div_1_r. done.
Qed.

(** *** Canonical forms *)

Lemma bounded_spec m e :
  bounded 24 128 m e = true ↔ fexp32 (Zdigits2 (Zpos m) + e) = e ∧ e ≤ 104.
Proof.
  unfold bounded, canonical_mantissa. rewrite andb_true_iff, Z.eqb_eq, Z.leb_le.
  rewrite fexp_binary32. done.
Qed.

Lemma rounded_valid s x : rounded s x → valid_binary 24 128 x = true.
Proof. intros [->|[->|(m & e & -> & Hb)]]; done. Qed.

Lemma binary_round_aux_rounded s m e :
  0 < m → e ≤ fexp32 (Zdigits2 m + e) →
  rounded s (binary_round_aux 24 128 s m e loc_Exact).
Proof.
  intros Hm He.
  destruct (binary_round_aux_cases s m e Hm He)
    as (m2 & _ & [[-> _]|[[-> _]|(m' & e' & -> & Hb & _)]]); unfold rounded;
    [by left | by right; left | right; right; by exists m', e'].
Qed.

Lemma iter_xO_pow2 m d : Zpos (Pos.iter xO m d) = Zpos m * 2 ^ Zpos d.
Proof.
  induction d as [|d IH] using Pos.peano_ind.
  - simpl. lia.
  - rewrite Pos.iter_succ, Pos2Z.inj_xO, IH, Pos2Z.inj_succ, Z.pow_succ_r by lia. lia.
Qed.

Lemma binary_round_rounded s m e : rounded s (binary_round 24 128 s m e).
Proof.
  unfold binary_round. rewrite fexp_binary32.
  change (Z.pos (digits2_pos m)) with (Zdigits2 (Z.pos m)).
  set (t := fexp32 (Zdigits2 (Z.pos m) + e)).
  unfold shl_align. destruct (t - e) as [|d|d] eqn:Hd.
  - apply binary_round_aux_rounded; [lia|]. fold t. lia.
  - apply binary_round_aux_rounded; [lia|]. fold t. lia.
  - apply binary_round_aux_rounded; [lia|].
    rewrite iter_xO_pow2, Zdigits2_mul_pow2 by lia.
    replace (Zdigits2 (Z.pos m) + Z.pos d + t) with (Zdigits2 (Z.pos m) + e) by lia.
    fold t. lia.
Qed.

Lemma binary_normalize_valid m e szero :
  valid_binary 24 128 (binary_normalize 24 128 m e szero) = true.
Proof.
  destruct m; simpl; [done|..]; eapply rounded_valid, binary_round_rounded.
Qed.

(** The product of two mantissas in canonical form has enough digits. *)
Lemma mul_enough_digits m1 e1 m2 e2 :
  bounded 24 128 m1 e1 = true → bounded 24 128 m2 e2 = true →
  e1 + e2 ≤ fexp32 (Zdigits2 (Zpos (m1 * m2)) + (e1 + e2)).
Proof.
  intros [H1 _]%bounded_spec [H2 _]%bounded_spec.
  pose proof (Zdigits2_mul (Zpos m1) (Zpos m2)) as Hd.
  pose proof (Zdigits2_pos (Zpos m1)). pose proof (Zdigits2_pos (Zpos m2)).
  rewrite Pos2Z.inj_mul. unfold fexp32 in *. lia.
Qed.

Lemma SFmul_valid x y :
  valid_binary 24 128 x = true → valid_binary 24 128 y = true →
  valid_binary 24 128 (SFmul 24 128 x y) = true.
Proof.
  destruct x as [sx|sx| |sx mx ex], y as [sy|sy| |sy my ey]; simpl; try done.
  intros Hx Hy. eapply rounded_valid, binary_round_aux_rounded; [lia|].
  by apply mul_enough_digits.
Qed.

Lemma SFsub_valid x y :
  valid_binary 24 128 x = true → valid_binary 24 128 y = true →
  valid_binary 24 128 (SFsub 24 128 x y) = true.
Proof.
  destruct x as [sx|sx| |sx mx ex], y as [sy|sy| |sy my ey]; simpl; try done.
  - by destruct sx, sy.
  - by destruct sx, sy.
  - intros _ _. apply binary_normalize_valid.
Qed.

Lemma SFadd_valid x y :
  valid_binary 24 128 x = true → valid_binary 24 128 y = true →
  valid_binary 24 128 (SFadd 24 128 x y) = true.
Proof.
  destruct x as [sx|sx| |sx mx ex], y as [sy|sy| |sy my ey]; simpl; try done.
  - by destruct sx, sy.
  - by destruct sx, sy.
  - intros _ _. apply binary_normalize_valid.
Qed.

(** *** Signs *)

Lemma rounded_not_negative x : rounded false x → not_negative x.
Proof. intros [->|[->|(m & e & -> & _)]]; done. Qed.

Lemma binary_round_aux_sign s m e l :
  match binary_round_aux 24 128 s m e l with
  | S754_infinity s' | S754_finite s' _ _ => s' = s
  | _ => True
  end.
Proof.
  unfold binary_round_aux.
  destruct (shr_fexp 24 128 m e l) as [mrs1 e1].
  destruct (shr_fexp 24 128 _ e1 loc_Exact) as [mrs2 e2].
  destruct (shr_m mrs2); [done| |done]. by destruct (_ <=? _).
Qed.

Lemma SFmul_square_not_negative x : not_negative (SFmul 24 128 x x).
Proof.
  destruct x as [s|s| |s m e]; simpl; try done; try by destruct s.
  pose proof (binary_round_aux_sign (xorb s s) (Z.pos (m * m)) (e + e) loc_Exact) as Hs.
  destruct (binary_round_aux _ _ _ _ _ _); try done; by destruct s.
Qed.

Lemma SFadd_not_negative x y :
  not_negative x → not_negative y → not_negative (SFadd 24 128 x y).
Proof.
  destruct x as [sx|sx| |sx mx ex], y as [sy|sy| |sy my ey]; simpl; try done.
  - by destruct sx, sy.
  - by intros -> ->.
  - intros -> ->. simpl. apply rounded_not_negative, binary_round_rounded.
Qed.

Lemma SFmul_scale_not_negative x m e :
  not_negative x → not_negative (SFmul 24 128 x (S754_finite false m e)).
Proof.
  destruct x as [s|s| |s mx ex]; simpl; try done.
  - intros ->. done.
  - intros ->. simpl.
    pose proof (binary_round_aux_sign false (Z.pos (mx * m)) (ex + e) loc_Exact) as Hs.
    by destruct (binary_round_aux _ _ _ _ _ _).
Qed.

(** *** Exchanging the operands of a subtraction *)

Lemma binary_round_aux_abs s1 s2 m e l :
  SFabs (binary_round_aux 24 128 s1 m e l) = SFabs (binary_round_aux 24 128 s2 m e l).
Proof.
  unfold binary_round_aux.
  destruct (shr_fexp 24 128 m e l) as [mrs1 e1].
  destruct (shr_fexp 24 128 _ e1 loc_Exact) as [mrs2 e2].
  destruct (shr_m mrs2); [done| |done]. by destruct (_ <=? _).
Qed.

Lemma binary_normalize_opp_abs m e :
  SFabs (binary_normalize 24 128 (- m) e false) = SFabs (binary_normalize 24 128 m e false).
Proof.
  destruct m as [|p|p]; simpl; [done|..]; unfold binary_round;
    destruct (shl_align _ _ _) as [mz ez]; apply binary_round_aux_abs.
Qed.

Lemma SFsub_swap_abs x y : SFabs (SFsub 24 128 x y) = SFabs (SFsub 24 128 y x).
Proof.
  destruct x as [sx|sx| |sx mx ex], y as [sy|sy| |sy my ey]; simpl; try done;
    try (by destruct sx, sy).
  rewrite (Z.min_comm ey ex). rewrite <- binary_normalize_opp_abs. f_equal. f_equal.
  destruct sx, sy; simpl; lia.
Qed.

Lemma SFmul_square_abs x y : SFabs x = SFabs y → SFmul 24 128 x x = SFmul 24 128 y y.
Proof.
  destruct x as [sx|sx| |sx mx ex], y as [sy|sy| |sy my ey]; simpl; try done.
  - by destruct sx, sy.
  - by destruct sx, sy.
  - intros [= -> ->]. by destruct sx, sy.
Qed.

(** *** The order of [SFltb] *)

Lemma SFltb_key x y :
  SFltb x y = true ↔ ¬ is_nan x ∧ ¬ is_nan y ∧ key_lt (order_key x) (order_key y).
Proof.
  unfold SFltb, is_nan, key_lt.
  destruct x as [sx|sx| |sx mx ex], y as [sy|sy| |sy my ey];
    try destruct sx; try destruct sy; simpl;
    try change (Pos.compare_cont Eq mx my) with (mx ?= my)%positive;
    try destruct (Z.compare_spec ex ey) as [He|He|He];
    try destruct (Pos.compare_spec mx my) as [Hm|Hm|Hm]; simpl;
    (split;
     [ intros H; first [discriminate H | split; [discriminate|]; split; [discriminate|]; lia]
     | intros (H1 & H2 & H3);
       first [ exfalso; apply H1; reflexivity | exfalso; apply H2; reflexivity
             | reflexivity | exfalso; lia ] ]).
Qed.

Lemma SFltb_false_key x y :
  ¬ is_nan x → ¬ is_nan y → SFltb x y = false → ¬ key_lt (order_key x) (order_key y).
Proof.
  intros Hx Hy Hlt Hk. assert (SFltb x y = true) by (apply SFltb_key; done). congruence.
Qed.

Lemma SFltb_trans x y z : SFltb x y = true → SFltb y z = true → SFltb x z = true.
Proof.
  rewrite !SFltb_key. unfold key_lt. intros (? & ? & ?) (? & ? & ?).
  repeat split; try done. lia.
Qed.

Lemma SFltb_irrefl x : SFltb x x = false.
Proof.
  destruct (SFltb x x) eqn:H; [|done].
  apply SFltb_key in H as (_ & _ & H). unfold key_lt in H. lia.
Qed.

Lemma SFltb_nan_l y : SFltb S754_nan y = false.
Proof. done. Qed.

Lemma SFltb_nan_r x : SFltb x S754_nan = false.
Proof. by destruct x. Qed.

(** If [y] is not below [x] and [z] is not below [y], then [z] is not below
    [x], as long as [y] is a number. *)
Lemma SFltb_false_trans x y z :
  ¬ is_nan y → SFltb y x = false → SFltb z y = false → SFltb z x = false.
Proof.
  intros Hy Hyx Hzy. destruct (SFltb z x) eqn:Hzx; [|done]. exfalso.
  apply SFltb_key in Hzx as (Hz & Hx & Hk).
  apply SFltb_false_key in Hyx; [|done..]. apply SFltb_false_key in Hzy; [|done..].
  unfold key_lt in *. lia.
Qed.
End binary32.

(** ** The geometric filter *)

Section geometry.
Import ReconstructionEngine.

(** Multiplying a positive number by [1.01f] does not decrease it. *)
Lemma scale_finite m e :
  bounded 24 128 m e = true →
  F32.mul (S754_finite false m e) F32.lit_1_01 = S754_infinity false
  ∨ ∃ m' e', F32.mul (S754_finite false m e) F32.lit_1_01 = S754_finite false m' e'
      ∧ (e < e' ∨ (e = e' ∧ Zpos m ≤ Zpos m')).
Proof.
  intros Hb. unfold F32.mul, F32.lit_1_01, F32.prec, F32.emax. simpl SFmul.
  assert (Hc : bounded 24 128 8472494 (-23) = true) by reflexivity.
  pose proof (mul_enough_digits _ _ _ _ Hb Hc) as He.
  destruct (binary_round_aux_cases false (Z.pos (m * 8472494)) (e + -23)) as (m2 & Hm2 & Hr);
    [lia | exact He |].
  set (t := fexp32 (Zdigits2 (Z.pos (m * 8472494)) + (e + -23))) in *.
  set (m1 := Z.pos (m * 8472494) / 2 ^ (t - (e + -23))) in *.
  apply bounded_spec in Hb as [Hb _].
  pose proof (Zdigits2_mul (Zpos m) 8472494 ltac:(lia) ltac:(lia)) as Hd.
  change (Zdigits2 8472494) with 24 in Hd.
  pose proof (Zdigits2_pos (Zpos m) ltac:(lia)) as Hdm.
  change (Z.pos m * 8472494) with (Z.pos (m * 8472494)) in Hd.
  assert (Hcases : (t = e ∧ Zpos m ≤ m1) ∨ (t = e + 1 ∧ 0 < m1)).
  { assert (Ht : t = e ∨ t = e + 1) by (unfold t, fexp32 in *; lia).
    destruct Ht as [Ht|Ht]; [left | right]; (split; [exact Ht|]).
    - unfold m1. rewrite Ht. replace (e - (e + -23)) with 23 by lia.
      apply Z.div_le_lower_bound; [done|]. change (2 ^ 23) with 8388608. lia.
    - assert (Hd48 : Zdigits2 (Z.pos (m * 8472494)) = 48)
        by (unfold t, fexp32 in *; lia).
      pose proof (Zdigits2_bounds (Z.pos (m * 8472494)) ltac:(lia)) as [Hlow _].
      rewrite Hd48 in Hlow. unfold m1. rewrite Ht.
      replace (e + 1 - (e + -23)) with 24 by lia.
      assert (8388608 ≤ Z.pos (m * 8472494) / 2 ^ 24); [|lia].
      apply Z.div_le_lower_bound; [done|].
      change (2 ^ (48 - 1)) with 140737488355328 in Hlow. change (2 ^ 24) with 16777216.
      lia. }
  destruct Hr as [[_ Hz]|[[-> _]|(m' & e' & -> & _ & _ & Hte & Hme)]].
  - exfalso. lia.
  - by left.
  - right. exists m', e'. split; [done|].
    destruct Hcases as [[Ht Hm1]|[Ht Hm1]]; [|lia].
    destruct (decide (e' = t)) as [Heq|Hne]; [|lia].
    specialize (Hme Heq). lia.
Qed.

(** A number that is not below [x] stays so after the multiplication. *)
Lemma scale_not_below m x :
  F32.valid m = true → not_negative m →
  F32.ltb m x = false → F32.ltb (F32.mul m F32.lit_1_01) x = false.
Proof.
  unfold F32.valid, F32.ltb. intros Hv Hs Hlt.
  destruct m as [s|s| |s m e]; simpl in Hs.
  - by destruct s, x as [|[]| |[]].
  - subst s. done.
  - done.
  - subst s. simpl in Hv.
    destruct (scale_finite m e Hv) as [->|(m' & e' & -> & Hle)].
    + by destruct x as [|[]| |[]].
    + destruct (SFltb (S754_finite false m' e') x) eqn:Hlt'; [|done]. exfalso.
      apply SFltb_key in Hlt' as (_ & Hx & Hk).
      apply SFltb_false_key in Hlt; [|done..].
      apply Hlt. unfold key_lt in *. simpl in *. lia.
Qed.

(** What [std::max] returns on numbers. *)
Lemma max_of_spec a l :
  max_of a l ∈ a :: l
  ∧ (is_nan a → is_nan (max_of a l))
  ∧ (¬ is_nan a →
     ¬ is_nan (max_of a l) ∧ ∀ x, x ∈ a :: l → F32.ltb (max_of a l) x = false).
Proof.
  unfold max_of, F32.ltb. revert a. induction l as [|y l IH]; intros a; simpl.
  - split; [left|]. split; [done|]. intros Ha. split; [done|].
    intros x ->%list_elem_of_singleton. apply SFltb_irrefl.
  - destruct (IH (if SFltb a y then y else a)) as (Hin & Hnan & Hmax).
    split; [|split].
    + destruct (SFltb a y); [by right | ].
      apply elem_of_cons in Hin as [->|Hin]; [left | right; by right].
    + intros ->. exact (Hnan eq_refl).
    + intros Ha. destruct (SFltb a y) eqn:Hay.
      * pose proof Hay as (_ & Hy & _)%SFltb_key.
        destruct (Hmax Hy) as [Hm Hall]. split; [exact Hm|].
        intros x [->|Hx]%elem_of_cons; [|by apply Hall].
        destruct (SFltb _ a) eqn:Hma; [|done].
        pose proof (SFltb_trans _ _ _ Hma Hay) as Hmy.
        specialize (Hall y ltac:(left)). congruence.
      * destruct (Hmax Ha) as [Hm Hall]. split; [exact Hm|].
        intros x [->|[->|Hx]%elem_of_cons]%elem_of_cons.
        -- apply Hall. left.
        -- apply (SFltb_false_trans _ a); [done | done | apply Hall; left].
        -- apply Hall. by right.
Qed.

(** *** Squared distances *)

Lemma sq_dist_valid (a b : MeshPoint) :
  QVector3D.valid (pos a) = true → QVector3D.valid (pos b) = true →
  F32.valid (sq_dist a b) = true.
Proof.
  unfold QVector3D.valid, F32.valid. rewrite !andb_true_iff.
  intros [[? ?] ?] [[? ?] ?].
  unfold sq_dist, QVector3D.lengthSquared, QVector3D.minus. simpl.
  unfold F32.add, F32.mul, F32.sub, F32.prec, F32.emax.
  repeat first [apply SFadd_valid | apply SFmul_valid | apply SFsub_valid]; done.
Qed.

Lemma sq_dist_not_negative (a b : MeshPoint) : not_negative (sq_dist a b).
Proof.
  unfold sq_dist, QVector3D.lengthSquared, F32.add, F32.mul.
  repeat apply SFadd_not_negative; apply SFmul_square_not_negative.
Qed.

Lemma sq_dist_swap (a b : MeshPoint) : sq_dist a b = sq_dist b a.
Proof.
  unfold sq_dist, QVector3D.lengthSquared, QVector3D.minus, F32.mul, F32.sub. simpl.
  f_equal; [f_equal|]; apply SFmul_square_abs, SFsub_swap_abs.
Qed.

Lemma square_sub_self x :
  SFmul 24 128 (SFsub 24 128 x x) (SFsub 24 128 x x) = S754_nan
  ∨ SFmul 24 128 (SFsub 24 128 x x) (SFsub 24 128 x x) = S754_zero false.
Proof.
  destruct x as [s|s| |s m e]; simpl.
  - right. by destruct s.
  - left. by destruct s.
  - by left.
  - right. rewrite Z.min_id, Z.sub_diag. done.
Qed.

Lemma sq_dist_self (a : MeshPoint) :
  is_nan (sq_dist a a) ∨ sq_dist a a = S754_zero false.
Proof.
  unfold sq_dist, QVector3D.lengthSquared, QVector3D.minus, F32.add, F32.mul, F32.sub,
    F32.prec, F32.emax.
  simpl.
  destruct (square_sub_self (QVector3D.xp (pos a))) as [->| ->];
    destruct (square_sub_self (QVector3D.yp (pos a))) as [->| ->];
    destruct (square_sub_self (QVector3D.zp (pos a))) as [->| ->]; simpl;
    (by left) || (by right).
Qed.

(** Nothing that is not negative is below the distance of a point to
    itself. *)
Lemma not_below_self r (a : MeshPoint) :
  not_negative r → F32.ltb r (sq_dist a a) = false.
Proof.
  intros Hr. unfold F32.ltb.
  destruct (sq_dist_self a) as [->| ->]; [apply SFltb_nan_r|].
  destruct r as [?|?| |? ? ?]; simpl in *; subst; done.
Qed.

(** *** The diagonal test rejects repeated vertices *)

Lemma vec_at_valid points i P :
  points_valid points → vec_at points i = Some P → QVector3D.valid (pos P) = true.
Proof.
  unfold points_valid, vec_at. rewrite Forall_forall. intros Hall.
  destruct (decide (0 ≤ i)); [|done]. intros Hi%list_elem_of_lookup_2. by apply Hall.
Qed.

Lemma diagonals_ok_inv points f :
  diagonals_ok points f = Some true →
  ∃ P0 P1 P2 P3,
    vec_at points (q0 f) = Some P0 ∧ vec_at points (q1 f) = Some P1
    ∧ vec_at points (q2 f) = Some P2 ∧ vec_at points (q3 f) = Some P3
    ∧ let longest := max_of (sq_dist P0 P1) [sq_dist P1 P2; sq_dist P2 P3; sq_dist P3 P0] in
      F32.ltb (F32.mul longest F32.lit_1_01) (sq_dist P0 P2) = true
      ∧ F32.ltb (F32.mul longest F32.lit_1_01) (sq_dist P1 P3) = true.
Proof.
  unfold diagonals_ok.
  destruct (vec_at points (q0 f)) as [P0|]; [|done].
  destruct (vec_at points (q1 f)) as [P1|]; [|done].
  destruct (vec_at points (q2 f)) as [P2|]; [|done].
  destruct (vec_at points (q3 f)) as [P3|]; [|done].
  simpl. intros [= [H02 H13]%andb_true_iff]. by exists P0, P1, P2, P3.
Qed.

Lemma diagonals_ok_longest points f P0 P1 P2 P3 :
  points_valid points →
  vec_at points (q0 f) = Some P0 → vec_at points (q1 f) = Some P1 →
  vec_at points (q2 f) = Some P2 → vec_at points (q3 f) = Some P3 →
  let edges := [sq_dist P0 P1; sq_dist P1 P2; sq_dist P2 P3; sq_dist P3 P0] in
  let longest := max_of (sq_dist P0 P1) [sq_dist P1 P2; sq_dist P2 P3; sq_dist P3 P0] in
  ∀ d, F32.ltb (F32.mul longest F32.lit_1_01) d = true →
    longest ∈ edges
    ∧ (∀ e, e ∈ edges → F32.ltb longest e = false)
    ∧ (∀ e, e ∈ edges → F32.ltb (F32.mul longest F32.lit_1_01) e = false)
    ∧ (∀ a : MeshPoint, F32.ltb (F32.mul longest F32.lit_1_01) (sq_dist a a) = false).
Proof.
  intros Hv E0 E1 E2 E3 edges longest d Hd.
  pose proof (vec_at_valid _ _ _ Hv E0) as V0. pose proof (vec_at_valid _ _ _ Hv E1) as V1.
  pose proof (vec_at_valid _ _ _ Hv E2) as V2. pose proof (vec_at_valid _ _ _ Hv E3) as V3.
  destruct (max_of_spec (sq_dist P0 P1) [sq_dist P1 P2; sq_dist P2 P3; sq_dist P3 P0])
    as (Hin & Hnan & Hmax). fold longest in Hin, Hnan, Hmax. fold edges in Hin, Hmax.
  assert (Hedge : ∀ e, e ∈ edges → F32.valid e = true ∧ not_negative e).
  { intros e. unfold edges. rewrite !elem_of_cons, elem_of_nil.
    intros [->|[->|[->|[->|[]]]]]; (split; [by apply sq_dist_valid | apply sq_dist_not_negative]). }
  destruct (Hedge _ Hin) as [Hlv Hls].
  assert (Hnn : ¬ is_nan (sq_dist P0 P1)).
  { intros Hn. specialize (Hnan Hn). unfold is_nan in Hnan. rewrite Hnan in Hd. done. }
  destruct (Hmax Hnn) as [_ Hall].
  split; [exact Hin|]. split; [exact Hall|]. split.
  - intros e He. apply scale_not_below; [done..|]. by apply Hall.
  - intros a. apply not_below_self.
    unfold F32.lit_1_01. apply SFmul_scale_not_negative, Hls.
Qed.


End geometry.

(** ** Deduplication by key *)

Section dedup.
Context {A K : Type} `{Countable K} (key : A → K).

Lemma dedup_by_sublist seen l : dedup_by key seen l `sublist_of` l.
Proof.
  revert seen. induction l as [|x l IH]; intros seen; simpl; [done|].
  destruct (decide _); [apply sublist_cons | apply sublist_skip]; apply IH.
Qed.

Lemma dedup_by_fresh seen l x : x ∈ dedup_by key seen l → key x ∉ seen.
Proof.
  revert seen. induction l as [|y l IH]; intros seen; simpl; [by intros ?%elem_of_nil|].
  destruct (decide _) as [Hin|Hout]; [apply IH|].
  intros [->|Hx]%elem_of_cons; [done|]. apply IH in Hx. set_solver.
Qed.

Lemma dedup_by_NoDup seen l : NoDup (key <$> dedup_by key seen l).
Proof.
  revert seen. induction l as [|x l IH]; intros seen; simpl; [constructor|].
  destruct (decide _) as [Hin|Hout]; [apply IH|].
  rewrite fmap_cons. constructor; [|apply IH].
  intros (y & Hy & Hin)%list_elem_of_fmap. apply dedup_by_fresh in Hin.
  rewrite Hy in Hin. set_solver.
Qed.

(** Every element kept is the first element of the input with its key. *)
Lemma dedup_by_first seen l x :
  x ∈ dedup_by key seen l →
  ∃ pre post, l = pre ++ x :: post ∧ ∀ y, y ∈ pre → key y ≠ key x.
Proof.
  revert seen. induction l as [|y l IH]; intros seen; simpl; [by intros ?%elem_of_nil|].
  destruct (decide _) as [Hin|Hout].
  - intros Hx. pose proof (dedup_by_fresh _ _ _ Hx) as Hfresh.
    destruct (IH _ Hx) as (pre & post & -> & Hpre).
    exists (y :: pre), post. split; [done|].
    intros z [->|Hz]%elem_of_cons; [congruence | by apply Hpre].
  - intros [->|Hx]%elem_of_cons.
    + exists [], l. split; [done|]. by intros ? ?%elem_of_nil.
    + pose proof (dedup_by_fresh _ _ _ Hx) as Hfresh.
      destruct (IH _ Hx) as (pre & post & -> & Hpre).
      exists (y :: pre), post. split; [done|].
      intros z [->|Hz]%elem_of_cons; [set_solver | by apply Hpre].
Qed.

(** Every key of the input that was not seen before is kept once. *)
Lemma dedup_by_complete seen l y :
  y ∈ l → key y ∉ seen → ∃ x, x ∈ dedup_by key seen l ∧ key x = key y.
Proof.
  revert seen. induction l as [|z l IH]; intros seen; simpl; [by intros ?%elem_of_nil|].
  intros [->|Hy]%elem_of_cons Hfresh.
  - rewrite decide_False by done. exists z. split; [left | done].
  - destruct (decide (key z ∈ seen)); [by apply IH|].
    destruct (decide (key y = key z)) as [Heq|Hne].
    + exists z. split; [left | done].
    + destruct (IH ({[key z]} ∪ seen) Hy) as (x & Hx & Hk).
      { by intros [?%elem_of_singleton|?]%elem_of_union. }
      exists x. split; [by right | done].
Qed.

End dedup.

(** ** Step 2 as a fold over the traversal *)

Section faces_fold.
Import ReconstructionEngine.

Lemma foldM_app {A B : Type} (f : B → A → option A) (l1 l2 : list B) (a : A) :
  foldM f (l1 ++ l2) a = foldM f l1 a ≫= foldM f l2.
Proof.
  revert a. induction l1 as [|x l1 IH]; intros a; simpl; [done|].
  destruct (f x a) as [a'|]; simpl; [apply IH | done].
Qed.

Lemma p2_loop_fold points p0 p1 p3 at_p3 at_p1 st :
  p2_loop points p0 p1 p3 at_p3 at_p1 st
  = foldM (consider points) (p2_candidates p0 p1 p3 at_p3 at_p1) st.
Proof.
  revert st. induction at_p1 as [|p2 rest IH]; intros st; [done|].
  unfold p2_candidates in *. simpl. rewrite foldM_app.
  destruct (bool_decide (p2 ≠ p0) && uset_count p2 at_p3); simpl.
  - destruct (consider _ _ _) as [st'|]; simpl; [apply IH | done].
  - apply IH.
Qed.

Lemma j_loop_fold points adjGraph p0 p1 after st :
  j_loop points adjGraph p0 p1 after st
  = foldM (consider points) (j_candidates adjGraph p0 p1 after) st.
Proof.
  revert st. induction after as [|p3 rest IH]; intros st; [done|].
  simpl. rewrite foldM_app.
  destruct (adjGraph !! p1) as [at_p1|], (adjGraph !! p3) as [at_p3|]; simpl;
    try apply IH.
  rewrite p2_loop_fold. destruct (foldM _ _ _); simpl; [apply IH | done].
Qed.

Lemma i_loop_fold points adjGraph p0 neighbors st :
  i_loop points adjGraph p0 neighbors st
  = foldM (consider points) (i_candidates adjGraph p0 neighbors) st.
Proof.
  revert st. induction neighbors as [|p1 rest IH]; intros st; [done|].
  simpl. rewrite foldM_app, j_loop_fold.
  destruct (foldM _ _ _); simpl; [apply IH | done].
Qed.

Lemma p0_loop_fold points adjGraph p0_idx todo st :
  p0_loop points adjGraph p0_idx todo st
  = foldM (consider points) (p0_candidates adjGraph p0_idx todo) st.
Proof.
  revert p0_idx st. induction todo as [|todo IH]; intros p0_idx st; [done|].
  simpl. rewrite foldM_app.
  destruct (adjGraph !! p0_idx) as [neighbors|]; simpl; [|apply IH].
  rewrite i_loop_fold. destruct (foldM _ _ _); simpl; [apply IH | done].
Qed.

Lemma findValidFaces_fold points adjGraph :
  findValidFaces points adjGraph
  = validFaces <$> foldM (consider points) (traversal points adjGraph) (mkFaceState [] ∅).
Proof. unfold findValidFaces, traversal. by rewrite p0_loop_fold. Qed.

Lemma consider_eq points f st :
  consider points f st
  = match face_accepted points f with
    | None => None
    | Some false => Some st
    | Some true =>
        Some (if decide (sortedFace f ∈ uniqueFaces st) then st
              else mkFaceState (validFaces st ++ [f]) ({[sortedFace f]} ∪ uniqueFaces st))
    end.
Proof.
  unfold consider. destruct (face_accepted points f) as [[|]|]; simpl; [|done..].
  by destruct (decide _).
Qed.

(** What the fold computes when no step is undefined. *)
Lemma foldM_consider points cands st st' :
  foldM (consider points) cands st = Some st' →
  Forall (λ f, is_Some (face_accepted points f)) cands
  ∧ validFaces st'
    = validFaces st ++ dedup_by sortedFace (uniqueFaces st) (filter (accepted points) cands).
Proof.
  revert st. induction cands as [|f cands IH]; intros st; simpl.
  - intros [= <-]. rewrite app_nil_r. by repeat constructor.
  - rewrite consider_eq.
    destruct (face_accepted points f) as [[|]|] eqn:Hacc; simpl; [| |done].
    + rewrite !filter_cons_True by exact Hacc.
      destruct (decide (sortedFace f ∈ uniqueFaces st)) as [Hin|Hout]; simpl.
      * intros (Hall & Hv)%IH. split; [constructor; eauto|].
        by rewrite decide_True by done.
      * intros (Hall & Hv)%IH. simpl in *. split; [constructor; eauto|].
        rewrite decide_False by done. by rewrite <- app_assoc in Hv.
    + rewrite !filter_cons_False by (unfold accepted; congruence).
      intros (Hall & Hv)%IH. split; [constructor; eauto | done].
Qed.

(** Conversely the fold is defined as soon as every candidate can be
    evaluated. *)
Lemma foldM_consider_total points cands st :
  Forall (λ f, is_Some (face_accepted points f)) cands →
  is_Some (foldM (consider points) cands st).
Proof.
  intros Hall. revert st. induction Hall as [|f cands [b Hb] _ IH]; intros st; simpl.
  - by eexists.
  - rewrite consider_eq, Hb. destruct b; simpl; apply IH.
Qed.

Lemma findValidFaces_Some points adjGraph faces :
  findValidFaces points adjGraph = Some faces →
  Forall (λ f, is_Some (face_accepted points f)) (traversal points adjGraph)
  ∧ faces = dedup_by sortedFace ∅ (filter (accepted points) (traversal points adjGraph)).
Proof.
  rewrite findValidFaces_fold. destruct (foldM _ _ _) as [st|] eqn:Hfold; [|done].
  intros [= <-]. apply foldM_consider in Hfold as (Hall & Hv). done.
Qed.
End faces_fold.

(** ** Step 2: structure of the candidates *)

Section faces_structure.
Import ReconstructionEngine.

Lemma elem_of_p2_candidates p0 p1 p3 at_p3 at_p1 f :
  f ∈ p2_candidates p0 p1 p3 at_p3 at_p1 →
  ∃ p2, f = mkQuad p0 p1 p2 p3 ∧ p2 ∈ at_p1 ∧ p2 ∈ at_p3 ∧ p2 ≠ p0.
Proof.
  unfold p2_candidates. rewrite list_elem_of_bind. intros (p2 & Hf & Hp2).
  unfold uset_count in Hf.
  destruct (bool_decide (p2 ≠ p0)) eqn:Hne, (bool_decide (p2 ∈ at_p3)) eqn:Hin;
    simpl in Hf; try by apply elem_of_nil in Hf.
  apply list_elem_of_singleton in Hf.
  apply bool_decide_eq_true in Hne. apply bool_decide_eq_true in Hin. by exists p2.
Qed.

Lemma elem_of_j_candidates adjGraph p0 p1 after f :
  f ∈ j_candidates adjGraph p0 p1 after →
  ∃ p2 p3, f = mkQuad p0 p1 p2 p3 ∧ p3 ∈ after
           ∧ edge adjGraph p1 p2 ∧ edge adjGraph p3 p2 ∧ p2 ≠ p0.
Proof.
  induction after as [|p3 rest IH]; simpl; [by intros ?%elem_of_nil|].
  intros [Hf|Hf]%elem_of_app.
  - destruct (adjGraph !! p1) as [at_p1|] eqn:H1; [|by apply elem_of_nil in Hf].
    destruct (adjGraph !! p3) as [at_p3|] eqn:H3; [|by apply elem_of_nil in Hf].
    apply elem_of_p2_candidates in Hf as (p2 & -> & ? & ? & ?).
    exists p2, p3. repeat split; [left | by exists at_p1 | by exists at_p3 | done].
  - destruct (IH Hf) as (p2 & p3' & -> & ? & ? & ? & ?).
    exists p2, p3'. repeat split; [by right | done..].
Qed.

Lemma elem_of_i_candidates adjGraph p0 neighbors f :
  f ∈ i_candidates adjGraph p0 neighbors →
  ∃ p1 p2 p3, f = mkQuad p0 p1 p2 p3 ∧ p1 ∈ neighbors ∧ p3 ∈ neighbors
              ∧ edge adjGraph p1 p2 ∧ edge adjGraph p3 p2 ∧ p2 ≠ p0.
Proof.
  induction neighbors as [|p1 rest IH]; simpl; [by intros ?%elem_of_nil|].
  intros [Hf|Hf]%elem_of_app.
  - apply elem_of_j_candidates in Hf as (p2 & p3 & -> & ? & ? & ? & ?).
    exists p1, p2, p3. repeat split; [left | by right | done..].
  - destruct (IH Hf) as (p1' & p2 & p3 & -> & ? & ? & ? & ? & ?).
    exists p1', p2, p3. repeat split; [by right | by right | done..].
Qed.

Lemma elem_of_p0_candidates adjGraph p0_idx todo f :
  0 ≤ p0_idx →
  f ∈ p0_candidates adjGraph p0_idx todo →
  four_cycle (p0_idx + Z.of_nat todo) adjGraph f ∧ p0_idx ≤ q0 f.
Proof.
  revert p0_idx. induction todo as [|todo IH]; intros p0_idx Hpos; simpl;
    [by intros ?%elem_of_nil|].
  intros [Hf|Hf]%elem_of_app.
  - destruct (adjGraph !! p0_idx) as [neighbors|] eqn:H0; [|by apply elem_of_nil in Hf].
    apply elem_of_i_candidates in Hf as (p1 & p2 & p3 & -> & ? & ? & ? & ? & ?).
    split; [|simpl; lia]. unfold four_cycle. simpl.
    split; [lia|]. split; [by exists neighbors|]. split; [by exists neighbors|]. done.
  - apply IH in Hf as [(? & ?) ?]; [|lia]. split; [|lia]. split; [lia | done].
Qed.

Lemma traversal_four_cycle points adjGraph f :
  f ∈ traversal points adjGraph → four_cycle (Z.of_nat (length points)) adjGraph f.
Proof. intros Hf. by apply elem_of_p0_candidates in Hf as [? _]. Qed.
End faces_structure.

(** ** Step 2: bounds of the indices *)

Section faces_bounds.
Import ReconstructionEngine.

Lemma vec_at_Some {A : Type} (v : list A) (i : Z) (x : A) :
  vec_at v i = Some x → 0 ≤ i < Z.of_nat (length v).
Proof.
  unfold vec_at. destruct (decide (0 ≤ i)); [|done].
  intros Hx%lookup_lt_Some. lia.
Qed.

Lemma vec_at_is_Some {A : Type} (v : list A) (i : Z) :
  0 ≤ i < Z.of_nat (length v) → is_Some (vec_at v i).
Proof.
  intros Hi. unfold vec_at. rewrite decide_True by lia.
  apply lookup_lt_is_Some. lia.
Qed.

Lemma vec_at_negative {A : Type} (v : list A) (i : Z) : i < 0 → vec_at v i = None.
Proof. intros Hi. unfold vec_at. by rewrite decide_False by lia. Qed.

(** The guard of [arePointsCoplanar] rejects every index at or above the
    size, whatever the other indices are. *)
Lemma arePointsCoplanar_above points face tolerance :
  Exists (λ x, Z.of_nat (length points) ≤ x) (face_pts face) →
  arePointsCoplanar points face tolerance = Some false.
Proof.
  intros Hex. unfold arePointsCoplanar.
  assert ((Z.of_nat (length points) <=? q0 face) || (Z.of_nat (length points) <=? q1 face)
          || (Z.of_nat (length points) <=? q2 face) || (Z.of_nat (length points) <=? q3 face)
          = true) as ->; [|done].
  unfold face_pts in Hex. rewrite !Exists_cons, Exists_nil in Hex.
  rewrite !orb_true_iff, !Z.leb_le. tauto.
Qed.

(** Below the size the four points are read: the result is defined exactly
    when no index is negative. *)
Lemma arePointsCoplanar_below points face tolerance :
  Forall (λ x, x < Z.of_nat (length points)) (face_pts face) →
  is_Some (arePointsCoplanar points face tolerance)
  ↔ Forall (λ x, 0 ≤ x) (face_pts face).
Proof.
  unfold face_pts. rewrite !Forall_cons, !Forall_nil.
  intros (H0 & H1 & H2 & H3 & _). unfold arePointsCoplanar.
  assert ((Z.of_nat (length points) <=? q0 face) || (Z.of_nat (length points) <=? q1 face)
          || (Z.of_nat (length points) <=? q2 face) || (Z.of_nat (length points) <=? q3 face)
          = false) as ->.
  { rewrite !orb_false_iff, !Z.leb_gt. tauto. }
  split.
  - intros [b Hb].
    destruct (vec_at points (q0 face)) as [P0|] eqn:E0; [|done].
    destruct (vec_at points (q1 face)) as [P1|] eqn:E1; [|done].
    destruct (vec_at points (q2 face)) as [P2|] eqn:E2; [|done].
    destruct (vec_at points (q3 face)) as [P3|] eqn:E3; [|done].
    apply vec_at_Some in E0, E1, E2, E3. repeat split; lia.
  - intros (G0 & G1 & G2 & G3 & _).
    destruct (vec_at_is_Some points (q0 face)) as [P0 ->]; [lia|].
    destruct (vec_at_is_Some points (q1 face)) as [P1 ->]; [lia|].
    destruct (vec_at_is_Some points (q2 face)) as [P2 ->]; [lia|].
    destruct (vec_at_is_Some points (q3 face)) as [P3 ->]; [lia|].
    simpl. by eexists.
Qed.

Lemma arePointsCoplanar_true points face tolerance :
  arePointsCoplanar points face tolerance = Some true →
  Forall (λ x, 0 ≤ x < Z.of_nat (length points)) (face_pts face).
Proof.
  intros Htrue.
  destruct (decide (Exists (λ x, Z.of_nat (length points) ≤ x) (face_pts face)))
    as [Hex|Hall].
  - rewrite (arePointsCoplanar_above _ _ _ Hex) in Htrue. done.
  - apply not_Exists_Forall in Hall; [|intros x; apply _].
    assert (Hlt : Forall (λ x, x < Z.of_nat (length points)) (face_pts face)).
    { eapply Forall_impl; [exact Hall|]. simpl. intros. lia. }
    assert (Hpos : Forall (λ x, 0 ≤ x) (face_pts face)).
    { apply (arePointsCoplanar_below _ _ tolerance Hlt). rewrite Htrue. by eexists. }
    rewrite Forall_forall in Hlt, Hpos. apply Forall_forall. intros x Hx.
    specialize (Hlt x Hx). specialize (Hpos x Hx). lia.
Qed.

Lemma diagonals_ok_is_Some points face :
  Forall (λ x, 0 ≤ x < Z.of_nat (length points)) (face_pts face) →
  is_Some (diagonals_ok points face).
Proof.
  unfold face_pts. rewrite !Forall_cons, !Forall_nil.
  intros (G0 & G1 & G2 & G3 & _). unfold diagonals_ok.
  destruct (vec_at_is_Some points (q0 face)) as [P0 ->]; [lia|].
  destruct (vec_at_is_Some points (q1 face)) as [P1 ->]; [lia|].
  destruct (vec_at_is_Some points (q2 face)) as [P2 ->]; [lia|].
  destruct (vec_at_is_Some points (q3 face)) as [P3 ->]; [lia|].
  simpl. by eexists.
Qed.

(** An accepted face only refers to points of the sequence. *)
Lemma accepted_in_range points f :
  accepted points f → Forall (λ x, 0 ≤ x < Z.of_nat (length points)) (face_pts f).
Proof.
  unfold accepted, face_accepted.
  destruct (arePointsCoplanar points f F32.lit_1e_3) as [[|]|] eqn:Hc; simpl; [|done..].
  intros _. by eapply arePointsCoplanar_true.
Qed.

(** The filter is defined on every candidate without a negative index. *)
Lemma face_accepted_is_Some points f :
  Forall (λ x, 0 ≤ x) (face_pts f) → is_Some (face_accepted points f).
Proof.
  intros Hpos. unfold face_accepted.
  destruct (decide (Exists (λ x, Z.of_nat (length points) ≤ x) (face_pts f)))
    as [Hex|Hall].
  - rewrite (arePointsCoplanar_above _ _ _ Hex). simpl. by eexists.
  - apply not_Exists_Forall in Hall; [|intros x; apply _].
    assert (Hlt : Forall (λ x, x < Z.of_nat (length points)) (face_pts f)).
    { eapply Forall_impl; [exact Hall|]. simpl. intros. lia. }
    destruct (proj2 (arePointsCoplanar_below _ _ F32.lit_1e_3 Hlt) Hpos) as [c ->].
    simpl. destruct c; [|by eexists]. apply diagonals_ok_is_Some.
    rewrite Forall_forall in Hlt, Hpos. apply Forall_forall. intros x Hx.
    specialize (Hlt x Hx). specialize (Hpos x Hx). lia.
Qed.

(** [findValidFaces] returns on every graph without negative indices, in
    particular on every graph built by step 1. *)
Lemma findValidFaces_is_Some points (adjGraph : AdjacencyGraph) :
  (∀ k s x, adjGraph !! k = Some s → x ∈ s → 0 ≤ x) →
  is_Some (findValidFaces points adjGraph).
Proof.
  intros Hpos. rewrite findValidFaces_fold.
  apply fmap_is_Some, foldM_consider_total, Forall_forall.
  intros f (H0 & (s1 & ? & ?) & (s3 & ? & ?) & (s2 & ? & ?) & _)%traversal_four_cycle.
  apply face_accepted_is_Some. unfold face_pts.
  repeat constructor; [lia | eauto..].
Qed.

Lemma findValidFaces_after_build points :
  is_Some (findValidFaces points (buildAdjacencyGraph points)).
Proof.
  apply findValidFaces_is_Some. intros k s x Hs Hx.
  destruct (buildAdjacencyGraph_neighbors points k s x Hs Hx). lia.
Qed.
End faces_bounds.

(** ** Step 2: the claims on deduplication and on indices out of range *)

Section faces_claims.
Import ReconstructionEngine.

Lemma filter_split {A : Type} (P : A → Prop) `{!∀ x, Decision (P x)} (l pre post : list A) x :
  filter P l = pre ++ x :: post →
  ∃ pre' post', l = pre' ++ x :: post' ∧ filter P pre' = pre.
Proof.
  revert pre. induction l as [|y l IH]; intros pre.
  - rewrite filter_nil. by destruct pre.
  - rewrite filter_cons. destruct (decide (P y)) as [Hy|Hy].
    + destruct pre as [|z pre]; simpl.
      * intros [= -> _]. exists [], l. by rewrite filter_nil.
      * intros [= -> Hl]. destruct (IH _ Hl) as (pre' & post' & -> & <-).
        exists (z :: pre'), post'. by rewrite filter_cons_True.
    + intros Hl. destruct (IH _ Hl) as (pre' & post' & -> & <-).
      exists (y :: pre'), post'. by rewrite filter_cons_False.
Qed.

Lemma sort_int_Permutation (l1 l2 : list Z) : l1 ≡ₚ l2 ↔ sort_int l1 = sort_int l2.
Proof.
  unfold sort_int. split.
  - intros Hp. apply (Sorted_unique Z.le); [apply Sorted_merge_sort, _..|].
    by rewrite !merge_sort_Permutation.
  - intros Heq. rewrite <- (merge_sort_Permutation Z.le l1), Heq.
    apply merge_sort_Permutation.
Qed.

(** C5. No two faces returned by [findValidFaces] have the same canonical
    key (the four indices sorted ascending), so no two of them have the same
    four vertices in any order; and every face that is kept is stored as the
    candidate that the traversal found first with that key, in the order
    [p0, p1, p2, p3] of that candidate, not as its sorted key. *)
Theorem C5_face_uniqueness (points : list MeshPoint) (adjGraph : AdjacencyGraph)
    (faces : list QuadFace) :
  findValidFaces points adjGraph = Some faces →
  NoDup (sortedFace <$> faces)
  ∧ (∀ (i j : nat) fi fj, faces !! i = Some fi → faces !! j = Some fj → i ≠ j →
       ¬ face_pts fi ≡ₚ face_pts fj)
  ∧ ∀ f, f ∈ faces →
      accepted points f
      ∧ ∃ pre post, traversal points adjGraph = pre ++ f :: post
          ∧ ∀ f', f' ∈ pre → accepted points f' → sortedFace f' ≠ sortedFace f.
Proof.
  intros (_ & ->)%findValidFaces_Some.
  set (cands := filter (accepted points) (traversal points adjGraph)).
  pose proof (dedup_by_NoDup sortedFace ∅ cands) as Hnd.
  split; [exact Hnd|]. split.
  - intros i j fi fj Hi Hj Hij Hperm. apply sort_int_Permutation in Hperm.
    apply Hij. eapply NoDup_lookup; [exact Hnd | |].
    + rewrite list_lookup_fmap, Hi. done.
    + rewrite list_lookup_fmap, Hj. simpl. unfold sortedFace. by rewrite Hperm.
  - intros f Hf. split.
    + eapply elem_of_sublist in Hf; [|apply dedup_by_sublist].
      by apply list_elem_of_filter in Hf as [? _].
    + apply dedup_by_first in Hf as (pre & post & Hsplit & Hpre).
      apply filter_split in Hsplit as (pre' & post' & -> & <-).
      exists pre', post'. split; [done|]. intros f' Hin Hacc.
      apply Hpre, list_elem_of_filter. done.
Qed.

(** A candidate with an index at or above the size of the point sequence is
    rejected, whatever its other indices are, and no face that is returned
    refers to an index outside the sequence. *)
Lemma above_range_rejected (points : list MeshPoint) (f : QuadFace) :
  Exists (λ x, Z.of_nat (length points) ≤ x) (face_pts f) →
  arePointsCoplanar points f F32.lit_1e_3 = Some false
  ∧ face_accepted points f = Some false.
Proof.
  intros Hex. unfold face_accepted.
  rewrite (arePointsCoplanar_above _ _ _ Hex). done.
Qed.

Lemma returned_faces_in_range points adjGraph faces :
  findValidFaces points adjGraph = Some faces →
  ∀ f, f ∈ faces → Forall (λ x, 0 ≤ x < Z.of_nat (length points)) (face_pts f).
Proof.
  intros (_ & ->)%findValidFaces_Some f Hf.
  eapply elem_of_sublist in Hf; [|apply dedup_by_sublist].
  apply list_elem_of_filter in Hf as [Hacc _]. by apply accepted_in_range.
Qed.

(** C7. The guard of [arePointsCoplanar] has no test for an index below
    zero: a candidate whose indices are all below the size and one of which is
    negative passes the guard, and the point sequence is read out of its
    bounds. On the candidate [(0, -1, -3, -2)] over one point neither the
    helper nor [findValidFaces] has a defined result: the candidate is not
    rejected. *)
Theorem C7_negative_index_undefined :
  (∀ points face tolerance,
     Forall (λ x, x < Z.of_nat (length points)) (face_pts face) →
     Exists (λ x, x < 0) (face_pts face) →
     arePointsCoplanar points face tolerance = None)
  ∧ Samples.negative_graph !! 0 = Some [-1; -2]
  ∧ traversal Samples.one_point Samples.negative_graph = [mkQuad 0 (-1) (-3) (-2)]
  ∧ arePointsCoplanar Samples.one_point (mkQuad 0 (-1) (-3) (-2)) F32.lit_1e_3 = None
  ∧ findValidFaces Samples.one_point Samples.negative_graph = None.
Proof.
  split; [|repeat split; vm_compute; reflexivity].
  intros points face tolerance Hlt Hneg.
  destruct (arePointsCoplanar points face tolerance) as [b|] eqn:Hc; [|done].
  exfalso. assert (Hpos : Forall (λ x, 0 ≤ x) (face_pts face)).
  { apply (arePointsCoplanar_below _ _ tolerance Hlt). rewrite Hc. by eexists. }
  apply Exists_exists in Hneg as (x & Hx & Hx0).
  rewrite Forall_forall in Hpos. specialize (Hpos x Hx). lia.
Qed.


End faces_claims.

(** ** Step 3: connecting edges *)

Section hexahedra.
Import ReconstructionEngine.

Lemma size_list_to_set_le (l : list Z) : (size (list_to_set l : gset Z) ≤ length l)%nat.
Proof.
  induction l as [|x l IH]; [vm_compute; lia|]. simpl.
  rewrite size_union_alt, size_singleton.
  assert (Hsub : list_to_set l ∖ {[x]} ⊆ (list_to_set l : gset Z))
    by (by apply subseteq_difference_l).
  apply subseteq_size in Hsub. lia.
Qed.

(** A list has as many different elements as entries exactly when no
    element is repeated. *)
Lemma size_list_to_set_NoDup (l : list Z) :
  size (list_to_set l : gset Z) = length l ↔ NoDup l.
Proof.
  split; [|apply size_list_to_set].
  induction l as [|x l IH]; simpl; [constructor|]. intros Hsize.
  pose proof (size_list_to_set_le l) as Hle.
  destruct (decide (x ∈ l)) as [Hin|Hout].
  - exfalso. assert ({[x]} ∪ list_to_set l = (list_to_set l : gset Z)) as Heq.
    { by apply subseteq_union_1_L, singleton_subseteq_l, elem_of_list_to_set. }
    rewrite Heq in Hsize. lia.
  - constructor; [done|]. apply IH.
    rewrite size_union, size_singleton in Hsize; [lia|].
    by apply disjoint_singleton_l; rewrite elem_of_list_to_set.
Qed.

Lemma elem_of_edges_from adjGraph face2 p1 (e : Z * Z) :
  e ∈ edges_from adjGraph face2 p1
  ↔ e.1 = p1 ∧ e.2 ∈ face_pts face2 ∧ edge adjGraph p1 e.2.
Proof.
  unfold edges_from, edge. destruct (adjGraph !! p1) as [at_p1|].
  - rewrite list_elem_of_bind. split.
    + intros (p2 & He & Hp2). unfold uset_count in He.
      destruct (bool_decide (p2 ∈ at_p1)) eqn:Hin; [|by apply elem_of_nil in He].
      apply list_elem_of_singleton in He as ->. apply bool_decide_eq_true in Hin.
      simpl. eauto.
    + intros (<- & Hp2 & s & [= <-] & Hin). exists e.2. split; [|done].
      unfold uset_count. rewrite bool_decide_eq_true_2 by done.
      destruct e. apply list_elem_of_singleton. done.
  - split; [by intros ?%elem_of_nil|]. by intros (_ & _ & s & [=] & _).
Qed.

Lemma connecting_edges_rows adjGraph face1 face2 :
  connecting_edges adjGraph face1 face2
  = edges_from adjGraph face2 (q0 face1) ++ edges_from adjGraph face2 (q1 face1)
    ++ edges_from adjGraph face2 (q2 face1) ++ edges_from adjGraph face2 (q3 face1).
Proof.
  unfold connecting_edges, face_pts at 1. simpl. by rewrite app_nil_r.
Qed.

Lemma elem_of_face_pts (f : QuadFace) (x : Z) :
  x ∈ face_pts f ↔ x = q0 f ∨ x = q1 f ∨ x = q2 f ∨ x = q3 f.
Proof. unfold face_pts. rewrite !elem_of_cons, elem_of_nil. tauto. Qed.

Lemma elem_of_connecting_edges adjGraph face1 face2 (a b : Z) :
  (a, b) ∈ connecting_edges adjGraph face1 face2
  ↔ a ∈ face_pts face1 ∧ b ∈ face_pts face2 ∧ edge adjGraph a b.
Proof.
  rewrite connecting_edges_rows, !elem_of_app, !elem_of_edges_from. simpl.
  rewrite (elem_of_face_pts face1). split.
  - intros [(-> & ? & ?)|[(-> & ? & ?)|[(-> & ? & ?)|(-> & ? & ?)]]]; auto 6.
  - intros ([->|[->|[->| ->]]] & ? & ?); auto 6.
Qed.

(** The edges are collected row by row: they are the pairs of the double
    loop that are edges of the graph, in the order of the loop. *)
Lemma connecting_edges_filter adjGraph face1 face2 :
  connecting_edges adjGraph face1 face2
  = filter (λ e, edge adjGraph e.1 e.2) (vertex_pairs face1 face2).
Proof.
  assert (Hrow : ∀ p1 (l : list Z),
    match adjGraph !! p1 with
    | None => []
    | Some at_p1 => p2 ← l; if uset_count p2 at_p1 then [(p1, p2)] else []
    end = filter (λ e, edge adjGraph e.1 e.2) (l ≫= λ p2, [(p1, p2)] : list (Z * Z))).
  { intros p1 l. induction l as [|p2 l IH].
    - by destruct (adjGraph !! p1).
    - rewrite bind_cons, filter_app, <- IH, filter_cons, filter_nil. simpl.
      destruct (decide (edge adjGraph p1 p2)) as [(s & Hs & Hin)|Hno].
      + rewrite Hs. unfold uset_count at 1.
        by rewrite bool_decide_eq_true_2 by done.
      + destruct (adjGraph !! p1) as [at_p1|] eqn:H1; [|done].
        unfold uset_count at 1.
        rewrite bool_decide_eq_false_2; [done|].
        intros Hin. apply Hno. by exists at_p1. }
  unfold connecting_edges, vertex_pairs.
  induction (face_pts face1) as [|p1 l IH]; [done|].
  rewrite !bind_cons, filter_app, <- IH, <- Hrow. done.
Qed.

(** ** Step 3: one pair of faces *)

Lemma faces_disjoint_spec face1 face2 :
  faces_disjoint face1 face2 = true
  ↔ ∀ x, x ∈ face_pts face1 → x ∉ face_pts face2.
Proof.
  unfold faces_disjoint. rewrite forallb_forall. split.
  - intros Hall x H1 H2. apply list_elem_of_In, Hall in H2.
    apply negb_true_iff, bool_decide_eq_false in H2.
    apply H2, elem_of_list_to_set, H1.
  - intros Hdis x H2%list_elem_of_In. apply negb_true_iff, bool_decide_eq_false.
    rewrite elem_of_list_to_set. intros H1. by apply (Hdis x).
Qed.

(** Rows whose first components must all differ have at most one entry. *)
Lemma row_short adjGraph face2 p1 (rest : list (Z * Z)) :
  NoDup ((edges_from adjGraph face2 p1 ++ rest).*1) →
  (length (edges_from adjGraph face2 p1) ≤ 1)%nat.
Proof.
  destruct (edges_from adjGraph face2 p1) as [|e1 [|e2 row]] eqn:Hrow; simpl; [lia..|].
  assert (e1.1 = p1 ∧ e2.1 = p1) as [H1 H2].
  { split; eapply elem_of_edges_from; rewrite Hrow; [left | right; left]. }
  intros Hnd. apply NoDup_cons in Hnd as [Hnot _]. exfalso. apply Hnot.
  rewrite H1, <- H2. left.
Qed.

Lemma pair_candidate_inv adjGraph face1 face2 hex :
  hex ∈ pair_candidate adjGraph face1 face2 →
  (∀ x, x ∈ face_pts face1 → x ∉ face_pts face2)
  ∧ connecting_edges adjGraph face1 face2
    = [(h0 hex, h4 hex); (h1 hex, h5 hex); (h2 hex, h6 hex); (h3 hex, h7 hex)]
  ∧ [h0 hex; h1 hex; h2 hex; h3 hex] = face_pts face1
  ∧ [h4 hex; h5 hex; h6 hex; h7 hex] ≡ₚ face_pts face2
  ∧ NoDup (hex_pts hex).
Proof.
  unfold pair_candidate.
  destruct (faces_disjoint face1 face2) eqn:Hdis; [|by intros ?%elem_of_nil].
  pose proof (proj1 (faces_disjoint_spec _ _) Hdis) as Hdisj. clear Hdis.
  destruct (connecting_edges adjGraph face1 face2)
    as [|e0 [|e1 [|e2 [|e3 [|e4 es]]]]] eqn:Hedges; try by intros ?%elem_of_nil.
  destruct (decide _) as [[Hf1 Hf2]|]; [|by intros ?%elem_of_nil].
  intros ->%list_elem_of_singleton. simpl.
  apply (size_list_to_set_NoDup [_; _; _; _]) in Hf1.
  apply (size_list_to_set_NoDup [_; _; _; _]) in Hf2.
  split; [exact Hdisj|].
  split; [by destruct e0, e1, e2, e3|].
  (* every row contributes exactly one edge *)
  pose proof Hedges as Hrows. rewrite connecting_edges_rows in Hrows.
  assert (Hnd : NoDup (connecting_edges adjGraph face1 face2).*1) by (by rewrite Hedges).
  rewrite connecting_edges_rows in Hnd.
  pose proof (row_short _ _ _ _ Hnd) as L0.
  rewrite fmap_app in Hnd. pose proof Hnd as Hnd1. apply NoDup_app in Hnd1 as (_ & _ & Hnd1).
  pose proof (row_short _ _ _ _ Hnd1) as L1.
  rewrite fmap_app in Hnd1. pose proof Hnd1 as Hnd2. apply NoDup_app in Hnd2 as (_ & _ & Hnd2).
  pose proof (row_short _ _ _ _ Hnd2) as L2.
  rewrite fmap_app in Hnd2. pose proof Hnd2 as Hnd3. apply NoDup_app in Hnd3 as (_ & _ & Hnd3).
  rewrite <- (app_nil_r (edges_from adjGraph face2 (q3 face1))) in Hnd3.
  pose proof (row_short _ _ _ _ Hnd3) as L3.
  pose proof (f_equal length Hrows) as Hlen. rewrite !length_app in Hlen. simpl in Hlen.
  assert (Hin : ∀ e, e ∈ [e0; e1; e2; e3] →
                e.1 ∈ face_pts face1 ∧ e.2 ∈ face_pts face2).
  { intros [a b]. rewrite <- Hedges, elem_of_connecting_edges. tauto. }
  destruct (edges_from adjGraph face2 (q0 face1)) as [|r0 [|]] eqn:R0; simpl in *; try lia.
  destruct (edges_from adjGraph face2 (q1 face1)) as [|r1 [|]] eqn:R1; simpl in *; try lia.
  destruct (edges_from adjGraph face2 (q2 face1)) as [|r2 [|]] eqn:R2; simpl in *; try lia.
  destruct (edges_from adjGraph face2 (q3 face1)) as [|r3 [|]] eqn:R3; simpl in *; try lia.
  injection Hrows as -> -> -> ->.
  assert (e0.1 = q0 face1) as E0 by (eapply elem_of_edges_from; rewrite R0; left).
  assert (e1.1 = q1 face1) as E1 by (eapply elem_of_edges_from; rewrite R1; left).
  assert (e2.1 = q2 face1) as E2 by (eapply elem_of_edges_from; rewrite R2; left).
  assert (e3.1 = q3 face1) as E3 by (eapply elem_of_edges_from; rewrite R3; left).
  split; [unfold face_pts; congruence|].
  assert (Hperm : [e0.2; e1.2; e2.2; e3.2] ≡ₚ face_pts face2).
  { apply submseteq_length_Permutation; [|done].
    apply NoDup_submseteq; [done|]. intros x Hx.
    change (x ∈ snd <$> [e0; e1; e2; e3]) in Hx.
    apply list_elem_of_fmap in Hx as (e & -> & He). by apply Hin. }
  split; [exact Hperm|].
  unfold hex_pts. simpl.
  change (NoDup ([e0.1; e1.1; e2.1; e3.1] ++ [e0.2; e1.2; e2.2; e3.2])).
  apply NoDup_app. split; [done|]. split; [|done].
  intros x H1 H2. rewrite Hperm in H2. revert H2. apply Hdisj.
  unfold face_pts. rewrite <- E0, <- E1, <- E2, <- E3. done.
Qed.

(** ** Step 3: the pair loop and the deduplication *)

Lemma elem_of_candidateHexahedra adjGraph validFaces hex :
  hex ∈ candidateHexahedra adjGraph validFaces →
  ∃ (i j : nat) face1 face2,
    (i < j)%nat ∧ validFaces !! i = Some face1 ∧ validFaces !! j = Some face2
    ∧ hex ∈ pair_candidate adjGraph face1 face2.
Proof.
  induction validFaces as [|face1 rest IH]; simpl; [by intros ?%elem_of_nil|].
  intros [Hhex|Hhex]%elem_of_app.
  - apply list_elem_of_bind in Hhex as (face2 & Hhex & Hin).
    apply list_elem_of_lookup in Hin as [j Hj].
    exists 0%nat, (S j), face1, face2. repeat split; [lia | done..].
  - destruct (IH Hhex) as (i & j & f1 & f2 & Hij & Hi & Hj & Hin).
    exists (S i), (S j), f1, f2. repeat split; [lia | done..].
Qed.

Lemma dedup_step_eq st hex :
  dedup_step st hex
  = if decide (eight_distinct hex) then
      if decide (sortedHex hex ∈ uniqueHexes st) then st
      else mkHexState (finalHexahedra st ++ [hex]) ({[sortedHex hex]} ∪ uniqueHexes st)
    else st.
Proof.
  unfold dedup_step, eight_distinct.
  destruct (decide (size _ ≠ 8%nat)) as [Hne|Heq];
    destruct (decide (size _ = 8%nat)) as [He|Hn]; done.
Qed.

Lemma foldl_dedup_step cands st :
  finalHexahedra (foldl dedup_step st cands)
  = finalHexahedra st ++ dedup_by sortedHex (uniqueHexes st) (filter eight_distinct cands).
Proof.
  revert st. induction cands as [|hex cands IH]; intros st; simpl.
  - by rewrite app_nil_r.
  - rewrite IH, dedup_step_eq, filter_cons.
    destruct (decide (eight_distinct hex)); [|done]. simpl.
    destruct (decide (sortedHex hex ∈ uniqueHexes st)); [done|].
    simpl. by rewrite <- app_assoc.
Qed.

Lemma buildHexahedra_eq validFaces adjGraph :
  buildHexahedra validFaces adjGraph
  = dedup_by sortedHex ∅ (filter eight_distinct (candidateHexahedra adjGraph validFaces)).
Proof. unfold buildHexahedra. by rewrite foldl_dedup_step. Qed.

Lemma elem_of_buildHexahedra validFaces adjGraph hex :
  hex ∈ buildHexahedra validFaces adjGraph → hex ∈ candidateHexahedra adjGraph validFaces.
Proof.
  rewrite buildHexahedra_eq. intros Hhex.
  eapply elem_of_sublist in Hhex; [|apply dedup_by_sublist].
  by apply list_elem_of_filter in Hhex as [_ ?].
Qed.

(** The guard of the deduplication never fires: every candidate has eight
    different indices. *)
Lemma candidate_eight_distinct adjGraph validFaces hex :
  hex ∈ candidateHexahedra adjGraph validFaces → eight_distinct hex.
Proof.
  intros (i & j & f1 & f2 & _ & _ & _ & Hin)%elem_of_candidateHexahedra.
  apply pair_candidate_inv in Hin as (_ & _ & _ & _ & Hnd).
  unfold eight_distinct, sortedHex, sort_int.
  rewrite size_list_to_set.
  - by rewrite merge_sort_Permutation.
  - by rewrite merge_sort_Permutation.
Qed.
End hexahedra.

(** ** Step 3: the claims *)

Section hexahedra_claims.
Import ReconstructionEngine.

(** C1. Every hexahedron returned by [buildHexahedra] comes from two faces
    of the input list, the first one earlier in the list, that share no
    vertex; the edges of the graph from the first face to the second are
    exactly the four pairs (slot [k], slot [k + 4]); its first four slots are
    the first face, its last four slots are the vertices of the second face,
    and its eight indices are pairwise different, so that the four edges
    match the vertices of the two faces one to one. *)
Theorem C1_hexahedron_validity (validFaces : list QuadFace) (adjGraph : AdjacencyGraph)
    (hex : Hexahedron) :
  hex ∈ buildHexahedra validFaces adjGraph →
  ∃ (i j : nat) (face1 face2 : QuadFace),
    (i < j)%nat ∧ validFaces !! i = Some face1 ∧ validFaces !! j = Some face2
    ∧ decomposes adjGraph face1 face2 hex.
Proof.
  intros Hhex%elem_of_buildHexahedra.
  apply elem_of_candidateHexahedra in Hhex as (i & j & f1 & f2 & Hij & Hi & Hj & Hin).
  apply pair_candidate_inv in Hin as (Hdis & Hedges & Hf1 & Hf2 & Hnd).
  exists i, j, f1, f2. repeat (split; [done|]). split; [|done].
  intros a b Ha Hb. rewrite <- Hedges, elem_of_connecting_edges. tauto.
Qed.

(** C6. No two hexahedra returned by [buildHexahedra] have the same
    canonical key (the eight indices sorted ascending), so no two of them have
    the same eight vertices; every hexahedron that is kept is the first
    candidate with its key, with the slots of that candidate unchanged, and
    every candidate has its key among the hexahedra that are kept. *)
Theorem C6_hexahedron_uniqueness (validFaces : list QuadFace) (adjGraph : AdjacencyGraph) :
  NoDup (sortedHex <$> buildHexahedra validFaces adjGraph)
  ∧ (∀ (i j : nat) hi hj,
       buildHexahedra validFaces adjGraph !! i = Some hi →
       buildHexahedra validFaces adjGraph !! j = Some hj →
       i ≠ j → ¬ hex_pts hi ≡ₚ hex_pts hj)
  ∧ (∀ hex, hex ∈ buildHexahedra validFaces adjGraph →
       ∃ pre post, candidateHexahedra adjGraph validFaces = pre ++ hex :: post
         ∧ ∀ hex', hex' ∈ pre → sortedHex hex' ≠ sortedHex hex)
  ∧ (∀ hex, hex ∈ candidateHexahedra adjGraph validFaces →
       ∃ kept, kept ∈ buildHexahedra validFaces adjGraph ∧ sortedHex kept = sortedHex hex).
Proof.
  rewrite buildHexahedra_eq.
  assert (Hfilter : filter eight_distinct (candidateHexahedra adjGraph validFaces)
                    = candidateHexahedra adjGraph validFaces).
  { pose proof (candidate_eight_distinct adjGraph validFaces) as Hall.
    induction (candidateHexahedra adjGraph validFaces) as [|hex l IH]; [done|].
    rewrite filter_cons_True by (apply Hall; left).
    f_equal. apply IH. intros hex' Hin. apply Hall. by right. }
  rewrite Hfilter.
  pose proof (dedup_by_NoDup sortedHex ∅ (candidateHexahedra adjGraph validFaces)) as Hnd.
  split; [exact Hnd|]. split; [|split].
  - intros i j hi hj Hi Hj Hij Hperm. apply sort_int_Permutation in Hperm.
    apply Hij. eapply NoDup_lookup; [exact Hnd | |].
    + rewrite list_lookup_fmap, Hi. done.
    + rewrite list_lookup_fmap, Hj. simpl. unfold sortedHex. by rewrite Hperm.
  - intros hex Hhex. by apply dedup_by_first in Hhex.
  - intros hex Hhex. apply (dedup_by_complete sortedHex ∅ _ hex Hhex), not_elem_of_empty.
Qed.

(** C8. The connecting edges collected for a pair of faces are exactly the
    pairs [(a, b)] of the double loop over the first and the second face such
    that [b] is in the adjacency set of [a]; an edge that the graph only has
    from the second face to the first is not collected. Over the one-way
    graph the two faces give a hexahedron when the lower face comes first in
    the list and none when the upper face comes first. *)
Theorem C8_directed_connecting_edges :
  (∀ (adjGraph : AdjacencyGraph) face1 face2,
     connecting_edges adjGraph face1 face2
     = filter (λ e, edge adjGraph e.1 e.2) (vertex_pairs face1 face2))
  ∧ (∀ (adjGraph : AdjacencyGraph) face1 face2 a b,
       (a, b) ∈ connecting_edges adjGraph face1 face2
       ↔ a ∈ face_pts face1 ∧ b ∈ face_pts face2 ∧ edge adjGraph a b)
  ∧ (∀ (adjGraph : AdjacencyGraph) face1 face2 a b,
       edge adjGraph b a → ¬ edge adjGraph a b →
       (a, b) ∉ connecting_edges adjGraph face1 face2)
  ∧ buildHexahedra [Samples.lower_face; Samples.upper_face] Samples.one_way_graph
    = [mkHex 0 1 2 3 4 5 6 7]
  ∧ buildHexahedra [Samples.upper_face; Samples.lower_face] Samples.one_way_graph = [].
Proof.
  split; [apply connecting_edges_filter|].
  split; [apply elem_of_connecting_edges|].
  split; [|split; vm_compute; reflexivity].
  intros adjGraph face1 face2 a b _ Hno Hin.
  apply elem_of_connecting_edges in Hin. tauto.
Qed.
End hexahedra_claims.

(** ** The iteration order of the adjacency sets *)

Section iteration_order.
Import ReconstructionEngine.

Lemma reordering_sym g g' : reordering g g' → reordering g' g.
Proof.
  intros H k. specialize (H k). destruct H as [s s' Hp|]; constructor. by symmetry.
Qed.

Lemma reordering_reverse g : reordering g (reverse <$> g).
Proof.
  intros k. rewrite lookup_fmap. destruct (g !! k) as [s|]; constructor.
  symmetry. apply reverse_Permutation.
Qed.

Lemma reordering_lookup g g' k s :
  reordering g g' → g !! k = Some s → ∃ s', g' !! k = Some s' ∧ s ≡ₚ s'.
Proof.
  intros H Hk. specialize (H k). rewrite Hk in H. inversion H as [? s' Hp|]; subst.
  by exists s'.
Qed.

Lemma reordering_edge g g' a b : reordering g g' → edge g a b → edge g' a b.
Proof.
  intros H (s & Hs & Hb). destruct (reordering_lookup g g' a s H Hs) as (s' & Hs' & Hp).
  exists s'. split; [done|]. by rewrite <- Hp.
Qed.

Lemma uset_count_Permutation x s s' : s ≡ₚ s' → uset_count x s = uset_count x s'.
Proof. intros Hp. unfold uset_count. apply bool_decide_ext. by rewrite Hp. Qed.

(** *** Step 3 only asks whether an index is in a set *)

Lemma connecting_edges_reordering g g' face1 face2 :
  reordering g g' → connecting_edges g face1 face2 = connecting_edges g' face1 face2.
Proof.
  intros H. unfold connecting_edges. apply list_bind_ext; [|done]. intros p1.
  specialize (H p1). destruct H as [s s' Hp|]; [|done].
  apply list_bind_ext; [|done]. intros p2. by rewrite (uset_count_Permutation p2 s s' Hp).
Qed.

Lemma candidateHexahedra_reordering g g' validFaces :
  reordering g g' → candidateHexahedra g validFaces = candidateHexahedra g' validFaces.
Proof.
  intros H. induction validFaces as [|face1 rest IH]; simpl; [done|]. rewrite IH. f_equal.
  apply list_bind_ext; [|done]. intros face2. unfold pair_candidate.
  by rewrite (connecting_edges_reordering g g' face1 face2 H).
Qed.

Lemma buildHexahedra_reordering g g' validFaces :
  reordering g g' → buildHexahedra validFaces g = buildHexahedra validFaces g'.
Proof.
  intros H. by rewrite !buildHexahedra_eq, (candidateHexahedra_reordering g g' validFaces H).
Qed.

Lemma candidateHexahedra_pair g validFaces (i j : nat) face1 face2 hex :
  (i < j)%nat → validFaces !! i = Some face1 → validFaces !! j = Some face2 →
  hex ∈ pair_candidate g face1 face2 → hex ∈ candidateHexahedra g validFaces.
Proof.
  revert i j. induction validFaces as [|f rest IH]; intros i j Hij Hi Hj Hhex; [done|].
  simpl. apply elem_of_app. destruct i as [|i].
  - left. simpl in Hi. injection Hi as ->. destruct j as [|j]; [lia|]. simpl in Hj.
    apply list_elem_of_bind. exists face2. split; [done|]. by eapply list_elem_of_lookup_2.
  - right. destruct j as [|j]; [lia|]. simpl in Hi, Hj. apply (IH i j); [lia | done..].
Qed.

(** *** Step 2: the candidates of a graph in another order *)

Lemma p2_candidates_intro p0 p1 p2 p3 at_p3 at_p1 :
  p2 ∈ at_p1 → p2 ∈ at_p3 → p2 ≠ p0 →
  mkQuad p0 p1 p2 p3 ∈ p2_candidates p0 p1 p3 at_p3 at_p1.
Proof.
  intros H1 H3 Hne. unfold p2_candidates. apply list_elem_of_bind. exists p2.
  split; [|done]. unfold uset_count.
  rewrite (bool_decide_eq_true_2 _ Hne), (bool_decide_eq_true_2 _ H3). left.
Qed.

Lemma j_candidates_intro g p0 p1 p2 p3 after :
  p3 ∈ after → edge g p1 p2 → edge g p3 p2 → p2 ≠ p0 →
  mkQuad p0 p1 p2 p3 ∈ j_candidates g p0 p1 after.
Proof.
  intros Hin (s1 & Hs1 & H1) (s3 & Hs3 & H3) Hne.
  induction after as [|x rest IH]; [by apply elem_of_nil in Hin|].
  simpl. apply elem_of_app. apply elem_of_cons in Hin as [<-|Hin].
  - left. rewrite Hs1, Hs3. by apply p2_candidates_intro.
  - right. by apply IH.
Qed.

Lemma i_candidates_intro g p0 p1 p2 p3 before after :
  p3 ∈ after → edge g p1 p2 → edge g p3 p2 → p2 ≠ p0 →
  mkQuad p0 p1 p2 p3 ∈ i_candidates g p0 (before ++ p1 :: after).
Proof.
  intros Hin H1 H3 Hne. induction before as [|x before IH]; simpl; apply elem_of_app.
  - left. by apply j_candidates_intro.
  - by right.
Qed.

Lemma i_candidates_split g p0 neighbors f :
  f ∈ i_candidates g p0 neighbors →
  ∃ p1 p2 p3 before after,
    f = mkQuad p0 p1 p2 p3 ∧ neighbors = before ++ p1 :: after ∧ p3 ∈ after
    ∧ edge g p1 p2 ∧ edge g p3 p2 ∧ p2 ≠ p0.
Proof.
  induction neighbors as [|p1 rest IH]; simpl; [by intros ?%elem_of_nil|].
  intros [Hf|Hf]%elem_of_app.
  - apply elem_of_j_candidates in Hf as (p2 & p3 & -> & ? & ? & ? & ?).
    by exists p1, p2, p3, [], rest.
  - destruct (IH Hf) as (p1' & p2 & p3 & before & after & -> & -> & ? & ? & ? & ?).
    by exists p1', p2, p3, (p1 :: before), after.
Qed.

Lemma p0_candidates_intro g p0_idx todo f s :
  p0_idx ≤ q0 f < p0_idx + Z.of_nat todo →
  g !! q0 f = Some s → f ∈ i_candidates g (q0 f) s →
  f ∈ p0_candidates g p0_idx todo.
Proof.
  revert p0_idx. induction todo as [|todo IH]; intros p0_idx Hr Hs Hf; [lia|].
  simpl. apply elem_of_app. destruct (decide (q0 f = p0_idx)) as [<-|Hne].
  - left. by rewrite Hs.
  - right. apply IH; [lia | done..].
Qed.

Lemma p0_candidates_split g p0_idx todo f :
  f ∈ p0_candidates g p0_idx todo →
  p0_idx ≤ q0 f < p0_idx + Z.of_nat todo
  ∧ ∃ s, g !! q0 f = Some s ∧ f ∈ i_candidates g (q0 f) s.
Proof.
  revert p0_idx. induction todo as [|todo IH]; intros p0_idx; simpl;
    [by intros ?%elem_of_nil|].
  intros [Hf|Hf]%elem_of_app.
  - destruct (g !! p0_idx) as [s|] eqn:Hs; [|by apply elem_of_nil in Hf].
    pose proof Hf as (p1 & p2 & p3 & -> & _)%elem_of_i_candidates. simpl.
    split; [lia|]. by exists s.
  - apply IH in Hf as [Hr Hs]. split; [lia | done].
Qed.

(** In another order the loops find every candidate again, walked the same
    way round or the other way round. *)
Lemma traversal_reordering points g g' f :
  reordering g g' → (∀ k s, g !! k = Some s → NoDup s) →
  f ∈ traversal points g → f ∈ traversal points g' ∨ flip f ∈ traversal points g'.
Proof.
  intros Hre Hnd (Hr & s & Hs & Hf)%p0_candidates_split.
  apply i_candidates_split in Hf
    as (p1 & p2 & p3 & before & after & Heq & -> & H3 & E1 & E3 & Hne).
  destruct f as [p0 ? ? ?]. simpl in *. injection Heq as -> -> ->.
  destruct (reordering_lookup g g' _ _ Hre Hs) as (s' & Hs' & Hp).
  pose proof (Hnd _ _ Hs) as Hnd'. apply NoDup_app in Hnd' as (_ & _ & Hnd').
  apply NoDup_cons in Hnd' as [Hp1 _].
  assert (Hne13 : p3 ≠ p1) by (intros ->; done).
  assert (Hin1 : p1 ∈ s').
  { rewrite <- Hp. apply elem_of_app. right. left. }
  assert (Hin3 : p3 ∈ s').
  { rewrite <- Hp. apply elem_of_app. right. by right. }
  apply list_elem_of_split in Hin1 as (l1 & l2 & ->).
  apply (reordering_edge g g') in E1, E3; [|done..].
  unfold traversal, flip. simpl.
  apply elem_of_app in Hin3 as [Hin3|Hin3].
  - right. apply list_elem_of_split in Hin3 as (l1a & l1b & ->).
    apply (p0_candidates_intro g' 0 (length points) _ ((l1a ++ p3 :: l1b) ++ p1 :: l2));
      [simpl; lia | done |]. simpl. rewrite <- app_assoc. simpl.
    apply i_candidates_intro; [|done..]. apply elem_of_app. right. left.
  - left. apply elem_of_cons in Hin3 as [?|Hin3]; [done|].
    apply (p0_candidates_intro g' 0 (length points) _ (l1 ++ p1 :: l2)); [simpl; lia | done |].
    simpl. by apply i_candidates_intro.
Qed.

Lemma sortedFace_flip f : sortedFace (flip f) = sortedFace f.
Proof.
  unfold sortedFace. apply sort_int_Permutation. unfold flip, face_pts. simpl.
  solve_Permutation.
Qed.

Lemma flip_flip f : flip (flip f) = f.
Proof. by destruct f. Qed.

(** *** The keys that a deduplication keeps *)

Lemma dedup_by_keys {A K : Type} `{Countable K} (key : A → K) (l : list A) (keys : list K) :
  NoDup keys → (∀ k, k ∈ key <$> l ↔ k ∈ keys) →
  key <$> dedup_by key ∅ l ≡ₚ keys.
Proof.
  intros Hnd Hkeys. apply NoDup_Permutation; [apply dedup_by_NoDup | done |].
  intros k. rewrite <- Hkeys. split.
  - intros (x & -> & Hx)%list_elem_of_fmap. apply list_elem_of_fmap. exists x.
    split; [done|]. eapply elem_of_sublist; [exact Hx | apply dedup_by_sublist].
  - intros (y & -> & Hy)%list_elem_of_fmap.
    destruct (dedup_by_complete key ∅ l y Hy) as (x & Hx & Hk); [apply not_elem_of_empty|].
    apply list_elem_of_fmap. by exists x.
Qed.
End iteration_order.

(** ** The reference layout through the three stages *)

Section reference_layout.
Import ReconstructionEngine MainWindow.

Lemma reference_graph_eq : buildAdjacencyGraph m_points = reference_graph.
Proof. vm_compute. reflexivity. Qed.

Lemma reference_faces_eq : findValidFaces m_points reference_graph = Some reference_faces.
Proof. vm_compute. reflexivity. Qed.

Lemma reference_hexahedra_eq :
  buildHexahedra reference_faces reference_graph = reference_hexahedra.
Proof. vm_compute. reflexivity. Qed.

(** The left face of the lowest cell is a 4-cycle of the graph, but its
    first corner is at [x = -0.2]: it is not planar and is not a face. *)
Lemma skewed_face_rejected :
  mkQuad 0 3 7 4 ∈ traversal m_points reference_graph
  ∧ arePointsCoplanar m_points (mkQuad 0 3 7 4) F32.lit_1e_3 = Some false.
Proof.
  split; [|vm_compute; reflexivity].
  apply (bool_decide_unpack _). vm_compute. exact I.
Qed.

Lemma m_adjGraph_eq : m_adjGraph = reference_graph.
Proof. apply reference_graph_eq. Qed.

Lemma m_faces_eq : m_faces = Some reference_faces.
Proof. unfold m_faces. rewrite m_adjGraph_eq. apply reference_faces_eq. Qed.

Lemma m_hexahedra_eq : m_hexahedra = Some reference_hexahedra.
Proof.
  unfold m_hexahedra. rewrite m_faces_eq, m_adjGraph_eq. simpl.
  by rewrite reference_hexahedra_eq.
Qed.

(** With every set iterated in the reverse order, the order that libstdc++
    gives them, the vertices of the faces and of the hexahedra come in another
    order, and the counts are the same. *)
Lemma reference_layout_reverse_order :
  ∃ faces,
    findValidFaces m_points (reverse <$> reference_graph) = Some faces
    ∧ length faces = 15%nat
    ∧ length (buildHexahedra faces (reverse <$> reference_graph)) = 3%nat.
Proof. eexists. split; [vm_compute; reflexivity|]. split; vm_compute; reflexivity. Qed.

(** *** The reference layout in every iteration order

    The program iterates every adjacency set in the order of its container,
    which is not the order of insertion in general. The facts that follow
    are computed on the graph as a family of sets; the general lemmas on
    reordered graphs carry them over to every iteration order. *)

Lemma reference_graph_sets (k : Z) (s : list Z) :
  reference_graph !! k = Some s → NoDup s ∧ Forall (λ x, 0 ≤ x) s.
Proof.
  assert (Hall : map_Forall (λ _ s, NoDup s ∧ Forall (λ x, 0 ≤ x) s) reference_graph).
  { apply (bool_decide_unpack _). vm_compute. exact I. }
  apply Hall.
Qed.

Lemma oriented_faces_eq :
  filter (accepted m_points)
    (traversal m_points reference_graph ++ (flip <$> traversal m_points reference_graph))
  = Reference.oriented_faces.
Proof. vm_compute. reflexivity. Qed.

Lemma oriented_faces_keys :
  Forall (λ f, sortedFace f ∈ Reference.face_keys) Reference.oriented_faces.
Proof. apply (bool_decide_unpack _). vm_compute. exact I. Qed.

(** Every vertex set of the list is the set of a candidate that is accepted
    whichever way round it is walked. *)
Lemma face_keys_found :
  Forall (λ k, Exists (λ f, accepted m_points f ∧ accepted m_points (flip f)
                            ∧ sortedFace f = k)
                 (traversal m_points reference_graph))
    Reference.face_keys.
Proof. apply (bool_decide_unpack _). vm_compute. exact I. Qed.

(** Whatever the two faces are among the accepted 4-cycles, a candidate
    hexahedron of theirs is one of the three cells. *)
Lemma oriented_pairs_keys :
  Forall (λ f1, Forall (λ f2, Forall (λ h, sortedHex h ∈ Reference.hex_keys)
                                (pair_candidate reference_graph f1 f2))
                  Reference.oriented_faces)
    Reference.oriented_faces.
Proof. apply (bool_decide_unpack _). vm_compute. exact I. Qed.

(** The lower and the upper face of a cell give the cell, whichever of the
    two comes first and however the two are walked. *)
Lemma cells_found :
  Forall (λ c : list Z * list Z * list Z,
            c.1.1 ∈ Reference.face_keys ∧ c.1.2 ∈ Reference.face_keys ∧ c.1.1 ≠ c.1.2
            ∧ Forall (λ f1, Forall (λ f2,
                  sortedFace f1 = c.1.1 → sortedFace f2 = c.1.2 →
                  Exists (λ h, sortedHex h = c.2) (pair_candidate reference_graph f1 f2)
                  ∧ Exists (λ h, sortedHex h = c.2) (pair_candidate reference_graph f2 f1))
                Reference.oriented_faces) Reference.oriented_faces)
    Reference.cells.
Proof. apply (bool_decide_unpack _). vm_compute. exact I. Qed.

Lemma reference_layout_any_order (adjGraph : AdjacencyGraph) :
  reordering (buildAdjacencyGraph m_points) adjGraph →
  ∃ faces,
    findValidFaces m_points adjGraph = Some faces
    ∧ sortedFace <$> faces ≡ₚ Reference.face_keys
    ∧ sortedHex <$> buildHexahedra faces adjGraph ≡ₚ Reference.hex_keys.
Proof.
  rewrite reference_graph_eq. intros Hre.
  pose proof (reordering_sym _ _ Hre) as Hre'.
  assert (Hsets : ∀ k s, adjGraph !! k = Some s → NoDup s ∧ Forall (λ x, 0 ≤ x) s).
  { intros k s Hs. destruct (reordering_lookup _ _ k s Hre' Hs) as (s0 & Hs0 & Hp).
    rewrite Hp. by eapply reference_graph_sets. }
  destruct (findValidFaces_is_Some m_points adjGraph) as [faces Hfaces].
  { intros k s x Hs Hx. destruct (Hsets k s Hs) as [_ Hall].
    rewrite Forall_forall in Hall. by apply Hall. }
  exists faces. split; [done|].
  apply findValidFaces_Some in Hfaces as (_ & ->).
  set (faces := dedup_by sortedFace ∅ _).
  assert (Horiented : ∀ f, f ∈ traversal m_points adjGraph → accepted m_points f →
                           f ∈ Reference.oriented_faces).
  { intros f Hf Hacc. rewrite <- oriented_faces_eq. apply list_elem_of_filter.
    split; [done|]. apply elem_of_app.
    destruct (traversal_reordering m_points adjGraph reference_graph f Hre') as [?|Hflip];
      [intros k s Hs; by destruct (Hsets k s Hs) | done | by left |].
    right. apply list_elem_of_fmap. exists (flip f). by rewrite flip_flip. }
  assert (Hin : ∀ f, f ∈ faces → f ∈ Reference.oriented_faces).
  { intros f Hf. eapply elem_of_sublist in Hf; [|apply dedup_by_sublist].
    apply list_elem_of_filter in Hf as [Hacc Hf]. by apply Horiented. }
  assert (Hkeys : sortedFace <$> faces ≡ₚ Reference.face_keys).
  { apply dedup_by_keys; [apply (bool_decide_unpack _); vm_compute; exact I|].
    intros k. split.
    - intros (f & -> & [Hacc Hf]%list_elem_of_filter)%list_elem_of_fmap.
      pose proof oriented_faces_keys as Hall. rewrite Forall_forall in Hall.
      by apply Hall, Horiented.
    - intros Hk. pose proof face_keys_found as Hall. rewrite Forall_forall in Hall.
      apply Hall, Exists_exists in Hk as (f & Hf & Hacc & Hacc' & <-).
      apply list_elem_of_fmap.
      destruct (traversal_reordering m_points reference_graph adjGraph f Hre) as [?|Hflip];
        [intros k s Hs; by destruct (reference_graph_sets k s Hs) | done | |].
      + exists f. split; [done|]. by apply list_elem_of_filter.
      + exists (flip f). split; [by rewrite sortedFace_flip|]. by apply list_elem_of_filter. }
  split; [done|].
  rewrite (buildHexahedra_reordering adjGraph reference_graph faces Hre'), buildHexahedra_eq.
  apply dedup_by_keys; [apply (bool_decide_unpack _); vm_compute; exact I|]. intros k. split.
  - intros (h & -> & [_ Hh]%list_elem_of_filter)%list_elem_of_fmap.
    apply elem_of_candidateHexahedra in Hh as (i & j & f1 & f2 & _ & Hi & Hj & Hh).
    pose proof oriented_pairs_keys as Hall. rewrite Forall_forall in Hall.
    specialize (Hall f1 (Hin _ (list_elem_of_lookup_2 _ _ _ Hi))).
    rewrite Forall_forall in Hall.
    specialize (Hall f2 (Hin _ (list_elem_of_lookup_2 _ _ _ Hj))).
    rewrite Forall_forall in Hall. by apply Hall.
  - intros ([[kb kt] hk] & -> & Hc)%list_elem_of_fmap. simpl.
    pose proof cells_found as Hall. rewrite Forall_forall in Hall.
    destruct (Hall _ Hc) as (Hb & Ht & Hne & Hpairs). simpl in Hb, Ht, Hne, Hpairs.
    rewrite <- Hkeys in Hb, Ht.
    apply list_elem_of_fmap in Hb as (fb & Hkb & Hfb).
    apply list_elem_of_fmap in Ht as (ft & Hkt & Hft).
    rewrite Forall_forall in Hpairs. specialize (Hpairs fb (Hin _ Hfb)).
    rewrite Forall_forall in Hpairs.
    destruct (Hpairs ft (Hin _ Hft)) as [Hup Hdown]; [done..|].
    apply Exists_exists in Hup as (h1 & Hh1 & Hk1).
    apply Exists_exists in Hdown as (h2 & Hh2 & Hk2).
    apply list_elem_of_lookup in Hfb as [i Hi]. apply list_elem_of_lookup in Hft as [j Hj].
    assert (Hcand : ∃ h, h ∈ candidateHexahedra reference_graph faces ∧ sortedHex h = hk).
    { destruct (lt_eq_lt_dec i j) as [[Hlt|Heq]|Hgt].
      - exists h1. split; [|done]. by eapply (candidateHexahedra_pair _ _ i j).
      - subst j. rewrite Hi in Hj. injection Hj as <-. congruence.
      - exists h2. split; [|done]. by eapply (candidateHexahedra_pair _ _ j i). }
    destruct Hcand as (h & Hh & <-). apply list_elem_of_fmap. exists h. split; [done|].
    apply list_elem_of_filter. split; [by eapply candidate_eight_distinct | done].
Qed.

(** C3, as stated: on the reference layout the three stages do not yield
    exactly 2 hexahedra (together with at least 11 faces), in whatever order
    the adjacency sets are iterated. *)
Lemma C3_two_hexahedra_refuted :
  ¬ ∃ adjGraph faces,
      reordering (buildAdjacencyGraph m_points) adjGraph
      ∧ findValidFaces m_points adjGraph = Some faces
      ∧ length (buildHexahedra faces adjGraph) = 2%nat ∧ (11 ≤ length faces)%nat.
Proof.
  intros (adjGraph & faces & Hre & Hfaces & Hlen & _).
  destruct (reference_layout_any_order adjGraph Hre) as (faces' & Hfaces' & _ & Hhex).
  rewrite Hfaces in Hfaces'. injection Hfaces' as <-.
  apply Permutation_length in Hhex. rewrite length_fmap, Hlen in Hhex. discriminate Hhex.
Qed.

(** C3, amended. The reference layout has four layers of four points, that
    is three stacked cells, the first point being at [x = -0.2]. In whatever
    order the adjacency sets of the graph that [buildAdjacencyGraph] returns
    are iterated, [findValidFaces] returns 15 faces (hence at least 11), with
    the same 15 vertex sets, and [buildHexahedra] returns exactly 3 hexahedra
    from them, one per cell. The order of the vertices within a face or a
    hexahedron depends on the iteration order and is not fixed here. *)
Theorem C3_reference_layout (adjGraph : AdjacencyGraph) :
  reordering (buildAdjacencyGraph m_points) adjGraph →
  length m_points = 16%nat
  ∧ required_neighbors <$> m_points = [3; 3; 3; 3; 4; 4; 4; 4; 4; 4; 4; 4; 3; 3; 3; 3]
  ∧ ∃ faces,
      findValidFaces m_points adjGraph = Some faces
      ∧ length faces = 15%nat ∧ (11 ≤ length faces)%nat
      ∧ sortedFace <$> faces ≡ₚ Reference.face_keys
      ∧ length (buildHexahedra faces adjGraph) = 3%nat
      ∧ sortedHex <$> buildHexahedra faces adjGraph
        ≡ₚ [ [0; 1; 2; 3; 4; 5; 6; 7]; [4; 5; 6; 7; 8; 9; 10; 11];
             [8; 9; 10; 11; 12; 13; 14; 15] ].
Proof.
  intros (faces & Hfaces & Hkeys & Hhex)%reference_layout_any_order.
  split; [reflexivity|]. split; [reflexivity|]. exists faces.
  pose proof (Permutation_length Hkeys) as Hlen. rewrite length_fmap in Hlen.
  pose proof (Permutation_length Hhex) as Hlen'. rewrite length_fmap in Hlen'.
  simpl in Hlen, Hlen'. split; [done|]. split; [done|]. split; [lia|].
  split; [done|]. split; [done|]. exact Hhex.
Qed.

(** One such order: every set iterated in the reverse of the order of
    insertion, as libstdc++ does for small sets of integers. *)
Lemma C3_reference_layout_witness :
  reordering (buildAdjacencyGraph m_points) (reverse <$> buildAdjacencyGraph m_points)
  ∧ ∃ faces,
      findValidFaces m_points (reverse <$> buildAdjacencyGraph m_points) = Some faces
      ∧ length faces = 15%nat ∧ (11 ≤ length faces)%nat
      ∧ sortedFace <$> faces ≡ₚ Reference.face_keys
      ∧ length (buildHexahedra faces (reverse <$> buildAdjacencyGraph m_points)) = 3%nat
      ∧ sortedHex <$> buildHexahedra faces (reverse <$> buildAdjacencyGraph m_points)
        ≡ₚ [ [0; 1; 2; 3; 4; 5; 6; 7]; [4; 5; 6; 7; 8; 9; 10; 11];
             [8; 9; 10; 11; 12; 13; 14; 15] ].
Proof.
  assert (H : reordering (buildAdjacencyGraph m_points)
                (reverse <$> buildAdjacencyGraph m_points)) by apply reordering_reverse.
  split; [exact H|].
  exact (proj2 (proj2 (C3_reference_layout (reverse <$> buildAdjacencyGraph m_points) H))).
Defined.

Lemma C1_hexahedron_validity_witness :
  mkHex 0 3 2 1 4 7 6 5 ∈ buildHexahedra reference_faces reference_graph
  ∧ ∃ (i j : nat) (face1 face2 : QuadFace),
      (i < j)%nat ∧ reference_faces !! i = Some face1 ∧ reference_faces !! j = Some face2
      ∧ decomposes reference_graph face1 face2 (mkHex 0 3 2 1 4 7 6 5).
Proof.
  assert (Hin : mkHex 0 3 2 1 4 7 6 5 ∈ buildHexahedra reference_faces reference_graph).
  { rewrite reference_hexahedra_eq. left. }
  split; [exact Hin|].
  exact (C1_hexahedron_validity reference_faces reference_graph _ Hin).
Defined.

Lemma C5_face_uniqueness_witness :
  findValidFaces m_points reference_graph = Some reference_faces
  ∧ NoDup (sortedFace <$> reference_faces)
  ∧ mkQuad 0 3 2 1 ∈ reference_faces
  ∧ face_pts (mkQuad 0 3 2 1) ≠ sortedFace (mkQuad 0 3 2 1).
Proof.
  split; [apply reference_faces_eq|].
  split; [apply (C5_face_uniqueness m_points reference_graph), reference_faces_eq|].
  split; [left | discriminate].
Defined.
End reference_layout.

(** ** The two small scenarios *)

Section scenarios.
Import ReconstructionEngine.

(** An empty point set gives an empty graph, no face and no hexahedron. *)
Lemma empty_point_set :
  buildAdjacencyGraph [] = ∅
  ∧ findValidFaces [] ∅ = Some []
  ∧ buildHexahedra [] ∅ = [].
Proof. repeat split. Qed.

(** Three points asking for two neighbours each are all connected, and give
    no face and no hexahedron. *)
Lemma three_points_scenario :
  buildAdjacencyGraph Samples.three_points
  = list_to_map [(0, [1; 2]); (1, [0; 2]); (2, [0; 1])]
  ∧ findValidFaces Samples.three_points (buildAdjacencyGraph Samples.three_points) = Some []
  ∧ buildHexahedra [] (buildAdjacencyGraph Samples.three_points) = [].
Proof. repeat split; vm_compute; reflexivity. Qed.
End scenarios.

(** ** Further properties of the engine *)

Section engine_properties.
Import ReconstructionEngine.

(** When a point asks for at least [n - 1] neighbours, its neighbour set is
    the set of all the other points. *)
Theorem clamped_count_selects_all (points : list MeshPoint) (i : nat) (pi : MeshPoint) :
  points !! i = Some pi →
  Z.of_nat (length points) - 1 ≤ required_neighbors pi →
  ∃ s, buildAdjacencyGraph points !! Z.of_nat i = Some s
       ∧ ∀ x, x ∈ s ↔ 0 ≤ x < Z.of_nat (length points) ∧ x ≠ Z.of_nat i.
Proof.
  intros Hi Hreq. exists (neighbors_of points i pi).
  rewrite buildAdjacencyGraph_lookup, decide_True by lia.
  rewrite Nat2Z.id, Hi. split; [done|]. intros x.
  rewrite neighbors_of_eq, take_ge, sorted_distances_snd, elem_of_others; [lia|].
  rewrite <- (length_fmap snd), sorted_distances_snd.
  pose proof (length_others i 0 (length points)) as Hlen.
  apply lookup_lt_Some in Hi. lia.
Qed.

Lemma clamped_count_selects_all_witness :
  Samples.odd_counts !! 0%nat = Some (Samples.pt 0 0 0 7)
  ∧ 3 - 1 ≤ 7
  ∧ ∃ s, buildAdjacencyGraph Samples.odd_counts !! 0 = Some s
         ∧ ∀ x, x ∈ s ↔ 0 ≤ x < 3 ∧ x ≠ 0.
Proof.
  split; [reflexivity|]. split; [lia|].
  apply (clamped_count_selects_all Samples.odd_counts 0 (Samples.pt 0 0 0 7)).
  - reflexivity.
  - simpl. lia.
Defined.

(** The guard of [arePointsCoplanar] is evaluated before any point is read:
    an index at or above the size gives [false] whatever the other indices
    are; below the size, the result is defined exactly when no index is
    negative. *)
Theorem arePointsCoplanar_bounds (points : list MeshPoint) (face : QuadFace)
    (tolerance : spec_float) :
  (Exists (λ x, Z.of_nat (length points) ≤ x) (face_pts face) →
   arePointsCoplanar points face tolerance = Some false)
  ∧ (Forall (λ x, x < Z.of_nat (length points)) (face_pts face) →
     is_Some (arePointsCoplanar points face tolerance)
     ↔ Forall (λ x, 0 ≤ x) (face_pts face)).
Proof.
  split; [apply arePointsCoplanar_above | apply arePointsCoplanar_below].
Qed.

(** [findValidFaces] reads no point outside the sequence, and so returns,
    whenever no adjacency set holds a negative index; this is the case of
    every graph built by [buildAdjacencyGraph]. *)
Theorem findValidFaces_defined (points : list MeshPoint) :
  (∀ adjGraph : AdjacencyGraph,
     (∀ k s x, adjGraph !! k = Some s → x ∈ s → 0 ≤ x) →
     is_Some (findValidFaces points adjGraph))
  ∧ is_Some (findValidFaces points (buildAdjacencyGraph points)).
Proof.
  split; [apply findValidFaces_is_Some | apply findValidFaces_after_build].
Qed.

(** A graph without an entry for any point index gives no face. *)
Theorem findValidFaces_no_entry (points : list MeshPoint) (adjGraph : AdjacencyGraph) :
  (∀ k, 0 ≤ k < Z.of_nat (length points) → adjGraph !! k = None) →
  findValidFaces points adjGraph = Some [].
Proof.
  intros Hnone. unfold findValidFaces.
  assert (Hloop : ∀ todo p0_idx st,
            0 ≤ p0_idx → p0_idx + Z.of_nat todo ≤ Z.of_nat (length points) →
            p0_loop points adjGraph p0_idx todo st = Some st).
  { induction todo as [|todo IH]; intros p0_idx st H0 Hle; [done|].
    simpl. rewrite Hnone by lia. simpl. apply IH; lia. }
  rewrite Hloop by lia. done.
Qed.

Lemma findValidFaces_no_entry_witness :
  (∀ k, 0 ≤ k < 3 → (∅ : AdjacencyGraph) !! k = None)
  ∧ findValidFaces Samples.three_points ∅ = Some [].
Proof.
  assert (H : ∀ k, 0 ≤ k < Z.of_nat (length Samples.three_points)
                   → (∅ : AdjacencyGraph) !! k = None) by (intros; apply lookup_empty).
  split; [exact H|]. exact (findValidFaces_no_entry Samples.three_points ∅ H).
Defined.

(** Every face that is returned is a 4-cycle of the graph from its first
    vertex: [p1] and [p3] are in the set of [p0], [p2] is in the sets of [p1]
    and of [p3] and differs from [p0]; and its four indices are indices of
    points. *)
Theorem returned_face_is_cycle (points : list MeshPoint) (adjGraph : AdjacencyGraph)
    (faces : list QuadFace) (f : QuadFace) :
  findValidFaces points adjGraph = Some faces →
  f ∈ faces →
  four_cycle (Z.of_nat (length points)) adjGraph f
  ∧ Forall (λ x, 0 ≤ x < Z.of_nat (length points)) (face_pts f).
Proof.
  intros Hfaces Hf. split; [|by eapply returned_faces_in_range].
  apply findValidFaces_Some in Hfaces as (_ & ->).
  eapply elem_of_sublist in Hf; [|apply dedup_by_sublist].
  apply list_elem_of_filter in Hf as [_ Hf]. by apply traversal_four_cycle.
Qed.

Lemma returned_face_is_cycle_witness :
  findValidFaces MainWindow.m_points MainWindow.reference_graph
  = Some MainWindow.reference_faces
  ∧ mkQuad 0 3 2 1 ∈ MainWindow.reference_faces
  ∧ four_cycle 16 MainWindow.reference_graph (mkQuad 0 3 2 1)
  ∧ Forall (λ x, 0 ≤ x < 16) (face_pts (mkQuad 0 3 2 1)).
Proof.
  assert (Hin : mkQuad 0 3 2 1 ∈ MainWindow.reference_faces) by left.
  split; [apply reference_faces_eq|]. split; [exact Hin|].
  exact (returned_face_is_cycle _ _ _ _ reference_faces_eq Hin).
Defined.

(** No accepted vertex set is lost: every candidate of the traversal that
    passes the two geometric tests has its four vertices, in some order, among
    the faces that are returned. *)
Theorem accepted_candidate_kept (points : list MeshPoint) (adjGraph : AdjacencyGraph)
    (faces : list QuadFace) (f : QuadFace) :
  findValidFaces points adjGraph = Some faces →
  f ∈ traversal points adjGraph → accepted points f →
  ∃ kept, kept ∈ faces ∧ face_pts kept ≡ₚ face_pts f.
Proof.
  intros (_ & ->)%findValidFaces_Some Hf Hacc.
  destruct (dedup_by_complete sortedFace ∅
              (filter (accepted points) (traversal points adjGraph)) f)
    as (kept & Hkept & Hkey).
  - by apply list_elem_of_filter.
  - apply not_elem_of_empty.
  - exists kept. split; [done|]. by apply sort_int_Permutation.
Qed.

Lemma accepted_candidate_kept_witness :
  findValidFaces Samples.square_points Samples.loop_graph = Some [mkQuad 0 1 2 3]
  ∧ mkQuad 1 2 3 0 ∈ traversal Samples.square_points Samples.loop_graph
  ∧ accepted Samples.square_points (mkQuad 1 2 3 0)
  ∧ ∃ kept, kept ∈ [mkQuad 0 1 2 3] ∧ face_pts kept ≡ₚ face_pts (mkQuad 1 2 3 0).
Proof.
  assert (Hf : findValidFaces Samples.square_points Samples.loop_graph
               = Some [mkQuad 0 1 2 3]) by (vm_compute; reflexivity).
  assert (Hin : mkQuad 1 2 3 0 ∈ traversal Samples.square_points Samples.loop_graph).
  { apply (bool_decide_unpack _). vm_compute. exact I. }
  assert (Hacc : accepted Samples.square_points (mkQuad 1 2 3 0)).
  { apply (bool_decide_unpack _). vm_compute. exact I. }
  split; [exact Hf|]. split; [exact Hin|]. split; [exact Hacc|].
  exact (accepted_candidate_kept _ _ _ _ Hf Hin Hacc).
Defined.

(** The stages compose: every hexahedron built from the faces that
    [findValidFaces] returned has eight indices of points. *)
Theorem pipeline_hexahedra_in_range (points : list MeshPoint) (adjGraph : AdjacencyGraph)
    (faces : list QuadFace) (hex : Hexahedron) :
  findValidFaces points adjGraph = Some faces →
  hex ∈ buildHexahedra faces adjGraph →
  Forall (λ x, 0 ≤ x < Z.of_nat (length points)) (hex_pts hex).
Proof.
  intros Hfaces Hhex%elem_of_buildHexahedra.
  apply elem_of_candidateHexahedra in Hhex as (i & j & f1 & f2 & _ & Hi & Hj & Hin).
  apply pair_candidate_inv in Hin as (_ & _ & Hf1 & Hf2 & _).
  pose proof (returned_faces_in_range _ _ _ Hfaces f1 (list_elem_of_lookup_2 _ _ _ Hi)) as R1.
  pose proof (returned_faces_in_range _ _ _ Hfaces f2 (list_elem_of_lookup_2 _ _ _ Hj)) as R2.
  change (hex_pts hex) with ([h0 hex; h1 hex; h2 hex; h3 hex] ++ [h4 hex; h5 hex; h6 hex; h7 hex]).
  apply Forall_app. rewrite Hf1, Hf2. done.
Qed.

Lemma pipeline_hexahedra_in_range_witness :
  findValidFaces MainWindow.m_points MainWindow.reference_graph
  = Some MainWindow.reference_faces
  ∧ mkHex 4 5 6 7 8 9 10 11
    ∈ buildHexahedra MainWindow.reference_faces MainWindow.reference_graph
  ∧ Forall (λ x, 0 ≤ x < 16) (hex_pts (mkHex 4 5 6 7 8 9 10 11)).
Proof.
  assert (Hin : mkHex 4 5 6 7 8 9 10 11
                ∈ buildHexahedra MainWindow.reference_faces MainWindow.reference_graph).
  { rewrite reference_hexahedra_eq. right. left. }
  split; [apply reference_faces_eq|]. split; [exact Hin|].
  exact (pipeline_hexahedra_in_range _ _ _ _ reference_faces_eq Hin).
Defined.

(** Without an entry of the graph for a vertex of a face, no edge leaves the
    face: faces none of whose vertices is a key of the graph give no
    hexahedron. *)
Theorem buildHexahedra_no_entry (validFaces : list QuadFace) (adjGraph : AdjacencyGraph) :
  (∀ f x, f ∈ validFaces → x ∈ face_pts f → adjGraph !! x = None) →
  buildHexahedra validFaces adjGraph = [].
Proof.
  intros Hnone. rewrite buildHexahedra_eq.
  assert (Hc : candidateHexahedra adjGraph validFaces = []); [|by rewrite Hc].
  destruct (candidateHexahedra adjGraph validFaces) as [|hex l] eqn:Hl; [done|].
  exfalso. assert (Hin : hex ∈ candidateHexahedra adjGraph validFaces) by (rewrite Hl; left).
  apply elem_of_candidateHexahedra in Hin as (i & j & f1 & f2 & _ & Hi & _ & Hin).
  apply pair_candidate_inv in Hin as (_ & Hedges & _).
  assert (He : (h0 hex, h4 hex) ∈ connecting_edges adjGraph f1 f2) by (rewrite Hedges; left).
  apply elem_of_connecting_edges in He as (H1 & _ & s & Hs & _).
  rewrite (Hnone f1 (h0 hex)) in Hs; [done | by eapply list_elem_of_lookup_2 | done].
Qed.

Lemma buildHexahedra_no_entry_witness :
  (∀ f x, f ∈ [Samples.lower_face; Samples.upper_face] → x ∈ face_pts f →
          (∅ : AdjacencyGraph) !! x = None)
  ∧ buildHexahedra [Samples.lower_face; Samples.upper_face] ∅ = [].
Proof.
  assert (H : ∀ f x, f ∈ [Samples.lower_face; Samples.upper_face] → x ∈ face_pts f →
                     (∅ : AdjacencyGraph) !! x = None) by (intros; apply lookup_empty).
  split; [exact H|]. exact (buildHexahedra_no_entry _ _ H).
Defined.
End engine_properties.

(** ** The neighbours are the nearest points *)

Section sort_by_strict_order.
Context {A : Type} (R S : relation A) `{!∀ x y, Decision (R x y)}.
Hypothesis R_S : ∀ x y, R x y → S x y.
Hypothesis not_R_S : ∀ x y, ¬ R x y → S y x.

Lemma HdRel_list_merge_by x l1 l2 :
  HdRel S x l1 → HdRel S x l2 → HdRel S x (list_merge R l1 l2).
Proof.
  intros [|x1 l1' H1] [|x2 l2' H2]; rewrite ?list_merge_cons; simpl;
    try case_decide; by constructor.
Qed.

Lemma Sorted_list_merge_by l1 l2 :
  Sorted S l1 → Sorted S l2 → Sorted S (list_merge R l1 l2).
Proof.
  intros Hl1. revert l2. induction Hl1 as [|x1 l1 Hs1 IH1 Hd1]; intros l2 Hl2.
  { by rewrite list_merge_nil_l. }
  induction Hl2 as [|x2 l2 Hs2 IH2 Hd2]; [by constructor|].
  rewrite list_merge_cons. case_decide as HR.
  - constructor; [apply IH1; by constructor|].
    apply HdRel_list_merge_by; [done|]. constructor. by apply R_S.
  - constructor; [exact IH2|].
    apply HdRel_list_merge_by; [|done]. constructor. by apply not_R_S.
Qed.

Lemma Sorted_merge_list_to_stack_by st l :
  merge_stack_Sorted S st → Sorted S l →
  merge_stack_Sorted S (merge_list_to_stack R st l).
Proof.
  intros Hst. revert l. induction Hst as [|st Hst IH|l' st Hl' Hst IH]; intros l Hl; simpl.
  - by repeat constructor.
  - by constructor.
  - constructor. apply IH. by apply Sorted_list_merge_by.
Qed.

Lemma Sorted_merge_stack_by st : merge_stack_Sorted S st → Sorted S (merge_stack R st).
Proof.
  induction 1; simpl; [constructor | done | by apply Sorted_list_merge_by].
Qed.

Lemma Sorted_merge_sort_aux_by st l :
  merge_stack_Sorted S st → Sorted S (merge_sort_aux R st l).
Proof.
  revert st. induction l as [|x l IH]; intros st Hst; simpl.
  - by apply Sorted_merge_stack_by.
  - apply IH, Sorted_merge_list_to_stack_by; [done|]. by repeat constructor.
Qed.

(** Merging with the strict comparison [R] sorts for [S]. *)
Lemma Sorted_merge_sort_by l : Sorted S (merge_sort R l).
Proof. apply Sorted_merge_sort_aux_by. constructor. Qed.

(** Where [S] is transitive on the elements of the list, every element is
    related to all those after it. *)
Lemma Sorted_StronglySorted_on (P : A → Prop) l :
  (∀ x y z, P x → P y → P z → S x y → S y z → S x z) →
  Forall P l → Sorted S l → StronglySorted S l.
Proof.
  intros Htrans HP Hl. induction Hl as [|x l Hl IH Hd]; [constructor|].
  apply Forall_cons in HP as [Hx HP]. specialize (IH HP).
  constructor; [done|]. destruct Hd as [|y l' Hxy]; [constructor|].
  apply StronglySorted_cons in IH as [Hall IH]. apply Forall_cons in HP as [Hy HP].
  constructor; [done|]. rewrite Forall_forall in Hall, HP |- *.
  intros z Hz. eapply (Htrans x y z); eauto.
Qed.
End sort_by_strict_order.

Section nearest.
Import ReconstructionEngine.

(** The comparison of pairs through the order keys. *)
Lemma pair_lt_key (x y : spec_float * Z) :
  ¬ is_nan x.1 → ¬ is_nan y.1 →
  pair_lt x y ↔
    key_lt (order_key x.1) (order_key y.1)
    ∨ (¬ key_lt (order_key y.1) (order_key x.1) ∧ x.2 < y.2).
Proof.
  intros Hx Hy. unfold pair_lt, pair_ltb, F32.ltb.
  rewrite orb_true_iff, andb_true_iff, negb_true_iff, Z.ltb_lt.
  rewrite SFltb_key. split.
  - intros [(_ & _ & Hk)|[Hn Hlt]]; [by left|]. right. split; [|done].
    by apply SFltb_false_key.
  - intros [Hk|[Hn Hlt]]; [by left|]. right. split; [|done].
    destruct (SFltb y.1 x.1) eqn:Hyx; [|done].
    apply SFltb_key in Hyx as (_ & _ & Hk). done.
Qed.

Lemma not_pair_lt_trans (x y z : spec_float * Z) :
  ¬ is_nan x.1 → ¬ is_nan y.1 → ¬ is_nan z.1 →
  ¬ pair_lt y x → ¬ pair_lt z y → ¬ pair_lt z x.
Proof.
  intros Hx Hy Hz. rewrite !pair_lt_key by done. unfold key_lt.
  destruct (order_key x.1) as [[a1 b1] c1], (order_key y.1) as [[a2 b2] c2],
    (order_key z.1) as [[a3 b3] c3]. simpl. lia.
Qed.

Lemma pair_lt_total (x y : spec_float * Z) :
  ¬ is_nan x.1 → ¬ is_nan y.1 → x.2 ≠ y.2 → ¬ pair_lt y x → pair_lt x y.
Proof.
  intros Hx Hy. rewrite !pair_lt_key by done. unfold key_lt.
  destruct (order_key x.1) as [[a1 b1] c1], (order_key y.1) as [[a2 b2] c2]. simpl. lia.
Qed.

Lemma pair_lt_asym (x y : spec_float * Z) : pair_lt x y → ¬ pair_lt y x.
Proof.
  unfold pair_lt, pair_ltb.
  rewrite !orb_true_iff, !andb_true_iff, !negb_true_iff, !Z.ltb_lt.
  intros [Hxy|[Hyx Hlt]] [Hyx'|[Hxy' Hlt']]; try congruence; try lia.
  assert (F32.ltb x.1 x.1 = true) by (eapply SFltb_trans; eauto).
  unfold F32.ltb in *. rewrite SFltb_irrefl in *. done.
Qed.

(** The entries pushed by the inner loop of step 1. *)
Lemma elem_of_distances_loop pi i j rest acc (x : spec_float * Z) :
  x ∈ distances_loop pi i j rest acc
  ↔ x ∈ acc
    ∨ ∃ (k : nat) pj, rest !! k = Some pj ∧ (j + k)%nat ≠ i
        ∧ x = (QVector3D.distanceToPoint (pos pi) (pos pj), Z.of_nat (j + k)).
Proof.
  revert j acc. induction rest as [|p rest IH]; intros j acc; simpl.
  - split; [by left|]. intros [?|(k & pj & Hk & _)]; [done|]. by destruct k.
  - rewrite IH. split.
    + intros [Hx|(k & pj & Hk & Hne & ->)].
      * destruct (decide (i = j)) as [->|Hij]; [by left|].
        apply elem_of_app in Hx as [Hx|Hx]; [by left|].
        apply list_elem_of_singleton in Hx as ->. right.
        exists 0%nat, p. rewrite Nat.add_0_r. split; [done|]. split; [congruence | done].
      * right. exists (S k), pj. replace (j + S k)%nat with (S j + k)%nat by lia. done.
    + intros [Hx|(k & pj & Hk & Hne & ->)].
      * left. destruct (decide (i = j)); [done|]. apply elem_of_app. by left.
      * destruct k as [|k]; simpl in Hk.
        -- injection Hk as ->. rewrite Nat.add_0_r in *. left.
           rewrite decide_False by congruence. apply elem_of_app. right.
           by apply list_elem_of_singleton.
        -- right. exists k, pj. replace (S j + k)%nat with (j + S k)%nat by lia. done.
Qed.

Lemma elem_of_sorted_distances points i pi (x : spec_float * Z) :
  x ∈ sort_distances (distances_loop pi i 0 points [])
  ↔ ∃ (j : nat) pj, points !! j = Some pj ∧ j ≠ i
      ∧ x = (QVector3D.distanceToPoint (pos pi) (pos pj), Z.of_nat j).
Proof.
  unfold sort_distances. rewrite merge_sort_Permutation, elem_of_distances_loop.
  split.
  - intros [?%elem_of_nil|(k & pj & ? & ? & ->)]; [done|]. by exists k, pj.
  - intros (j & pj & ? & ? & ->). right. by exists j, pj.
Qed.

(** C++ [std::sort] with [operator<] of pairs: the sorted sequence. *)
Lemma sorted_distances_StronglySorted points i pi :
  (∀ pj, pj ∈ points → ¬ is_nan (QVector3D.distanceToPoint (pos pi) (pos pj))) →
  StronglySorted (λ x y, ¬ pair_lt y x) (sort_distances (distances_loop pi i 0 points [])).
Proof.
  intros Hnan.
  apply (Sorted_StronglySorted_on _ (λ x, ¬ is_nan x.1)).
  - intros x y z Hx Hy Hz. by apply not_pair_lt_trans.
  - apply Forall_forall. intros x (j & pj & Hj & _ & ->)%elem_of_sorted_distances.
    simpl. eapply Hnan, list_elem_of_lookup_2, Hj.
  - apply (Sorted_merge_sort_by pair_lt); [apply pair_lt_asym | done].
Qed.

(** The neighbours chosen for a point are its nearest points: a point that
    is chosen comes before every other point that is not chosen in the
    order of [(distance, index)] pairs, that is, it is nearer, or as near and
    of lower index. Distances must be numbers for the comparison of
    [std::sort] to be an order. *)
Theorem neighbors_are_nearest (points : list MeshPoint) (i a b : nat)
    (pi pa pb : MeshPoint) (s : list Z) :
  points !! i = Some pi → points !! a = Some pa → points !! b = Some pb →
  (∀ pj, pj ∈ points → ¬ is_nan (QVector3D.distanceToPoint (pos pi) (pos pj))) →
  buildAdjacencyGraph points !! Z.of_nat i = Some s →
  Z.of_nat a ∈ s → Z.of_nat b ∉ s → b ≠ i →
  let da := QVector3D.distanceToPoint (pos pi) (pos pa) in
  let db := QVector3D.distanceToPoint (pos pi) (pos pb) in
  F32.ltb da db = true ∨ (F32.ltb db da = false ∧ (a < b)%nat).
Proof.
  intros Hi Ha Hb Hnan Hs Hin Hout Hbi da db.
  rewrite buildAdjacencyGraph_lookup, decide_True, Nat2Z.id, Hi in Hs by lia.
  injection Hs as <-.
  pose proof (elem_of_neighbors_of _ _ _ _ Hin) as [_ Hai].
  rewrite neighbors_of_eq in Hin, Hout.
  set (L := sort_distances (distances_loop pi i 0 points [])) in *.
  set (k := Z.to_nat (required_neighbors pi)) in *.
  pose proof (sorted_distances_StronglySorted points i pi Hnan) as Hsorted. fold L in Hsorted.
  rewrite <- (take_drop k L) in Hsorted.
  (* the entry of [a] is among the first [k], the entry of [b] is not *)
  assert (HaL : (da, Z.of_nat a) ∈ take k L).
  { apply list_elem_of_fmap in Hin as ([d' a'] & Heq & Hin'). simpl in Heq. subst a'.
    pose proof Hin' as Hin''. eapply elem_of_sublist in Hin''; [|apply sublist_take].
    apply elem_of_sorted_distances in Hin'' as (j & pj & Hj & _ & [= -> Hja]).
    apply Nat2Z.inj in Hja as <-. rewrite Ha in Hj. injection Hj as <-. exact Hin'. }
  assert (HbL : (db, Z.of_nat b) ∈ drop k L).
  { assert (Hb' : (db, Z.of_nat b) ∈ L) by (apply elem_of_sorted_distances; by exists b, pb).
    rewrite <- (take_drop k L) in Hb'. apply elem_of_app in Hb' as [Hb'|Hb']; [|done].
    exfalso. apply Hout. apply list_elem_of_fmap. by exists (db, Z.of_nat b). }
  pose proof (StronglySorted_app_1_elem_of _ _ _ _ _ Hsorted HaL HbL) as Hab.
  simpl in Hab. apply pair_lt_total in Hab.
  - unfold pair_lt, pair_ltb in Hab. simpl in Hab.
    apply orb_true_iff in Hab as [?|[Hn Hlt]%andb_true_iff]; [by left|].
    right. apply negb_true_iff in Hn. apply Z.ltb_lt in Hlt. split; [done | lia].
  - simpl. eapply Hnan, list_elem_of_lookup_2, Ha.
  - simpl. eapply Hnan, list_elem_of_lookup_2, Hb.
  - simpl. intros Heq%Nat2Z.inj. subst b. apply Hout.
    apply list_elem_of_fmap. by exists (da, Z.of_nat a).
Qed.

Lemma neighbors_are_nearest_witness :
  ∃ pi pa pb,
    MainWindow.m_points !! 0%nat = Some pi
    ∧ MainWindow.m_points !! 1%nat = Some pa
    ∧ MainWindow.m_points !! 2%nat = Some pb
    ∧ (∀ pj, pj ∈ MainWindow.m_points →
         ¬ is_nan (QVector3D.distanceToPoint (pos pi) (pos pj)))
    ∧ buildAdjacencyGraph MainWindow.m_points !! 0 = Some [3; 4; 1]
    ∧ 1 ∈ [3; 4; 1] ∧ (2 ∉ [3; 4; 1])
    ∧ (F32.ltb (QVector3D.distanceToPoint (pos pi) (pos pa))
               (QVector3D.distanceToPoint (pos pi) (pos pb)) = true
       ∨ (F32.ltb (QVector3D.distanceToPoint (pos pi) (pos pb))
                  (QVector3D.distanceToPoint (pos pi) (pos pa)) = false
          ∧ (1 < 2)%nat)).
Proof.
  eexists _, _, _.
  assert (Hnan : ∀ pj, pj ∈ MainWindow.m_points →
            ¬ is_nan (QVector3D.distanceToPoint
                        (pos (MainWindow.pt MainWindow.lit_m0_2 (F32.of_Z 0) (F32.of_Z 0) 3))
                        (pos pj))).
  { apply Forall_forall. repeat (constructor; [vm_compute; discriminate|]). constructor. }
  assert (Hs : buildAdjacencyGraph MainWindow.m_points !! 0 = Some [3; 4; 1]).
  { rewrite reference_graph_eq. reflexivity. }
  assert (Hin : 1 ∈ [3; 4; 1]) by (right; right; left).
  assert (Hout : 2 ∉ [3; 4; 1]).
  { intros H. apply (bool_decide_pack _) in H. vm_compute in H. exact H. }
  split; [reflexivity|]. split; [reflexivity|]. split; [reflexivity|].
  split; [exact Hnan|]. split; [exact Hs|]. split; [exact Hin|]. split; [exact Hout|].
  apply (neighbors_are_nearest MainWindow.m_points 0 1 2 _ _ _ [3; 4; 1]
           eq_refl eq_refl eq_refl Hnan Hs Hin Hout).
  lia.
Defined.
End nearest.

(** ** Further properties of the faces *)

Section faces_properties.
Import ReconstructionEngine.

Lemma sq_dist_pos (a a' b b' : MeshPoint) :
  pos a = pos a' → pos b = pos b' → sq_dist a b = sq_dist a' b'.
Proof. unfold sq_dist. by intros -> ->. Qed.

(** A face that passes the diagonal test has its four vertices at four
    different positions. *)
Lemma diagonals_ok_positions points f P0 P1 P2 P3 :
  points_valid points →
  vec_at points (q0 f) = Some P0 → vec_at points (q1 f) = Some P1 →
  vec_at points (q2 f) = Some P2 → vec_at points (q3 f) = Some P3 →
  diagonals_ok points f = Some true →
  NoDup [pos P0; pos P1; pos P2; pos P3].
Proof.
  intros Hv E0 E1 E2 E3 Hd.
  pose proof Hd as (P0' & P1' & P2' & P3' & E0' & E1' & E2' & E3' & H02 & H13)%diagonals_ok_inv.
  rewrite E0 in E0'. rewrite E1 in E1'. rewrite E2 in E2'. rewrite E3 in E3'.
  injection E0' as <-. injection E1' as <-. injection E2' as <-. injection E3' as <-.
  destruct (diagonals_ok_longest points f P0 P1 P2 P3 Hv E0 E1 E2 E3 _ H02)
    as (_ & _ & Hedge & Hself).
  set (r := F32.mul _ _) in *.
  assert (N01 : pos P0 ≠ pos P1).
  { intros Heq. rewrite (sq_dist_pos P0 P1 P2 P2 Heq eq_refl) in H02.
    rewrite (Hedge (sq_dist P1 P2)) in H02; [done | right; left]. }
  assert (N02 : pos P0 ≠ pos P2).
  { intros Heq. rewrite (sq_dist_pos P0 P0 P2 P0 eq_refl (eq_sym Heq)), Hself in H02. done. }
  assert (N03 : pos P0 ≠ pos P3).
  { intros Heq. rewrite (sq_dist_pos P1 P1 P3 P0 eq_refl (eq_sym Heq)) in H13.
    rewrite (sq_dist_swap P1 P0), (Hedge (sq_dist P0 P1)) in H13; [done | left]. }
  assert (N12 : pos P1 ≠ pos P2).
  { intros Heq. rewrite (sq_dist_pos P0 P0 P2 P1 eq_refl (eq_sym Heq)) in H02.
    rewrite (Hedge (sq_dist P0 P1)) in H02; [done | left]. }
  assert (N13 : pos P1 ≠ pos P3).
  { intros Heq. rewrite (sq_dist_pos P1 P1 P3 P1 eq_refl (eq_sym Heq)), Hself in H13. done. }
  assert (N23 : pos P2 ≠ pos P3).
  { intros Heq. rewrite (sq_dist_pos P1 P1 P3 P2 eq_refl (eq_sym Heq)) in H13.
    rewrite (Hedge (sq_dist P1 P2)) in H13; [done | right; left]. }
  rewrite !NoDup_cons, !elem_of_cons, !elem_of_nil.
  split; [tauto|]. split; [tauto|]. split; [tauto|]. split; [tauto | constructor].
Qed.

(** Numbers that [==] finds equal are the same number or two zeros. *)
Lemma SFeqb_true x y :
  SFeqb x y = true → x = y ∨ ∃ s s', x = S754_zero s ∧ y = S754_zero s'.
Proof.
  unfold SFeqb.
  destruct x as [sx|sx| |sx mx ex], y as [sy|sy| |sy my ey]; simpl; try done;
    try (by destruct sx, sy; (done || by left)).
  - intros _. right. by exists sx, sy.
  - destruct sx, sy; try done;
      destruct (Z.compare_spec ex ey) as [->|?|?]; simpl; try done;
      rewrite Pos.compare_cont_spec; simpl;
      destruct (Pos.compare_spec mx my) as [->|?|?]; simpl; try done; by left.
Qed.

Lemma SFeqb_sym x y : SFeqb x y = true → SFeqb y x = true.
Proof.
  intros H. destruct (SFeqb_true x y H) as [->|(s & s' & -> & ->)]; done.
Qed.

Lemma SFsub_same_abs x x' y :
  SFeqb x x' = true → SFabs (SFsub 24 128 x y) = SFabs (SFsub 24 128 x' y).
Proof.
  intros [->|(s & s' & -> & ->)]%SFeqb_true; [done|].
  destruct y as [sy|sy| |sy my ey]; simpl; try done. by destruct s, s', sy.
Qed.

Lemma same_position_sym a b : same_position a b → same_position b a.
Proof. intros (? & ? & ?). repeat split; by apply SFeqb_sym. Qed.

(** The distance to a point does not tell positions with equal coordinates
    apart. *)
Lemma sq_dist_same_position (a a' b : MeshPoint) :
  same_position (pos a) (pos a') → sq_dist a b = sq_dist a' b.
Proof.
  intros (Hx & Hy & Hz).
  unfold sq_dist, QVector3D.lengthSquared, QVector3D.minus, F32.mul, F32.sub. simpl.
  f_equal; [f_equal|]; by apply SFmul_square_abs, SFsub_same_abs.
Qed.

(** A face that passes the diagonal test has no two vertices with equal
    coordinates. *)
Lemma diagonals_ok_apart points f P0 P1 P2 P3 :
  points_valid points →
  vec_at points (q0 f) = Some P0 → vec_at points (q1 f) = Some P1 →
  vec_at points (q2 f) = Some P2 → vec_at points (q3 f) = Some P3 →
  diagonals_ok points f = Some true →
  ¬ same_position (pos P0) (pos P1) ∧ ¬ same_position (pos P0) (pos P2)
  ∧ ¬ same_position (pos P0) (pos P3) ∧ ¬ same_position (pos P1) (pos P2)
  ∧ ¬ same_position (pos P1) (pos P3) ∧ ¬ same_position (pos P2) (pos P3).
Proof.
  intros Hv E0 E1 E2 E3 Hd.
  pose proof Hd as (P0' & P1' & P2' & P3' & E0' & E1' & E2' & E3' & H02 & H13)%diagonals_ok_inv.
  rewrite E0 in E0'. rewrite E1 in E1'. rewrite E2 in E2'. rewrite E3 in E3'.
  injection E0' as <-. injection E1' as <-. injection E2' as <-. injection E3' as <-.
  destruct (diagonals_ok_longest points f P0 P1 P2 P3 Hv E0 E1 E2 E3 _ H02)
    as (_ & _ & Hedge & Hself).
  set (r := F32.mul _ _) in *.
  split_and!.
  - intros Heq. rewrite (sq_dist_same_position P0 P1 P2 Heq) in H02.
    rewrite (Hedge (sq_dist P1 P2)) in H02; [done | right; left].
  - intros Heq. rewrite (sq_dist_same_position P0 P2 P2 Heq), Hself in H02. done.
  - intros Heq%same_position_sym.
    rewrite (sq_dist_swap P1 P3), (sq_dist_same_position P3 P0 P1 Heq) in H13.
    rewrite (Hedge (sq_dist P0 P1)) in H13; [done | left].
  - intros Heq%same_position_sym.
    rewrite (sq_dist_swap P0 P2), (sq_dist_same_position P2 P1 P0 Heq) in H02.
    rewrite (sq_dist_swap P1 P0), (Hedge (sq_dist P0 P1)) in H02; [done | left].
  - intros Heq. rewrite (sq_dist_same_position P1 P3 P3 Heq), Hself in H13. done.
  - intros Heq%same_position_sym.
    rewrite (sq_dist_swap P1 P3), (sq_dist_same_position P3 P2 P1 Heq) in H13.
    rewrite (sq_dist_swap P2 P1), (Hedge (sq_dist P1 P2)) in H13; [done | right; left].
Qed.

(** No face that is returned has two vertices at the same position: not the
    same point twice, and not two points whose coordinates are equal as
    numbers, the two zeros being equal. *)
Theorem returned_face_positions_distinct (points : list MeshPoint)
    (adjGraph : AdjacencyGraph) (faces : list QuadFace) (f : QuadFace) :
  points_valid points →
  findValidFaces points adjGraph = Some faces →
  f ∈ faces →
  ∃ P0 P1 P2 P3,
    vec_at points (q0 f) = Some P0 ∧ vec_at points (q1 f) = Some P1
    ∧ vec_at points (q2 f) = Some P2 ∧ vec_at points (q3 f) = Some P3
    ∧ NoDup [pos P0; pos P1; pos P2; pos P3]
    ∧ ∀ (i j : nat) (a b : MeshPoint),
        [P0; P1; P2; P3] !! i = Some a → [P0; P1; P2; P3] !! j = Some b → i ≠ j →
        ¬ same_position (pos a) (pos b).
Proof.
  intros Hv (_ & ->)%findValidFaces_Some Hf.
  eapply elem_of_sublist in Hf; [|apply dedup_by_sublist].
  apply list_elem_of_filter in Hf as [Hacc _].
  unfold accepted, face_accepted in Hacc.
  destruct (arePointsCoplanar points f F32.lit_1e_3) as [[|]|]; simpl in Hacc; [|done..].
  pose proof Hacc as (P0 & P1 & P2 & P3 & E0 & E1 & E2 & E3 & _)%diagonals_ok_inv.
  exists P0, P1, P2, P3. repeat (split; [done|]).
  split; [by eapply diagonals_ok_positions|].
  destruct (diagonals_ok_apart points f P0 P1 P2 P3 Hv E0 E1 E2 E3 Hacc)
    as (N01 & N02 & N03 & N12 & N13 & N23).
  intros i j a b Hi Hj Hij Hsame. pose proof (same_position_sym _ _ Hsame) as Hsame'.
  destruct i as [|[|[|[|i]]]], j as [|[|[|[|j]]]]; simpl in Hi, Hj; try done;
    injection Hi as <-; injection Hj as <-; tauto.
Qed.

Lemma returned_face_positions_distinct_witness :
  points_valid Samples.mirrored_corner
  ∧ findValidFaces Samples.mirrored_corner Samples.doubled_graph
    = Some [mkQuad 0 1 2 3; mkQuad 4 1 2 3]
  ∧ mkQuad 0 1 4 3 ∈ traversal Samples.mirrored_corner Samples.doubled_graph
  ∧ ∃ P0 P1 P2 P3,
      vec_at Samples.mirrored_corner 4 = Some P0 ∧ vec_at Samples.mirrored_corner 1 = Some P1
      ∧ vec_at Samples.mirrored_corner 2 = Some P2 ∧ vec_at Samples.mirrored_corner 3 = Some P3
      ∧ NoDup [pos P0; pos P1; pos P2; pos P3]
      ∧ ∀ (i j : nat) (a b : MeshPoint),
          [P0; P1; P2; P3] !! i = Some a → [P0; P1; P2; P3] !! j = Some b → i ≠ j →
          ¬ same_position (pos a) (pos b).
Proof.
  assert (Hv : points_valid Samples.mirrored_corner) by (repeat constructor).
  assert (Hf : findValidFaces Samples.mirrored_corner Samples.doubled_graph
               = Some [mkQuad 0 1 2 3; mkQuad 4 1 2 3]) by (vm_compute; reflexivity).
  split; [exact Hv|]. split; [exact Hf|]. split.
  - apply (bool_decide_unpack _). vm_compute. exact I.
  - apply (returned_face_positions_distinct _ _ _ (mkQuad 4 1 2 3) Hv Hf). right. left.
Defined.

(** *** The order of the faces *)

Lemma StronglySorted_sublist {A : Type} (R : relation A) (l1 l2 : list A) :
  l1 `sublist_of` l2 → StronglySorted R l2 → StronglySorted R l1.
Proof.
  induction 1 as [|x l1 l2 Hsub IH|x l1 l2 Hsub IH]; intros Hs; [done|..].
  - apply StronglySorted_cons in Hs as [Hall Hs]. apply StronglySorted_cons.
    split; [|by apply IH]. rewrite Forall_forall in Hall |- *.
    intros y Hy. apply Hall. by eapply elem_of_sublist.
  - apply StronglySorted_cons in Hs as [_ Hs]. by apply IH.
Qed.

Lemma i_candidates_first adjGraph p0 neighbors f :
  f ∈ i_candidates adjGraph p0 neighbors → q0 f = p0.
Proof. by intros (p1 & p2 & p3 & -> & _)%elem_of_i_candidates. Qed.

Lemma p0_candidates_sorted adjGraph p0_idx todo :
  0 ≤ p0_idx →
  StronglySorted (λ f f', q0 f ≤ q0 f') (p0_candidates adjGraph p0_idx todo).
Proof.
  revert p0_idx. induction todo as [|todo IH]; intros p0_idx Hpos; simpl; [constructor|].
  apply StronglySorted_app_2.
  - intros f f' Hf Hf'.
    destruct (adjGraph !! p0_idx) as [neighbors|]; [|by apply elem_of_nil in Hf].
    apply i_candidates_first in Hf. apply elem_of_p0_candidates in Hf' as [_ Hle]; lia.
  - destruct (adjGraph !! p0_idx) as [neighbors|]; [|constructor].
    assert (Hall : ∀ f, f ∈ i_candidates adjGraph p0_idx neighbors → q0 f = p0_idx)
      by (intros f; apply i_candidates_first).
    induction (i_candidates adjGraph p0_idx neighbors) as [|f l IHl]; [constructor|].
    constructor.
    + apply IHl. intros f' Hf'. apply Hall. by right.
    + apply Forall_forall. intros f' Hf'.
      rewrite (Hall f), (Hall f'); [lia | by right | left].
  - apply IH. lia.
Qed.

(** The faces are returned in the order of the point that discovered them:
    the first vertex never decreases along the list. *)
Theorem returned_faces_ordered (points : list MeshPoint) (adjGraph : AdjacencyGraph)
    (faces : list QuadFace) (i j : nat) (fi fj : QuadFace) :
  findValidFaces points adjGraph = Some faces →
  faces !! i = Some fi → faces !! j = Some fj → (i < j)%nat →
  q0 fi ≤ q0 fj.
Proof.
  intros (_ & ->)%findValidFaces_Some Hi Hj Hij.
  set (faces := dedup_by _ _ _) in *.
  assert (Hs : StronglySorted (λ f f', q0 f ≤ q0 f') faces).
  { eapply StronglySorted_sublist; [apply dedup_by_sublist|].
    eapply StronglySorted_sublist; [apply sublist_filter|].
    by apply p0_candidates_sorted. }
  rewrite <- (take_drop j faces) in Hs.
  eapply (StronglySorted_app_1_elem_of _ _ _ _ _ Hs).
  - apply elem_of_take. eauto.
  - apply list_elem_of_lookup. exists 0%nat. by rewrite lookup_drop, Nat.add_0_r.
Qed.

Lemma returned_faces_ordered_witness :
  findValidFaces MainWindow.m_points MainWindow.reference_graph
  = Some MainWindow.reference_faces
  ∧ MainWindow.reference_faces !! 1%nat = Some (mkQuad 0 4 5 1)
  ∧ MainWindow.reference_faces !! 2%nat = Some (mkQuad 1 2 6 5)
  ∧ (1 < 2)%nat
  ∧ q0 (mkQuad 0 4 5 1) ≤ q0 (mkQuad 1 2 6 5).
Proof.
  split; [apply reference_faces_eq|]. split; [reflexivity|]. split; [reflexivity|].
  split; [lia|].
  apply (returned_faces_ordered _ _ _ 1 2 _ _ reference_faces_eq eq_refl eq_refl). lia.
Defined.
End faces_properties.

(** ** The drawing functions of the viewer *)

Section drawing.
Import GL GLWidget.

Lemma pos_vec_at_in_range (points : list MeshPoint) (idx : Z) :
  0 ≤ idx < Z.of_nat (length points) → ∃ p, pos <$> vec_at points idx = Some p.
Proof. intros [P ->]%vec_at_is_Some. by eexists. Qed.

Lemma count_app kind l1 l2 : count kind (l1 ++ l2) = (count kind l1 + count kind l2)%nat.
Proof. unfold count. by rewrite filter_app, length_app. Qed.

Lemma count_cons kind c l :
  count kind (c :: l) = ((if kind c then 1 else 0) + count kind l)%nat.
Proof.
  unfold count. rewrite filter_cons.
  destruct (decide (kind c = true)) as [->|Hn]; [done|]. by destruct (kind c).
Qed.

(** In a well-formed sequence every [glBegin] has its [glEnd]. *)
Lemma well_formed_from_counts st calls :
  well_formed_from st calls = true →
  (count is_begin calls + match st with Some _ => 1 | None => 0 end
   = count is_end calls)%nat.
Proof.
  revert st. induction calls as [|c rest IH]; intros st; simpl.
  - by destruct st.
  - rewrite !count_cons.
    destruct c, st as [[md n]|]; simpl; try done; intros Hwf;
      try apply andb_true_iff in Hwf as [_ Hwf]; apply IH in Hwf; simpl in Hwf; lia.
Qed.

Lemma well_formed_counts calls :
  well_formed calls → count is_begin calls = count is_end calls.
Proof. intros Hwf%well_formed_from_counts. simpl in Hwf. lia. Qed.

Lemma well_formed_vertices (m : mode) (n : nat) (vs rest : list call) :
  Forall (λ c, is_vertex c = true) vs →
  well_formed_from (Some (m, n)) (vs ++ rest)
  = well_formed_from (Some (m, (n + length vs)%nat)) rest.
Proof.
  intros Hall. revert n. induction Hall as [|v vs Hv _ IH]; intros n; simpl.
  - by rewrite Nat.add_0_r.
  - destruct v; try done. rewrite IH. do 3 f_equal. lia.
Qed.

(** *** [drawFaces] *)

(** The four vertices of a face whose indices are indices of points. *)
Lemma drawFaces_indices_in_range points (indices : list Z) :
  Forall (λ x, 0 ≤ x < Z.of_nat (length points)) indices →
  ∃ calls, drawFaces_indices points indices = Some (calls, false)
           ∧ length calls = length indices
           ∧ Forall (λ c, is_vertex c = true) calls.
Proof.
  induction 1 as [|idx rest Hidx _ (calls & IH & Hlen & Hall)]; simpl.
  - exists []. by repeat constructor.
  - destruct (Z.leb_spec (Z.of_nat (length points)) idx) as [?|_]; [lia|].
    destruct (pos_vec_at_in_range points idx Hidx) as [p ->]. rewrite IH. simpl.
    exists (vertex p :: calls). split; [done|]. split; [by rewrite <- Hlen|].
    by constructor.
Qed.

(** A quad of four vertices leaves the immediate mode as it found it. *)
Lemma well_formed_quad (calls rest : list call) :
  length calls = 4%nat → Forall (λ c, is_vertex c = true) calls →
  well_formed_from None (glBegin GL_QUADS :: calls ++ glEnd :: rest)
  = well_formed_from None rest.
Proof.
  destruct calls as [|v0 [|v1 [|v2 [|v3 [|]]]]]; try done. intros _ Hall.
  apply Forall_cons in Hall as [H0 Hall]. apply Forall_cons in Hall as [H1 Hall].
  apply Forall_cons in Hall as [H2 Hall]. apply Forall_cons in Hall as [H3 _].
  destruct v0, v1, v2, v3; try done.
Qed.

Lemma count_vertices_all calls :
  Forall (λ c, is_vertex c = true) calls →
  count is_vertex calls = length calls
  ∧ count is_begin calls = 0%nat ∧ count is_end calls = 0%nat.
Proof.
  induction 1 as [|c l Hc _ (IH1 & IH2 & IH3)]; [done|].
  rewrite !count_cons, IH1, IH2, IH3, Hc. by destruct c.
Qed.

Lemma drawFaces_loop_cons points face rest :
  drawFaces_loop points (face :: rest)
  = r ← drawFaces_indices points (face_pts face);
    if r.2 : bool then Some (glBegin GL_QUADS :: r.1)
    else calls ← drawFaces_loop points rest;
         Some (glBegin GL_QUADS :: r.1 ++ glEnd :: calls).
Proof. done. Qed.

Lemma drawFaces_loop_in_range points (faces : list QuadFace) :
  Forall (λ f, Forall (λ x, 0 ≤ x < Z.of_nat (length points)) (face_pts f)) faces →
  ∃ calls, drawFaces_loop points faces = Some calls
           ∧ well_formed_from None calls = true
           ∧ count is_vertex calls = (4 * length faces)%nat
           ∧ count is_begin calls = length faces.
Proof.
  induction 1 as [|f rest Hf _ (calls & IH & Hwf & Hcount & Hbegin)].
  - by exists [].
  - rewrite drawFaces_loop_cons.
    destruct (drawFaces_indices_in_range points (face_pts f) Hf) as (vs & -> & Hlen & Hall).
    simpl. rewrite IH. simpl. eexists. split; [done|].
    destruct (count_vertices_all vs Hall) as (Hv & Hb & He).
    split; [|split].
    + by rewrite well_formed_quad.
    + rewrite count_cons, count_app, count_cons, Hv, Hlen, Hcount. simpl. lia.
    + rewrite count_cons, count_app, count_cons, Hb, Hbegin. simpl. lia.
Qed.

(** When every index of every face is an index of a point, [drawFaces]
    draws one complete quad per face, in a well-formed sequence of calls. *)
Theorem drawFaces_in_range (w : GLWidget.t) :
  Forall (λ f, Forall (λ x, 0 ≤ x < Z.of_nat (length (m_points w))) (face_pts f))
    (m_faces w) →
  ∃ calls, drawFaces w = Some calls
           ∧ well_formed calls
           ∧ count is_begin calls = length (m_faces w)
           ∧ count is_vertex calls = (4 * length (m_faces w))%nat.
Proof.
  intros (calls & Hloop & Hwf & Hcount & Hbegin)%drawFaces_loop_in_range.
  unfold drawFaces. rewrite Hloop. simpl. eexists. split; [done|].
  split; [exact Hwf|]. by rewrite !count_cons.
Qed.

Lemma drawFaces_loop_before points (before : list QuadFace) :
  Forall (λ f, Forall (λ x, 0 ≤ x < Z.of_nat (length points)) (face_pts f)) before →
  ∃ calls, drawFaces_loop points before = Some calls
           ∧ (∀ rest, well_formed_from None (calls ++ rest) = well_formed_from None rest)
           ∧ ∀ later, drawFaces_loop points (before ++ later)
                      = calls' ← drawFaces_loop points later; Some (calls ++ calls').
Proof.
  induction 1 as [|f before Hf _ (calls & IH & Hwf & Happ)].
  - exists []. split; [done|]. split; [done|]. intros later. simpl.
    by destruct (drawFaces_loop points later).
  - destruct (drawFaces_indices_in_range points (face_pts f) Hf) as (vs & Hvs & Hlen & Hall).
    exists (glBegin GL_QUADS :: vs ++ glEnd :: calls). split; [|split].
    + rewrite drawFaces_loop_cons, Hvs. simpl. by rewrite IH.
    + intros rest.
      replace ((glBegin GL_QUADS :: vs ++ glEnd :: calls) ++ rest)
        with (glBegin GL_QUADS :: vs ++ glEnd :: (calls ++ rest))
        by (simpl; by rewrite <- app_assoc).
      rewrite well_formed_quad by done. apply Hwf.
    + intros later. change ((f :: before) ++ later) with (f :: (before ++ later)).
      rewrite drawFaces_loop_cons, Hvs. simpl. rewrite Happ.
      destruct (drawFaces_loop points later) as [calls'|]; [|done]. simpl.
      by rewrite <- app_assoc.
Qed.

(** The vertices issued for the indices before the first one that is at or
    above the size, then [glEnd] and the return. *)
Lemma drawFaces_indices_bad points (pre post : list Z) (idx : Z) :
  Forall (λ x, 0 ≤ x < Z.of_nat (length points)) pre →
  Z.of_nat (length points) ≤ idx →
  ∃ vs, drawFaces_indices points (pre ++ idx :: post) = Some (vs ++ [glEnd], true)
        ∧ Forall2 (λ x c, ∃ p, vec_at points x = Some p ∧ c = vertex (pos p)) pre vs.
Proof.
  intros Hpre Hidx. induction Hpre as [|x pre Hx _ (vs & IH & Hvs)]; simpl.
  - destruct (Z.leb_spec (Z.of_nat (length points)) idx) as [_|?]; [|lia].
    by exists [].
  - destruct (Z.leb_spec (Z.of_nat (length points)) x) as [?|_]; [lia|].
    destruct (vec_at_is_Some points x Hx) as [p Hp]. rewrite Hp, IH. simpl.
    exists (vertex (pos p) :: vs). split; [done|]. constructor; [by exists p | done].
Qed.

(** An index at or above the number of points ends the primitive and the
    whole of [drawFaces]. After the quads of the faces before, the calls are
    [glBegin(GL_QUADS)], the vertices of the indices of the face before that
    index, and [glEnd]; then the function returns: the faces that follow in
    the list are not drawn, whatever they are. The quad that is ended is
    incomplete unless the index is the first of its face. *)
Theorem drawFaces_stops_at_bad_index (w : GLWidget.t) (before after : list QuadFace)
    (face : QuadFace) (pre post : list Z) (idx : Z) :
  Forall (λ f, Forall (λ x, 0 ≤ x < Z.of_nat (length (m_points w))) (face_pts f)) before →
  face_pts face = pre ++ idx :: post →
  Forall (λ x, 0 ≤ x < Z.of_nat (length (m_points w))) pre →
  Z.of_nat (length (m_points w)) ≤ idx →
  ∃ calls vs,
    drawFaces (setFaces before w) = Some calls
    ∧ drawFaces (setFaces (before ++ face :: after) w)
      = Some (calls ++ glBegin GL_QUADS :: vs ++ [glEnd])
    ∧ Forall2 (λ x c, ∃ p, vec_at (m_points w) x = Some p ∧ c = vertex (pos p)) pre vs
    ∧ (well_formed (calls ++ glBegin GL_QUADS :: vs ++ [glEnd]) ↔ pre = []).
Proof.
  intros Hbefore Hface Hpre Hidx.
  destruct (drawFaces_loop_before (m_points w) before Hbefore) as (calls & Hcalls & Hwf & Happ).
  destruct (drawFaces_indices_bad (m_points w) pre post idx Hpre Hidx) as (vs & Hvs & Hall).
  exists (glColor4f lit_0_2 lit_0_5 lit_1_0 lit_0_3 :: calls), vs.
  unfold drawFaces. cbn [setFaces m_points m_faces].
  split; [by rewrite Hcalls|]. split; [|split; [exact Hall|]].
  - rewrite Happ, drawFaces_loop_cons, Hface, Hvs. done.
  - assert (Hvert : Forall (λ c, is_vertex c = true) vs).
    { clear -Hall. induction Hall as [|x c pre vs (p & _ & ->) _ IH]; by constructor. }
    assert (Hlen : length vs = length pre) by (symmetry; eapply Forall2_length, Hall).
    assert (Hfour : (length pre < 4)%nat).
    { assert (Hl : length (face_pts face) = 4%nat) by done.
      rewrite Hface, length_app in Hl. simpl in Hl. lia. }
    unfold well_formed. cbn [app well_formed_from]. rewrite Hwf. cbn [well_formed_from].
    rewrite well_formed_vertices by done. cbn [well_formed_from complete Nat.add].
    rewrite andb_true_r, Nat.eqb_eq, Hlen, Nat.mod_small by done.
    split; [by destruct pre | by intros ->].
Qed.

Lemma drawFaces_stops_at_bad_index_witness :
  Forall (λ f, Forall (λ x, 0 ≤ x < 4) (face_pts f)) [mkQuad 0 1 2 3]
  ∧ face_pts (mkQuad 0 1 9 3) = [0; 1] ++ 9 :: [3]
  ∧ Forall (λ x, 0 ≤ x < 4) [0; 1]
  ∧ 4 ≤ 9
  ∧ ∃ calls vs,
      drawFaces (GLWidget.mk Samples.square_points ∅ [mkQuad 0 1 2 3] [] lit_1_0) = Some calls
      ∧ drawFaces (GLWidget.mk Samples.square_points ∅
                     [mkQuad 0 1 2 3; mkQuad 0 1 9 3; mkQuad 3 2 1 0] [] lit_1_0)
        = Some (calls ++ glBegin GL_QUADS :: vs ++ [glEnd])
      ∧ Forall2 (λ x c, ∃ p, vec_at Samples.square_points x = Some p ∧ c = vertex (pos p))
          [0; 1] vs
      ∧ (well_formed (calls ++ glBegin GL_QUADS :: vs ++ [glEnd]) ↔ [0; 1] = []).
Proof.
  assert (H1 : Forall (λ f, Forall (λ x, 0 ≤ x < 4) (face_pts f)) [mkQuad 0 1 2 3]).
  { repeat constructor; simpl; lia. }
  assert (H2 : Forall (λ x, 0 ≤ x < 4) [0; 1]) by (repeat constructor; lia).
  assert (H3 : 4 ≤ 9) by lia.
  split; [exact H1|]. split; [reflexivity|]. split; [exact H2|]. split; [exact H3|].
  exact (drawFaces_stops_at_bad_index
           (GLWidget.mk Samples.square_points ∅ [] [] lit_1_0)
           [mkQuad 0 1 2 3] [mkQuad 3 2 1 0] (mkQuad 0 1 9 3) [0; 1] [3] 9
           H1 eq_refl H2 H3).
Defined.

Lemma drawFaces_in_range_witness :
  Forall (λ f, Forall (λ x, 0 ≤ x < 4) (face_pts f)) [mkQuad 0 1 2 3]
  ∧ ∃ calls,
      drawFaces (GLWidget.mk Samples.square_points ∅ [mkQuad 0 1 2 3] [] lit_1_0) = Some calls
      ∧ well_formed calls ∧ count is_begin calls = 1%nat ∧ count is_vertex calls = 4%nat.
Proof.
  assert (H : Forall (λ f, Forall (λ x, 0 ≤ x < 4) (face_pts f)) [mkQuad 0 1 2 3]).
  { repeat constructor; simpl; lia. }
  split; [exact H|].
  exact (drawFaces_in_range
           (GLWidget.mk Samples.square_points ∅ [mkQuad 0 1 2 3] [] lit_1_0) H).
Defined.

(** *** [drawHexahedra] *)

Lemma drawHexahedra_faces_cons points face rest :
  drawHexahedra_faces points (face :: rest)
  = calls ← drawHexahedra_indices points (face_pts face);
    calls' ← drawHexahedra_faces points rest;
    Some (glBegin GL_QUADS :: calls ++ glEnd :: calls').
Proof. done. Qed.

Lemma drawHexahedra_loop_cons points hex rest :
  drawHexahedra_loop points (hex :: rest)
  = calls ← drawHexahedra_faces points (hex_faces hex);
    calls' ← drawHexahedra_loop points rest;
    Some (calls ++ calls').
Proof. done. Qed.

Lemma drawHexahedra_indices_in_range points (indices : list Z) :
  Forall (λ x, 0 ≤ x < Z.of_nat (length points)) indices →
  ∃ calls, drawHexahedra_indices points indices = Some calls
           ∧ length calls = length indices
           ∧ Forall (λ c, is_vertex c = true) calls.
Proof.
  induction 1 as [|idx rest Hidx _ (calls & IH & Hlen & Hall)]; simpl.
  - exists []. by repeat constructor.
  - destruct (Z.leb_spec (Z.of_nat (length points)) idx) as [?|_]; [lia|].
    destruct (pos_vec_at_in_range points idx Hidx) as [p ->]. rewrite IH. simpl.
    exists (vertex p :: calls). split; [done|]. split; [by rewrite <- Hlen|].
    by constructor.
Qed.

Lemma drawHexahedra_faces_in_range points (faces : list QuadFace) :
  Forall (λ f, Forall (λ x, 0 ≤ x < Z.of_nat (length points)) (face_pts f)) faces →
  ∃ calls, drawHexahedra_faces points faces = Some calls
           ∧ (∀ rest, well_formed_from None (calls ++ rest) = well_formed_from None rest)
           ∧ count is_vertex calls = (4 * length faces)%nat
           ∧ count is_begin calls = length faces.
Proof.
  induction 1 as [|f rest Hf _ (calls & IH & Hwf & Hcount & Hbegin)].
  - exists []. by repeat split.
  - rewrite drawHexahedra_faces_cons.
    destruct (drawHexahedra_indices_in_range points (face_pts f) Hf)
      as (vs & -> & Hlen & Hall).
    simpl. rewrite IH. simpl. eexists. split; [done|].
    destruct (count_vertices_all vs Hall) as (Hv & Hb & He).
    split; [|split].
    + intros rest'.
      replace ((glBegin GL_QUADS :: vs ++ glEnd :: calls) ++ rest')
        with (glBegin GL_QUADS :: vs ++ glEnd :: (calls ++ rest'))
        by (simpl; by rewrite <- app_assoc).
      rewrite well_formed_quad by (done || by rewrite Hlen). apply Hwf.
    + rewrite count_cons, count_app, count_cons, Hv, Hlen, Hcount. simpl. lia.
    + rewrite count_cons, count_app, count_cons, Hb, Hbegin. simpl. lia.
Qed.

Lemma hex_faces_in_range (size : Z) (hex : Hexahedron) :
  Forall (λ x, 0 ≤ x < size) (hex_pts hex) →
  Forall (λ f, Forall (λ x, 0 ≤ x < size) (face_pts f)) (hex_faces hex).
Proof.
  unfold hex_pts, hex_faces, face_pts. rewrite !Forall_cons, !Forall_nil. tauto.
Qed.

Lemma drawHexahedra_loop_in_range points (hexahedra : list Hexahedron) :
  Forall (λ hex, Forall (λ x, 0 ≤ x < Z.of_nat (length points)) (hex_pts hex)) hexahedra →
  ∃ calls, drawHexahedra_loop points hexahedra = Some calls
           ∧ well_formed_from None calls = true
           ∧ count is_vertex calls = (24 * length hexahedra)%nat
           ∧ count is_begin calls = (6 * length hexahedra)%nat.
Proof.
  induction 1 as [|hex rest Hhex _ (calls & IH & Hwf & Hcount & Hbegin)].
  - by exists [].
  - rewrite drawHexahedra_loop_cons.
    destruct (drawHexahedra_faces_in_range points (hex_faces hex))
      as (cs & -> & Hwf' & Hv & Hb); [by apply hex_faces_in_range|].
    simpl. rewrite IH. simpl. eexists. split; [done|]. split; [|split].
    + by rewrite Hwf'.
    + rewrite count_app, Hv, Hcount. simpl. lia.
    + rewrite count_app, Hb, Hbegin. simpl. lia.
Qed.

(** When the eight indices of every hexahedron are indices of points,
    [drawHexahedra] draws six complete quads per hexahedron, in a well-formed
    sequence of calls. *)
Theorem drawHexahedra_in_range (w : GLWidget.t) :
  Forall (λ hex, Forall (λ x, 0 ≤ x < Z.of_nat (length (m_points w))) (hex_pts hex))
    (m_hexahedra w) →
  ∃ calls, drawHexahedra w = Some calls
           ∧ well_formed calls
           ∧ count is_begin calls = (6 * length (m_hexahedra w))%nat
           ∧ count is_vertex calls = (24 * length (m_hexahedra w))%nat.
Proof.
  intros (calls & Hloop & Hwf & Hcount & Hbegin)%drawHexahedra_loop_in_range.
  unfold drawHexahedra. rewrite Hloop. simpl. eexists. split; [done|].
  split; [exact Hwf|]. by rewrite !count_cons.
Qed.

Lemma drawHexahedra_in_range_witness :
  Forall (λ hex, Forall (λ x, 0 ≤ x < 16) (hex_pts hex)) MainWindow.reference_hexahedra
  ∧ ∃ calls,
      drawHexahedra (GLWidget.mk MainWindow.m_points ∅ [] MainWindow.reference_hexahedra
                       lit_1_0) = Some calls
      ∧ well_formed calls ∧ count is_begin calls = 18%nat
      ∧ count is_vertex calls = 72%nat.
Proof.
  assert (H : Forall (λ hex, Forall (λ x, 0 ≤ x < 16) (hex_pts hex))
                MainWindow.reference_hexahedra).
  { repeat constructor; simpl; lia. }
  split; [exact H|].
  exact (drawHexahedra_in_range
           (GLWidget.mk MainWindow.m_points ∅ [] MainWindow.reference_hexahedra lit_1_0) H).
Defined.

Lemma drawHexahedra_indices_counts points (indices : list Z) :
  Forall (λ x, 0 ≤ x) indices →
  ∃ calls, drawHexahedra_indices points indices = Some calls
           ∧ count is_begin calls = 0%nat
           ∧ count is_end calls
             = length (filter (λ x, Z.of_nat (length points) ≤ x) indices).
Proof.
  induction 1 as [|idx rest Hidx _ (calls & IH & Hbegin & Hend)]; simpl.
  - by exists [].
  - rewrite filter_cons.
    destruct (Z.leb_spec (Z.of_nat (length points)) idx) as [Hle|Hlt].
    + rewrite IH. simpl. eexists. split; [done|]. rewrite !count_cons, Hbegin, Hend.
      destruct (decide _) as [_|[]]; [done|lia].
    + destruct (pos_vec_at_in_range points idx) as [p ->]; [lia|]. rewrite IH. simpl.
      eexists. split; [done|]. rewrite !count_cons, Hbegin, Hend.
      destruct (decide _) as [?|_]; [lia|done].
Qed.

Lemma drawHexahedra_faces_counts points (faces : list QuadFace) :
  Forall (λ f, Forall (λ x, 0 ≤ x) (face_pts f)) faces →
  ∃ calls, drawHexahedra_faces points faces = Some calls
           ∧ count is_begin calls = length faces
           ∧ count is_end calls
             = (length faces
                + length (filter (λ x, (Z.of_nat (length points) ≤ x)%Z)
                            (faces ≫= face_pts)))%nat.
Proof.
  induction 1 as [|f rest Hf _ (calls & IH & Hbegin & Hend)].
  - by exists [].
  - rewrite drawHexahedra_faces_cons.
    destruct (drawHexahedra_indices_counts points (face_pts f) Hf) as (vs & -> & Hb & He).
    rewrite IH, bind_cons, filter_app, length_app. eexists. split; [reflexivity|].
    rewrite !count_cons, !count_app, !count_cons, Hb, He, Hbegin, Hend.
    generalize (length (filter (λ x, Z.of_nat (length points) ≤ x) (face_pts f))).
    generalize (length (filter (λ x, Z.of_nat (length points) ≤ x) (rest ≫= face_pts))).
    intros a b. simpl. lia.
Qed.

(** Every slot of a hexahedron is in three of its six faces. *)
Lemma hex_faces_slots (hex : Hexahedron) :
  hex_faces hex ≫= face_pts ≡ₚ hex_pts hex ++ hex_pts hex ++ hex_pts hex.
Proof.
  unfold hex_faces, hex_pts, face_pts. simpl. solve_Permutation.
Qed.

Lemma hex_faces_nonnegative (hex : Hexahedron) :
  Forall (λ x, 0 ≤ x) (hex_pts hex) →
  Forall (λ f, Forall (λ x, 0 ≤ x) (face_pts f)) (hex_faces hex).
Proof.
  unfold hex_pts, hex_faces, face_pts. rewrite !Forall_cons, !Forall_nil. tauto.
Qed.

Lemma drawHexahedra_loop_counts points (hexahedra : list Hexahedron) :
  Forall (λ hex, Forall (λ x, 0 ≤ x) (hex_pts hex)) hexahedra →
  ∃ calls, drawHexahedra_loop points hexahedra = Some calls
           ∧ count is_begin calls = (6 * length hexahedra)%nat
           ∧ count is_end calls
             = (6 * length hexahedra
                + 3 * slots_above (Z.of_nat (length points)) hexahedra)%nat.
Proof.
  induction 1 as [|hex rest Hhex _ (calls & IH & Hbegin & Hend)].
  - by exists [].
  - rewrite drawHexahedra_loop_cons.
    destruct (drawHexahedra_faces_counts points (hex_faces hex))
      as (cs & -> & Hb & He); [by apply hex_faces_nonnegative|].
    rewrite IH. unfold slots_above in *.
    rewrite bind_cons, filter_app, length_app. eexists. split; [reflexivity|].
    rewrite !count_app, Hb, He, Hbegin, Hend, (hex_faces_slots hex).
    rewrite !filter_app, !length_app. change (length (hex_faces hex)) with 6%nat.
    generalize (length (filter (λ x, Z.of_nat (length points) ≤ x) (hex_pts hex))).
    generalize (length (filter (λ x, Z.of_nat (length points) ≤ x) (rest ≫= hex_pts))).
    intros a b. simpl. lia.
Qed.

(** [drawHexahedra] reads no point when an index is at or above the number of
    points, but calls [glEnd] in its place and again after the face: with no
    negative index the calls are defined, there are six [glBegin] per
    hexahedron, and three [glEnd] more than that for every such slot, so the
    sequence is not well formed as soon as there is one. *)
Theorem drawHexahedra_extra_glEnd (w : GLWidget.t) :
  Forall (λ hex, Forall (λ x, 0 ≤ x) (hex_pts hex)) (m_hexahedra w) →
  ∃ calls, drawHexahedra w = Some calls
           ∧ count is_begin calls = (6 * length (m_hexahedra w))%nat
           ∧ count is_end calls
             = (6 * length (m_hexahedra w)
                + 3 * slots_above (Z.of_nat (length (m_points w))) (m_hexahedra w))%nat
           ∧ (slots_above (Z.of_nat (length (m_points w))) (m_hexahedra w) ≠ 0%nat
              → ¬ well_formed calls).
Proof.
  intros Hnonneg.
  destruct (drawHexahedra_loop_counts (m_points w) (m_hexahedra w) Hnonneg)
    as (calls & Hloop & Hbegin & Hend).
  unfold drawHexahedra. rewrite Hloop. simpl. eexists. split; [done|].
  rewrite !count_cons. simpl. repeat split; [done..|].
  intros Hslots Hwf%well_formed_counts. rewrite !count_cons in Hwf. simpl in Hwf. lia.
Qed.

Lemma drawHexahedra_extra_glEnd_witness :
  Forall (λ hex, Forall (λ x, 0 ≤ x) (hex_pts hex)) [mkHex 0 1 2 3 4 5 6 7]
  ∧ ∃ calls,
      drawHexahedra (GLWidget.mk Samples.square_points ∅ [] [mkHex 0 1 2 3 4 5 6 7] lit_1_0)
      = Some calls
      ∧ count is_begin calls = 6%nat ∧ count is_end calls = 18%nat
      ∧ ¬ well_formed calls.
Proof.
  assert (H : Forall (λ hex, Forall (λ x, 0 ≤ x) (hex_pts hex)) [mkHex 0 1 2 3 4 5 6 7]).
  { repeat constructor; simpl; lia. }
  split; [exact H|].
  destruct (drawHexahedra_extra_glEnd
              (GLWidget.mk Samples.square_points ∅ [] [mkHex 0 1 2 3 4 5 6 7] lit_1_0) H)
    as (calls & Hdraw & Hbegin & Hend & Hwf).
  exists calls. split; [exact Hdraw|]. split; [exact Hbegin|]. split; [exact Hend|].
  apply Hwf. vm_compute. discriminate.
Defined.
(** *** [drawPoints] and [drawGraph] *)

(** [drawPoints] issues well-formed calls for every sequence of points: one
    vertex per point, in one primitive. *)
Theorem drawPoints_well_formed (w : GLWidget.t) :
  well_formed (drawPoints w)
  ∧ count is_begin (drawPoints w) = 1%nat
  ∧ count is_end (drawPoints w) = 1%nat
  ∧ count is_vertex (drawPoints w) = length (m_points w).
Proof.
  assert (Hall : Forall (λ c, is_vertex c = true) ((λ p, vertex (pos p)) <$> m_points w)).
  { apply Forall_fmap, Forall_forall. done. }
  destruct (count_vertices_all _ Hall) as (Hv & Hb & He). rewrite length_fmap in Hv.
  unfold drawPoints, well_formed. split; [|split; [|split]].
  - cbn [well_formed_from app]. by rewrite well_formed_vertices.
  - by rewrite count_app, count_app, Hb.
  - by rewrite count_app, count_app, He.
  - by rewrite count_app, count_app, Hv.
Qed.

Lemma drawGraph_neighbors_nonnegative points (p1 : Vector3) (neighbors : list Z) :
  Forall (λ x, 0 ≤ x) neighbors →
  ∃ calls, drawGraph_neighbors points p1 neighbors = Some calls
           ∧ Forall (λ c, is_vertex c = true) calls
           ∧ length calls
             = (2 * length (filter (λ x, (x < Z.of_nat (length points))%Z) neighbors))%nat.
Proof.
  induction 1 as [|idx rest Hidx _ (calls & IH & Hall & Hlen)]; simpl.
  - by exists [].
  - rewrite filter_cons.
    destruct (Z.leb_spec (Z.of_nat (length points)) idx) as [Hle|Hlt].
    + exists calls. destruct (decide _) as [?|_]; [lia|done].
    + destruct (pos_vec_at_in_range points idx) as [p ->]; [lia|]. rewrite IH. simpl.
      eexists. split; [done|]. split; [by repeat constructor|].
      destruct (decide _) as [_|[]]; [|done]. simpl. lia.
Qed.

Lemma drawGraph_entries_nonnegative points (entries : list (Z * list Z)) :
  Forall (λ entry : Z * list Z, 0 ≤ entry.1 ∧ Forall (λ x, 0 ≤ x) entry.2) entries →
  ∃ calls, drawGraph_entries points entries = Some calls
           ∧ Forall (λ c, is_vertex c = true) calls
           ∧ length calls = (2 * segments_of (Z.of_nat (length points)) entries)%nat.
Proof.
  induction 1 as [|[k ns] rest [Hk Hns] _ (calls & IH & Hall & Hlen)].
  - by exists [].
  - unfold segments_of in *. rewrite fmap_cons. simpl in Hk, Hns. simpl.
    destruct (Z.leb_spec (Z.of_nat (length points)) k) as [Hle|Hlt].
    + exists calls. destruct (decide _) as [?|_]; [lia|done].
    + destruct (pos_vec_at_in_range points k) as [p1 ->]; [lia|]. simpl.
      destruct (drawGraph_neighbors_nonnegative points p1 ns Hns) as (cs & -> & Hcs & Hl).
      rewrite IH. simpl. eexists. split; [done|]. split; [by apply Forall_app|].
      rewrite length_app, Hl, Hlen. destruct (decide _) as [_|[]]; [lia|done].
Qed.

(** Whole lines between [glBegin(GL_LINES)] and [glEnd]. *)
Lemma lines_well_formed (calls : list call) (k : nat) :
  Forall (λ c, is_vertex c = true) calls → length calls = (2 * k)%nat →
  well_formed_from None (glBegin GL_LINES :: calls ++ [glEnd]) = true.
Proof.
  intros Hall Hlen. cbn [well_formed_from].
  rewrite well_formed_vertices by done. cbn [well_formed_from complete Nat.add].
  rewrite Hlen, andb_true_r. apply Nat.eqb_eq.
  by rewrite Nat.mul_comm, Nat.Div0.mod_mul.
Qed.

(** [drawGraph] skips every entry and every neighbour at or above the number
    of points: with no negative key or neighbour its calls are defined and
    well formed, whole lines between [glBegin(GL_LINES)] and [glEnd], one
    line for every pair of an entry and a neighbour that are both below the
    number of points. *)
Theorem drawGraph_well_formed (w : GLWidget.t) :
  (∀ k ns, m_adjGraph w !! k = Some ns → 0 ≤ k ∧ Forall (λ x, 0 ≤ x) ns) →
  ∃ calls, drawGraph w = Some calls
           ∧ well_formed calls
           ∧ count is_begin calls = 1%nat
           ∧ count is_vertex calls
             = (2 * segments (Z.of_nat (length (m_points w))) (m_adjGraph w))%nat.
Proof.
  intros Hgraph.
  destruct (drawGraph_entries_nonnegative (m_points w) (map_to_list (m_adjGraph w)))
    as (calls & Hcalls & Hall & Hlen).
  { apply Forall_forall. intros [k ns] Hin%elem_of_map_to_list. by apply Hgraph. }
  unfold drawGraph. rewrite Hcalls. simpl. eexists. split; [done|].
  destruct (count_vertices_all calls Hall) as (Hv & Hb & He).
  split; [|split].
  - by eapply lines_well_formed.
  - rewrite !count_cons, count_app, Hb. done.
  - rewrite !count_cons, count_app, Hv, Hlen.
    change (count is_vertex [glEnd]) with 0%nat. simpl. unfold segments. lia.
Qed.

Lemma drawGraph_well_formed_witness :
  (∀ k ns, Samples.loop_graph !! k = Some ns → 0 ≤ k ∧ Forall (λ x, 0 ≤ x) ns)
  ∧ ∃ calls,
      drawGraph (GLWidget.mk Samples.square_points Samples.loop_graph [] [] lit_1_0)
      = Some calls
      ∧ well_formed calls ∧ count is_begin calls = 1%nat
      ∧ count is_vertex calls = 24%nat.
Proof.
  assert (H : ∀ k ns, Samples.loop_graph !! k = Some ns → 0 ≤ k ∧ Forall (λ x, 0 ≤ x) ns).
  { intros k ns Hk. apply elem_of_map_to_list in Hk.
    assert (Hall : Forall (λ entry : Z * list Z, 0 ≤ entry.1 ∧ Forall (λ x, 0 ≤ x) entry.2)
                     (map_to_list Samples.loop_graph)).
    { vm_compute map_to_list. repeat constructor; simpl; lia. }
    rewrite Forall_forall in Hall. exact (Hall _ Hk). }
  split; [exact H|].
  exact (drawGraph_well_formed
           (GLWidget.mk Samples.square_points Samples.loop_graph [] [] lit_1_0) H).
Defined.
End drawing.

(** ** The zoom of the viewer *)

Section zoom.
Import GLWidget.

(** A product of two positive numbers that is not below the least positive
    number is not rounded to zero. *)
Lemma mul_positive m e c ec :
  bounded 24 128 m e = true → bounded 24 128 c ec = true →
  2 ^ (-149 - (e + ec)) ≤ Zpos (m * c) →
  positive_number (SFmul 24 128 (S754_finite false m e) (S754_finite false c ec)).
Proof.
  intros Hb Hc Hlow. simpl SFmul.
  pose proof (mul_enough_digits _ _ _ _ Hb Hc) as He.
  destruct (binary_round_aux_cases false (Z.pos (m * c)) (e + ec)) as (m2 & Hm2 & Hr);
    [lia | exact He |].
  set (P := Z.pos (m * c)) in *.
  set (t := fexp32 (Zdigits2 P + (e + ec))) in *.
  set (m1 := P / 2 ^ (t - (e + ec))) in *.
  assert (Hm1 : 0 < m1).
  { unfold m1. apply Z.div_str_pos. split; [apply Z.pow_pos_nonneg; lia|].
    destruct (decide (t = -149)) as [Ht|Hne]; [by rewrite Ht|].
    assert (Ht : t = Zdigits2 P + (e + ec) - 24) by (unfold t, fexp32 in *; lia).
    pose proof (Zdigits2_bounds P ltac:(lia)) as [Hl _].
    etrans; [|exact Hl]. apply Z.pow_le_mono_r; lia. }
  destruct Hr as [[_ Hz]|[[-> _]|(m' & e' & -> & Hb' & _)]].
  - lia.
  - by left.
  - right. by exists m', e'.
Qed.

Lemma bounded_exponent m e : bounded 24 128 m e = true → -149 ≤ e.
Proof. intros [He _]%bounded_spec. unfold fexp32 in He. lia. Qed.

Lemma small_power k : k ≤ 23 → 2 ^ k ≤ 8388608.
Proof.
  intros Hk. destruct (Z_lt_le_dec k 0) as [Hneg|Hpos].
  - rewrite Z.pow_neg_r by done. lia.
  - change 8388608 with (2 ^ 23). apply Z.pow_le_mono_r; lia.
Qed.

Lemma zoom_in_positive z : positive_number z → positive_number (F32.mul z lit_1_1).
Proof.
  intros [->|(m & e & -> & Hb)]; [by left|].
  apply mul_positive; [done..|]. pose proof (bounded_exponent m e Hb).
  pose proof (small_power (-149 - (e + -23)) ltac:(lia)). lia.
Qed.

Lemma zoom_out_positive z : positive_number z → positive_number (F32.mul z lit_0_9).
Proof.
  intros [->|(m & e & -> & Hb)]; [by left|].
  pose proof (bounded_exponent m e Hb).
  destruct (decide (e = -149)) as [->|Hne].
  - destruct (decide (m = 1%positive)) as [->|Hm].
    + right. by exists 1%positive, (-149).
    + apply mul_positive; [done..|]. change (2 ^ (-149 - (-149 + -24))) with 16777216. lia.
  - apply mul_positive; [done..|].
    pose proof (small_power (-149 - (e + -24)) ltac:(lia)). lia.
Qed.

Lemma wheelEvent_positive (d : Z) (w : GLWidget.t) :
  positive_number (m_zoom w) → positive_number (m_zoom (wheelEvent d w)).
Proof.
  intros Hz. unfold wheelEvent. simpl.
  destruct (0 <? d); [by apply zoom_in_positive | by apply zoom_out_positive].
Qed.
End zoom.

(** ** The window and its events *)

Section window.
Import ReconstructionEngine.

Lemma consistent_constructor points : consistent points (Slots.constructor points).
Proof. unfold consistent. simpl. repeat split. left. done. Qed.

Lemma consistent_handle points s e s' :
  consistent points s → Slots.handle e s = Some s' → consistent points s'.
Proof.
  intros Hc Hstep. pose proof Hc as (Hp & Hwp & Hwg & Hwf & Hwh & Hphase).
  destruct e; simpl in Hstep.
  - injection Hstep as <-. unfold consistent. simpl. split_and!; [congruence..|]. left. by split_and!.
  - destruct (Slots.m_step1Button s) eqn:H1; injection Hstep as <-; [|exact Hc].
    destruct Hphase as [(_ & H2 & H3 & Hg & Hf & Hh)|[Hphase|[Hphase|Hphase]]];
      [|destruct Hphase as (HF & _); congruence..].
    unfold consistent. simpl. rewrite Hp. split_and!; [congruence..|].
    right. left. split_and!; congruence.
  - destruct (Slots.m_step2Button s) eqn:H2; [|injection Hstep as <-; exact Hc].
    destruct Hphase as [Hphase|[(H1 & _ & H3 & Hg & Hf & Hh)|[Hphase|Hphase]]];
      [destruct Hphase as (_ & HF & _); congruence| |
       destruct Hphase as (_ & HF & _); congruence..].
    unfold Slots.onStep2_FindFaces in Hstep. rewrite Hp, Hg in Hstep.
    destruct (findValidFaces points (buildAdjacencyGraph points)) as [faces|] eqn:Hfaces;
      [|done].
    simpl in Hstep. injection Hstep as <-. unfold consistent. simpl.
    split_and!; [congruence..|]. right. right. left. split_and!; congruence.
  - destruct (Slots.m_step3Button s) eqn:H3; injection Hstep as <-; [|exact Hc].
    destruct Hphase as [Hphase|[Hphase|[(H1 & H2 & _ & Hg & Hf & Hh)|Hphase]]];
      [destruct Hphase as (_ & _ & HF & _); congruence..| |
       destruct Hphase as (_ & _ & HF & _); congruence].
    unfold consistent. simpl. rewrite Hg. split_and!; [congruence..|].
    right. right. right. split_and!; congruence.
  - injection Hstep as <-. exact Hc.
Qed.

(** The zoom factor is above zero in every state that the window reaches:
    no sequence of turns of the wheel rounds it to zero, makes it negative or
    makes it a NaN. *)
Theorem zoom_stays_positive (points : list MeshPoint) (s : Slots.t) :
  Slots.reachable points s → positive_number (GLWidget.m_zoom (Slots.m_glWidget s)).
Proof.
  induction 1 as [|s e s' _ IH Hstep].
  - right. by exists 8388608%positive, (-23).
  - destruct e; simpl in Hstep.
    + by injection Hstep as <-.
    + by destruct (Slots.m_step1Button s); injection Hstep as <-.
    + destruct (Slots.m_step2Button s); [|by injection Hstep as <-].
      unfold Slots.onStep2_FindFaces in Hstep.
      destruct (findValidFaces _ _); [|done]. by injection Hstep as <-.
    + by destruct (Slots.m_step3Button s); injection Hstep as <-.
    + injection Hstep as <-. by apply wheelEvent_positive.
Qed.

Lemma zoom_stays_positive_witness :
  Slots.reachable MainWindow.m_points
    (Slots.mk MainWindow.m_points ∅ [] []
       (GLWidget.wheelEvent (-120) (Slots.m_glWidget (Slots.constructor MainWindow.m_points)))
       true false false)
  ∧ positive_number (F32.mul GLWidget.lit_1_0 GLWidget.lit_0_9).
Proof.
  assert (H : Slots.reachable MainWindow.m_points
                (Slots.mk MainWindow.m_points ∅ [] []
                   (GLWidget.wheelEvent (-120)
                      (Slots.m_glWidget (Slots.constructor MainWindow.m_points)))
                   true false false)).
  { eapply (Slots.reachable_handle _ _ (Slots.Wheel (-120)));
      [apply Slots.reachable_constructor|]. reflexivity. }
  split; [exact H|]. exact (zoom_stays_positive _ _ H).
Defined.

Lemma built_hexahedra_in_range points adjGraph faces :
  findValidFaces points adjGraph = Some faces →
  Forall (λ hex, Forall (λ x, 0 ≤ x < Z.of_nat (length points)) (hex_pts hex))
    (buildHexahedra faces adjGraph).
Proof.
  intros Hfaces. apply Forall_forall. intros hex Hhex%elem_of_buildHexahedra.
  apply elem_of_candidateHexahedra in Hhex as (i & j & f1 & f2 & _ & Hi & Hj & Hin).
  apply pair_candidate_inv in Hin as (_ & _ & Hf1 & Hf2 & _).
  pose proof (returned_faces_in_range _ _ _ Hfaces f1 (list_elem_of_lookup_2 _ _ _ Hi)) as R1.
  pose proof (returned_faces_in_range _ _ _ Hfaces f2 (list_elem_of_lookup_2 _ _ _ Hj)) as R2.
  change (hex_pts hex) with ([h0 hex; h1 hex; h2 hex; h3 hex] ++ [h4 hex; h5 hex; h6 hex; h7 hex]).
  apply Forall_app. rewrite Hf1, Hf2. done.
Qed.

Lemma reachable_invariant points s : Slots.reachable points s → consistent points s.
Proof. induction 1; [apply consistent_constructor | by eapply consistent_handle]. Qed.

(** Every state that the window reaches from its construction, by clicks
    and turns of the wheel in any order, is consistent: the viewer holds the
    points and the data of the window, at most one step button is enabled,
    and the data are the results of the stages run so far on the points, each
    stage on the result of the one before. *)
Theorem reachable_consistent (points : list MeshPoint) (s : Slots.t) :
  Slots.reachable points s → consistent points s.
Proof.
  induction 1 as [|s e s' _ IH Hstep].
  - apply consistent_constructor.
  - by eapply consistent_handle.
Qed.

Lemma reachable_consistent_witness :
  Slots.reachable MainWindow.m_points
    (Slots.onStep1_BuildGraph (Slots.constructor MainWindow.m_points))
  ∧ consistent MainWindow.m_points
      (Slots.onStep1_BuildGraph (Slots.constructor MainWindow.m_points)).
Proof.
  assert (H : Slots.reachable MainWindow.m_points
                (Slots.onStep1_BuildGraph (Slots.constructor MainWindow.m_points))).
  { eapply (Slots.reachable_handle _ _ Slots.ClickStep1); [apply Slots.reachable_constructor|].
    reflexivity. }
  split; [exact H|]. exact (reachable_consistent _ _ H).
Defined.

(** No event has an undefined effect in a state that the window reaches: the
    face search is only started by the second button, which is only enabled
    after the graph builder has run on the same points, and the graph it
    builds has no negative index. *)
Theorem reachable_handle_defined (points : list MeshPoint) (s : Slots.t) (e : Slots.event) :
  Slots.reachable points s → is_Some (Slots.handle e s).
Proof.
  intros Hs. destruct e; simpl; try done.
  - by destruct (Slots.m_step1Button s).
  - destruct (Slots.m_step2Button s) eqn:H2; [|done].
    pose proof (reachable_invariant points s Hs) as (Hp & _ & _ & _ & _ & Hphase).
    destruct Hphase as [Hphase|[(_ & _ & _ & Hg & _)|[Hphase|Hphase]]];
      [destruct Hphase as (_ & HF & _); congruence| |
       destruct Hphase as (_ & HF & _); congruence..].
    unfold Slots.onStep2_FindFaces. rewrite Hp, Hg.
    destruct (findValidFaces_after_build points) as [faces ->]. done.
  - by destruct (Slots.m_step3Button s).
Qed.
Lemma reachable_handle_defined_witness :
  Slots.reachable MainWindow.m_points
    (Slots.onStep1_BuildGraph (Slots.constructor MainWindow.m_points))
  ∧ is_Some (Slots.handle Slots.ClickStep2
               (Slots.onStep1_BuildGraph (Slots.constructor MainWindow.m_points))).
Proof.
  assert (H : Slots.reachable MainWindow.m_points
                (Slots.onStep1_BuildGraph (Slots.constructor MainWindow.m_points))).
  { eapply (Slots.reachable_handle _ _ Slots.ClickStep1); [apply Slots.reachable_constructor|].
    reflexivity. }
  split; [exact H|]. exact (reachable_handle_defined _ _ Slots.ClickStep2 H).
Defined.

Lemma built_graph_nonnegative points (k : Z) (ns : list Z) :
  buildAdjacencyGraph points !! k = Some ns → 0 ≤ k ∧ Forall (λ x, 0 ≤ x) ns.
Proof.
  intros Hk. split.
  - rewrite buildAdjacencyGraph_lookup in Hk. by destruct (decide (0 ≤ k)).
  - apply Forall_forall. intros x Hx.
    destruct (buildAdjacencyGraph_neighbors points k ns x Hk Hx). lia.
Qed.

(** In every state that the window reaches, the three drawing functions of
    the viewer read no point out of bounds and issue well-formed calls: the
    graph, the faces and the hexahedra that the window hands to the viewer
    only hold indices of points. Every face is drawn as one quad and every
    hexahedron as six. *)
Theorem reachable_drawing_well_formed (points : list MeshPoint) (s : Slots.t) :
  Slots.reachable points s →
  (∃ calls, GLWidget.drawGraph (Slots.m_glWidget s) = Some calls ∧ well_formed calls)
  ∧ (∃ calls, GLWidget.drawFaces (Slots.m_glWidget s) = Some calls
              ∧ well_formed calls
              ∧ count is_begin calls = length (Slots.m_faces s)
              ∧ count is_vertex calls = (4 * length (Slots.m_faces s))%nat)
  ∧ (∃ calls, GLWidget.drawHexahedra (Slots.m_glWidget s) = Some calls
              ∧ well_formed calls
              ∧ count is_begin calls = (6 * length (Slots.m_hexahedra s))%nat
              ∧ count is_vertex calls = (24 * length (Slots.m_hexahedra s))%nat).
Proof.
  intros (Hp & Hwp & Hwg & Hwf & Hwh & Hphase)%reachable_invariant.
  assert (Hgraph : ∀ k ns, Slots.m_adjGraph s !! k = Some ns
                           → 0 ≤ k ∧ Forall (λ x, 0 ≤ x) ns).
  { destruct Hphase as [(_ & _ & _ & Hg & _)|[(_ & _ & _ & Hg & _)|
                        [(_ & _ & _ & Hg & _)|(_ & _ & _ & Hg & _)]]];
      rewrite Hg; first [by intros k ns ?%lookup_empty_Some | apply built_graph_nonnegative]. }
  assert (Hfaces : Forall (λ f, Forall (λ x, 0 ≤ x < Z.of_nat (length points)) (face_pts f))
                     (Slots.m_faces s)).
  { destruct Hphase as [(_ & _ & _ & _ & Hf & _)|[(_ & _ & _ & _ & Hf & _)|
                        [(_ & _ & _ & _ & Hf & _)|(_ & _ & _ & _ & Hf & _)]]];
      first [by rewrite Hf | apply Forall_forall; by eapply returned_faces_in_range]. }
  assert (Hhex : Forall (λ hex, Forall (λ x, 0 ≤ x < Z.of_nat (length points)) (hex_pts hex))
                   (Slots.m_hexahedra s)).
  { destruct Hphase as [(_ & _ & _ & _ & _ & Hh)|[(_ & _ & _ & _ & _ & Hh)|
                        [(_ & _ & _ & _ & _ & Hh)|(_ & _ & _ & _ & Hf & Hh)]]];
      rewrite Hh; first [done | by eapply built_hexahedra_in_range]. }
  split; [|split].
  - destruct (drawGraph_entries_nonnegative points (map_to_list (Slots.m_adjGraph s)))
      as (calls & Hcalls & Hall & Hlen).
    { apply Forall_forall. intros [k ns] Hin%elem_of_map_to_list. by apply Hgraph. }
    unfold GLWidget.drawGraph. rewrite Hwp, Hwg, Hcalls. eexists. split; [reflexivity|].
    by eapply lines_well_formed.
  - destruct (drawFaces_loop_in_range points (Slots.m_faces s) Hfaces)
      as (calls & Hloop & Hwf' & Hcount & Hbegin).
    unfold GLWidget.drawFaces. rewrite Hwp, Hwf, Hloop. eexists. split; [reflexivity|].
    split; [exact Hwf'|]. by rewrite !count_cons.
  - destruct (drawHexahedra_loop_in_range points (Slots.m_hexahedra s) Hhex)
      as (calls & Hloop & Hwf' & Hcount & Hbegin).
    unfold GLWidget.drawHexahedra. rewrite Hwp, Hwh, Hloop. eexists. split; [reflexivity|].
    split; [exact Hwf'|]. by rewrite !count_cons.
Qed.

Lemma reachable_run points events s s' :
  Slots.reachable points s → run events s = Some s' → Slots.reachable points s'.
Proof.
  revert s. induction events as [|e events IH]; intros s Hs; unfold run; simpl.
  - by intros [= <-].
  - destruct (Slots.handle e s) as [s1|] eqn:Hstep; [|done]. simpl.
    apply IH. by eapply Slots.reachable_handle.
Qed.

(** The window of the reference layout after the three steps, the sets
    being iterated in the order of insertion. *)
Lemma reachable_drawing_well_formed_witness :
  let w := GLWidget.mk MainWindow.m_points MainWindow.reference_graph
             MainWindow.reference_faces MainWindow.reference_hexahedra GLWidget.lit_1_0 in
  let s := Slots.mk MainWindow.m_points MainWindow.reference_graph
             MainWindow.reference_faces MainWindow.reference_hexahedra w false false false in
  run [Slots.ClickStep1; Slots.ClickStep2; Slots.ClickStep3]
    (Slots.constructor MainWindow.m_points) = Some s
  ∧ Slots.reachable MainWindow.m_points s
  ∧ (∃ calls, GLWidget.drawGraph w = Some calls ∧ well_formed calls)
  ∧ (∃ calls, GLWidget.drawFaces w = Some calls ∧ well_formed calls
              ∧ count is_begin calls = 15%nat ∧ count is_vertex calls = 60%nat)
  ∧ (∃ calls, GLWidget.drawHexahedra w = Some calls ∧ well_formed calls
              ∧ count is_begin calls = 18%nat ∧ count is_vertex calls = 72%nat).
Proof.
  cbv zeta.
  assert (Hrun : run [Slots.ClickStep1; Slots.ClickStep2; Slots.ClickStep3]
                   (Slots.constructor MainWindow.m_points)
                 = Some (Slots.mk MainWindow.m_points MainWindow.reference_graph
                           MainWindow.reference_faces MainWindow.reference_hexahedra
                           (GLWidget.mk MainWindow.m_points MainWindow.reference_graph
                              MainWindow.reference_faces MainWindow.reference_hexahedra
                              GLWidget.lit_1_0)
                           false false false)) by (vm_compute; reflexivity).
  pose proof (reachable_run _ _ _ _ (Slots.reachable_constructor MainWindow.m_points) Hrun)
    as Hreach.
  split; [exact Hrun|]. split; [exact Hreach|].
  exact (reachable_drawing_well_formed _ _ Hreach).
Defined.

Lemma run_wheel (d : Z) (n : nat) (s : Slots.t) :
  ∃ s', run (replicate n (Slots.Wheel d)) s = Some s'
        ∧ GLWidget.m_zoom (Slots.m_glWidget s')
          = Nat.iter n (λ z, GLWidget.m_zoom (GLWidget.wheelEvent d (GLWidget.mk [] ∅ [] [] z)))
              (GLWidget.m_zoom (Slots.m_glWidget s)).
Proof.
  revert s. induction n as [|n IH]; intros s.
  - by exists s.
  - rewrite Nat.iter_succ_r. cbn [replicate]. unfold run. cbn [foldM Slots.handle mbind option_bind].
    apply IH.
Qed.

Lemma handle_keeps_zoom (z : spec_float) (e : Slots.event) (s s' : Slots.t) :
  (∀ d, GLWidget.m_zoom (GLWidget.wheelEvent d (GLWidget.mk [] ∅ [] [] z)) = z) →
  GLWidget.m_zoom (Slots.m_glWidget s) = z → Slots.handle e s = Some s' →
  GLWidget.m_zoom (Slots.m_glWidget s') = z.
Proof.
  intros Hfix Hz Hstep. destruct e; simpl in Hstep.
  - by injection Hstep as <-.
  - by destruct (Slots.m_step1Button s); injection Hstep as <-.
  - destruct (Slots.m_step2Button s); [|by injection Hstep as <-].
    unfold Slots.onStep2_FindFaces in Hstep.
    destruct (findValidFaces _ _); [|done]. by injection Hstep as <-.
  - by destruct (Slots.m_step3Button s); injection Hstep as <-.
  - injection Hstep as <-. simpl. rewrite Hz. apply (Hfix angleDelta_y).
Qed.

Lemma run_keeps_zoom (z : spec_float) (events : list Slots.event) (s s' : Slots.t) :
  (∀ d, GLWidget.m_zoom (GLWidget.wheelEvent d (GLWidget.mk [] ∅ [] [] z)) = z) →
  GLWidget.m_zoom (Slots.m_glWidget s) = z → run events s = Some s' →
  GLWidget.m_zoom (Slots.m_glWidget s') = z.
Proof.
  intros Hfix. revert s. induction events as [|e events IH]; intros s Hz; unfold run; simpl.
  - by intros [= <-].
  - destruct (Slots.handle e s) as [s1|] eqn:Hstep; [|done]. simpl.
    apply IH. by eapply handle_keeps_zoom.
Qed.

(** The zoom can get stuck. After 965 turns of the wheel towards the user
    the zoom factor is 4 * 2^-149, and after 931 turns away from the user it
    is infinite; from either state no sequence of events changes it any
    more: the products with [0.9f] and [1.1f] are rounded back to the same
    number, and Reset leaves the zoom as it is. *)
Theorem zoom_gets_stuck (points : list MeshPoint) :
  (∃ s, run (replicate 965 (Slots.Wheel (-120))) (Slots.constructor points) = Some s
        ∧ GLWidget.m_zoom (Slots.m_glWidget s) = S754_finite false 4 (-149)
        ∧ ∀ events s', run events s = Some s'
            → GLWidget.m_zoom (Slots.m_glWidget s') = S754_finite false 4 (-149))
  ∧ (∃ s, run (replicate 931 (Slots.Wheel 120)) (Slots.constructor points) = Some s
          ∧ GLWidget.m_zoom (Slots.m_glWidget s) = S754_infinity false
          ∧ ∀ events s', run events s = Some s'
              → GLWidget.m_zoom (Slots.m_glWidget s') = S754_infinity false).
Proof.
  split.
  - destruct (run_wheel (-120) 965 (Slots.constructor points)) as (s & Hrun & Hz).
    exists s. split; [exact Hrun|].
    assert (Hz' : GLWidget.m_zoom (Slots.m_glWidget s) = S754_finite false 4 (-149)).
    { rewrite Hz. vm_compute. reflexivity. }
    split; [exact Hz'|]. intros events s'. apply run_keeps_zoom; [|exact Hz'].
    intros d. unfold GLWidget.wheelEvent. simpl. by destruct (0 <? d).
  - destruct (run_wheel 120 931 (Slots.constructor points)) as (s & Hrun & Hz).
    exists s. split; [exact Hrun|].
    assert (Hz' : GLWidget.m_zoom (Slots.m_glWidget s) = S754_infinity false).
    { rewrite Hz. vm_compute. reflexivity. }
    split; [exact Hz'|]. intros events s'. apply run_keeps_zoom; [|exact Hz'].
    intros d. unfold GLWidget.wheelEvent. simpl. by destruct (0 <? d).
Qed.
End window.
